(** * Section-generation orchestrator (generationService.js)

    A shallow embedding of
    [research-assistant-backend/src/services/generationService.js]:
    the pure helpers ([extractSourceContent], [collectReferences],
    [formatReference], the two generation paths) and the asynchronous run
    [generateProjectContent], modelled as a transition system whose steps
    are the resumptions of the JavaScript tasks at their [await] points.

    Conventions.
    - A JavaScript string is a [string] of code units; [Js.length] is
      [.length].
    - A value that may be [undefined]/[null] is an [option].
    - A store or model call is issued when the code calls it (the call is
      appended to the run's [log]) and settles later, when the scheduler
      resumes the awaiting task; whether it resolves or rejects is read
      from the environment [Env]. *)

From stdpp Require Import gmap strings list pretty.
From Stdlib Require Import NArith.

Local Open Scope string_scope.
Local Open Scope list_scope.
Local Open Scope stdpp_scope.
Local Open Scope nat_scope.

(** ** JavaScript string helpers *)

Module Js.

Definition LF : string := String (Ascii.ascii_of_nat 10) EmptyString.

(** White space of [String.prototype.trim] and of the regular expression
    class [\s], for code units below 256. *)
Definition is_space (c : Ascii.ascii) : bool :=
  let n := Ascii.nat_of_ascii c in
  bool_decide (n = 9 ∨ n = 10 ∨ n = 11 ∨ n = 12 ∨ n = 13 ∨ n = 32 ∨ n = 160).

Fixpoint trimStart (s : string) : string :=
  match s with
  | EmptyString => EmptyString
  | String c r => if is_space c then trimStart r else s
  end.

Definition trimEnd (s : string) : string :=
  String.rev (trimStart (String.rev s)).

Definition trim (s : string) : string := trimEnd (trimStart s).

(** [a.join(sep)] *)
Fixpoint join (sep : string) (l : list string) : string :=
  match l with
  | [] => ""
  | [x] => x
  | x :: rest => x +:+ sep +:+ join sep rest
  end.

(** [s.length] *)
Definition length (s : string) : N := N.of_nat (String.length s).

(** [s.substring(0, n)] *)
Definition prefix (n : N) (s : string) : string :=
  String.substring 0 (N.to_nat n) s.

Definition preview (s : string) : string := String.substring 0 200 s.

(** [s.split(/\s+/).length]: one more than the number of maximal runs of
    white space. *)
Fixpoint space_runs (in_run : bool) (s : string) : nat :=
  match s with
  | EmptyString => 0
  | String c r =>
      if is_space c
      then (if in_run then 0 else 1) + space_runs true r
      else space_runs false r
  end.

Definition split_count (s : string) : nat := S (space_runs false s).

(** [x || d] on a string that may be absent: the empty string is falsy. *)
Definition truthy (x : option string) : option string :=
  match x with
  | Some s => if decide (s = "") then None else Some s
  | None => None
  end.

Definition or_else (x : option string) (d : string) : string :=
  default d (truthy x).

(** A string of [n] copies of a character. *)
Definition repeat (c : Ascii.ascii) (n : N) : string :=
  N.iter n (String c) "".

End Js.

(** ** Data model *)

Record SectionContent := {
  text : option string;
  headings : list string;
}.

Record ExtractedContent := {
  sections : option (gmap string SectionContent);
  fullText : option string;
}.

Record DocMetadata := {
  meta_title : option string;
  meta_authors : option (list string);
}.

Record Reference := {
  ref_id : option string;
  ref_authors : option (list string);
  ref_title : option string;
  ref_year : option string;
  ref_journal : option string;
  ref_doi : option string;
  rawText : option string;
}.

Record Document := {
  doc_id : string;
  filename : string;
  extracted_content : option ExtractedContent;
  metadata : option DocMetadata;
  references : option (list Reference);
}.

Record SourceMapping := {
  sourceSections : option (list string);
  sourceDocuments : list string;
}.

Record SectionConfig := {
  templateSectionId : string;
  templateSectionTitle : string;
  sourceMapping : SourceMapping;
  instructions : option string;
  targetLength : option string;
}.

Inductive Mode := Single | Multi.

Record Project := {
  projectId : string;
  mode : Mode;
  purpose : string;
  documents : list Document;
  section_mapping : list SectionConfig;
  global_instructions : option string;
}.

(** The entries of the aggregated [references] array of a draft. *)
Record DraftReference := {
  dr_id : string;
  dr_index : nat;
  dr_sourceDocumentId : string;
  dr_sourceRefId : option string;
  dr_authors : option (list string);
  dr_title : option string;
  dr_year : option string;
  dr_journal : option string;
  dr_doi : option string;
  dr_formatted : string;
}.

Record SourceRef := {
  sr_documentId : string;
  sr_sections : option (list string);
}.

(** What a generation path returns for one section. *)
Record SectionResult := {
  success : bool;
  content : option string;
  warnings : list string;
  sourceRefs : list SourceRef;
}.

(** ** Collaborators that are imported by the service *)

Record Parsed := {
  p_success : bool;
  p_content : option string;
  p_warnings : option (list string);
}.

Record RewriteArgs := {
  rw_sectionTitle : string;
  rw_sourceContent : string;
  rw_instructions : option string;
  rw_globalInstructions : option string;
  rw_targetLength : option string;
  rw_purpose : string;
  rw_documentMetadata : option DocMetadata;
}.

Record DocContent := {
  dc_title : string;
  dc_authors : list string;
  dc_content : string;
}.

Record MultiArgs := {
  md_sectionTitle : string;
  md_documents : list DocContent;
  md_instructions : option string;
  md_globalInstructions : option string;
  md_targetLength : option string;
  md_purpose : option string;
}.

(** A call of one of the three prompt builders, with its argument. *)
Inductive PromptRequest :=
  | SectionRewrite (a : RewriteArgs)
  | ComparativeAnalysis (a : MultiArgs)
  | MultiDocumentSynthesis (a : MultiArgs).

(** The prompt builders of [ai/promptBuilder.js] and the parsers of
    [ai/responseParser.js] are imported by the service; their prompt
    templates and parsing heuristics are taken as parameters (total
    functions: they return, they do not throw).  [inspect] is the rendering
    the runtime uses in the message of the error it throws for an
    unhandled ['error'] event. *)
Record Helpers := {
  buildSectionRewritePrompt : RewriteArgs → string;
  buildMultiDocumentSynthesisPrompt : MultiArgs → string;
  buildComparativeAnalysisPrompt : MultiArgs → string;
  parseSectionContent : string → string → Parsed;
  parseMultiDocResponse : string → nat → Parsed;
  inspect : option string → string → bool → string;
}.

Definition buildPrompt (h : Helpers) (req : PromptRequest) : string :=
  match req with
  | SectionRewrite a => buildSectionRewritePrompt h a
  | ComparativeAnalysis a => buildComparativeAnalysisPrompt h a
  | MultiDocumentSynthesis a => buildMultiDocumentSynthesisPrompt h a
  end.

(** Modelled from the spec: the body of [truncateForContext], which the
    service imports from [ai/promptBuilder.js] (line 7) and which is
    missing from the sources.  "If [text.length > maxChars],
    deterministically cut to [maxChars] (head-truncation) and set
    [truncated = true]; guarantees output length ≤ maxChars". *)
Definition truncateForContext (text : string) (maxChars : N) : string * bool :=
  if bool_decide (maxChars < Js.length text)%N
  then (Js.prefix maxChars text, true)
  else (text, false).

(** ** Pure helpers of the service *)

Definition doc_sections (document : Document) : gmap string SectionContent :=
  default ∅ (extracted_content document ≫= sections).

Definition doc_fullText (document : Document) : string :=
  Js.or_else (extracted_content document ≫= fullText) "".

(** [sections[key]?.text], when truthy. *)
Definition section_text (document : Document) (key : string) : option string :=
  Js.truthy (doc_sections document !! key ≫= text).

(** [extractSourceContent] (lines 336-359). *)
Definition extractSourceContent
    (document : Document) (sectionKeys : option (list string)) : string :=
  match sectionKeys with
  | None | Some [] => doc_fullText document
  | Some keys =>
      let contents : list string := omap (section_text document) keys in
      if bool_decide (length contents = 0)
      then doc_fullText document
      else Js.join (Js.LF +:+ Js.LF) contents
  end.

(** [formatReference] (lines 394-401). *)
Definition formatReference (ref : Reference) : string :=
  let authors :=
    Js.or_else (Js.join ", " <$> ref_authors ref) "Unknown" in
  let year := Js.or_else (ref_year ref) "n.d." in
  let title := Js.or_else (ref_title ref) "Untitled" in
  let journal :=
    match Js.truthy (ref_journal ref) with
    | Some j => ". " +:+ j
    | None => ""
    end in
  authors +:+ " (" +:+ year +:+ "). " +:+ title +:+ journal +:+ ".".

Definition makeReference (refIndex : nat) (doc : Document) (ref : Reference)
    : DraftReference :=
  {| dr_id := "ref_" +:+ pretty refIndex;
     dr_index := refIndex;
     dr_sourceDocumentId := doc_id doc;
     dr_sourceRefId := ref_id ref;
     dr_authors := ref_authors ref;
     dr_title := ref_title ref;
     dr_year := ref_year ref;
     dr_journal := ref_journal ref;
     dr_doi := ref_doi ref;
     dr_formatted := Js.or_else (rawText ref) (formatReference ref) |}.

(** The inner loop of [collectReferences]: the references of one document
    are appended, [refIndex] advancing by one for each. *)
Fixpoint collectDocRefs (doc : Document) (docRefs : list Reference)
    (acc : list DraftReference * nat) : list DraftReference * nat :=
  match docRefs with
  | [] => acc
  | ref :: rest =>
      let '(allRefs, refIndex) := acc in
      collectDocRefs doc rest
        (allRefs ++ [makeReference refIndex doc ref], S refIndex)
  end.

Fixpoint collectLoop (docs : list Document)
    (acc : list DraftReference * nat) : list DraftReference * nat :=
  match docs with
  | [] => acc
  | doc :: rest =>
      collectLoop rest (collectDocRefs doc (default [] (references doc)) acc)
  end.

(** [collectReferences] (lines 364-389). *)
Definition collectReferences (docs : list Document) : list DraftReference :=
  fst (collectLoop docs ([], 1)).

(** ** The two generation paths

    A generation path runs synchronously up to its only [await], the call of
    the model client.  [Generation] is what the path has done when control
    returns to the caller: it has returned without calling the model, it has
    thrown, or it has built a prompt, called [generateContent] on it and is
    waiting for the response, which the continuation turns into the
    section's result. *)

Inductive Generation :=
  | GenDone (r : SectionResult)
  | GenThrow (message : string)
  | GenCall (req : PromptRequest) (k : string → SectionResult).

Definition MAX_CONTEXT : N := 100000.
Definition MIN_CONTENT : N := 50.

Section Paths.

Context (h : Helpers).

(** [generateSingleDocSection] (lines 209-263). *)
Definition generateSingleDocSection (sectionConfig : SectionConfig)
    (document : Document) (purpose : string)
    (globalInstructions : option string) : Generation :=
  let sm := sourceMapping sectionConfig in
  let sourceContent := extractSourceContent document (sourceSections sm) in
  if bool_decide (sourceContent = "")
     || bool_decide (Js.length (Js.trim sourceContent) < MIN_CONTENT)%N
  then
    GenDone {| success := false;
               content := Some "[Insufficient source content for this section]";
               warnings := ["No relevant content found in source document"];
               sourceRefs := [] |}
  else
    let '(truncatedContent, truncated) :=
      truncateForContext sourceContent MAX_CONTEXT in
    GenCall
      (SectionRewrite
         {| rw_sectionTitle := templateSectionTitle sectionConfig;
            rw_sourceContent := truncatedContent;
            rw_instructions := instructions sectionConfig;
            rw_globalInstructions := globalInstructions;
            rw_targetLength := targetLength sectionConfig;
            rw_purpose := purpose;
            rw_documentMetadata := metadata document |})
      (λ response,
         let parsed :=
           parseSectionContent h response (templateSectionTitle sectionConfig) in
         {| success := p_success parsed;
            content := p_content parsed;
            warnings :=
              default [] (p_warnings parsed) ++
              (if truncated
               then ["Source content was truncated due to length"]
               else []);
            sourceRefs :=
              [ {| sr_documentId := doc_id document;
                   sr_sections := sourceSections sm |} ] |}).

(** [docsToUse] of [generateMultiDocSection] (lines 272-274). *)
Definition docsToUse (sm : SourceMapping) (docs : list Document)
    : list Document :=
  if bool_decide ("all" ∈ sourceDocuments sm)
  then docs
  else filter (λ d, doc_id d ∈ sourceDocuments sm) docs.

(** [docContents] of [generateMultiDocSection] (lines 277-284). *)
Definition docContents (sm : SourceMapping) (docs : list Document)
    : list DocContent :=
  filter (λ d, (MIN_CONTENT < Js.length (dc_content d))%N)
    ((λ doc,
        {| dc_title :=
             Js.or_else (metadata doc ≫= meta_title) (filename doc);
           dc_authors := default [] (metadata doc ≫= meta_authors);
           dc_content := extractSourceContent doc (sourceSections sm) |})
       <$> docsToUse sm docs).

(** [generateMultiDocSection] (lines 268-331). *)
Definition generateMultiDocSection (sectionConfig : SectionConfig)
    (docs : list Document) (purpose : string)
    (globalInstructions : option string) : Generation :=
  let sm := sourceMapping sectionConfig in
  let contents := docContents sm docs in
  if bool_decide (length contents = 0)
  then
    GenDone {| success := false;
               content := Some "[Insufficient source content across documents]";
               warnings := ["No relevant content found in source documents"];
               sourceRefs := [] |}
  else
    let prompt :=
      if bool_decide (purpose = "comparative")
      then ComparativeAnalysis
             {| md_sectionTitle := templateSectionTitle sectionConfig;
                md_documents := contents;
                md_instructions := instructions sectionConfig;
                md_globalInstructions := globalInstructions;
                md_targetLength := None;
                md_purpose := None |}
      else MultiDocumentSynthesis
             {| md_sectionTitle := templateSectionTitle sectionConfig;
                md_documents := contents;
                md_instructions := instructions sectionConfig;
                md_globalInstructions := globalInstructions;
                md_targetLength := targetLength sectionConfig;
                md_purpose := Some purpose |} in
    GenCall prompt
      (λ response,
         let parsed := parseMultiDocResponse h response (length contents) in
         {| success := negb (bool_decide (p_success parsed = false));
            content := p_content parsed;
            warnings := default [] (p_warnings parsed);
            sourceRefs :=
              (λ doc, {| sr_documentId := doc_id doc;
                         sr_sections := sourceSections sm |})
              <$> docsToUse sm docs |}).

(** The body of [generationPromise] (lines 72-88).  In single mode the
    path receives [documents[0]]; when the project has no document that is
    [undefined], and reading [document.extracted_content] throws. *)
Definition generation (p : Project) (sectionConfig : SectionConfig)
    : Generation :=
  match mode p with
  | Single =>
      match documents p !! 0 with
      | Some document =>
          generateSingleDocSection sectionConfig document (purpose p)
            (global_instructions p)
      | None =>
          GenThrow
            "Cannot read properties of undefined (reading 'extracted_content')"
      end
  | Multi =>
      generateMultiDocSection sectionConfig (documents p) (purpose p)
        (global_instructions p)
  end.

(** The source content a prompt builder is given. *)
Definition prompt_sources (req : PromptRequest) : list string :=
  match req with
  | SectionRewrite a => [rw_sourceContent a]
  | ComparativeAnalysis a | MultiDocumentSynthesis a =>
      dc_content <$> md_documents a
  end.

End Paths.

(** ** The run: data

    [generateProjectContent] is an [async] function that starts up to three
    [processSection] tasks per batch.  JavaScript runs a task without
    interruption up to its next [await]; a task that awaits a call to the
    outside (the store, the model client, a timer) is resumed when that call
    settles, and the reactions to a settled promise ([Promise.race],
    [Promise.all], the continuation of an [await]) run before the next call
    to the outside is looked at.  The run is therefore a transition system:
    a state records where each task is suspended, and a step resumes one
    task, for the run itself or for one section, and runs it, together with
    what reacts to it, up to the next [await]s.  In which order the
    outstanding calls settle is not decided by the program: a schedule is a
    list of choices, and the statements about runs hold for every
    schedule. *)

Inductive Status := StDraft | StGenerating | StReady.

Record ErrorEntry := {
  section : string;
  error : string;
}.

Record SectionEntry := {
  sectionId : string;
  sectionTitle : string;
  entry_success : bool;
  wordCount : nat;
}.

(** The progress object given to [updateProjectStatus]; the time stamps
    ([startedAt], [completedAt], [failedAt]) are left out. *)
Record Progress := {
  totalSections : nat;
  completedSections : nat;
  currentSection : option string;
  errors : list ErrorEntry;
}.

Inductive StatusPayload :=
  | ProgressUpdate (pr : Progress)
  | Failure (message : string).

Record DraftSection := {
  ds_templateSectionId : string;
  ds_templateSectionTitle : string;
  ds_content : option string;
  ds_sourceRefs : list SourceRef;
  ds_warnings : list string;
}.

(** The four kinds of events of [generationEvents]. *)
Inductive Event :=
  | EvProgress (total completed : nat) (current : string)
  | EvSectionComplete (id title preview : string) (ok : bool)
  | EvError (title : option string) (message : string) (recoverable : bool)
  | EvComplete (draft : string) (sectionsGenerated : nat)
      (errs : list ErrorEntry).

(** A thrown value: an [Error] with its message, or the error that
    [EventEmitter.emit] throws when an ['error'] event is emitted and no
    listener is registered for it (its argument is the event's payload). *)
Inductive Exn :=
  | Error (message : string)
  | UnhandledError (title : option string) (message : string)
      (recoverable : bool).

(** What the run does to the outside, in the order in which it does it. *)
Inductive Action :=
  | Emit (project : string) (e : Event)
  | UpdateProjectStatus (project : string) (st : Status)
      (payload : StatusPayload)
  | CreateDraft (project : string)
  | SetTimeout (i : nat) (ms : N)
  | GenerateContent (i : nat) (prompt : string)
  | UpdateDraftSection (draft : string) (i : nat) (d : DraftSection)
  | UpdateDraftReferences (draft : string) (refs : list DraftReference).

(** How the model client behaves on the call made for a section: it
    resolves or rejects some milliseconds after the call, or never
    settles.  The timer of the section is set just before the call, so the
    call wins the race when it settles in less than [TIMEOUT_MS]. *)
Inductive ModelBehaviour :=
  | Replies (after : N) (response : string)
  | Fails (after : N) (message : string)
  | Hangs.

(** The environment of a run.  A store call resolves ([None]) or rejects
    with a message; the calls made on behalf of a section are indexed by
    the section's position in the mapping.  [errorListener] tells whether a
    listener is registered for ['error'] on [generationEvents] (the
    streaming route registers one per connected client, and removes it
    when the client goes) at the moment the catch block of a section
    ([Some i]) or of the run ([None]) emits. *)
Record Env := {
  errorListener : option nat → bool;
  initStatus : option string;
  createDraft : string + string;
  generateContent : nat → ModelBehaviour;
  writeSection : nat → option string;
  writePlaceholder : nat → option string;
  writeProgress : nat → option string;
  writeReferences : option string;
  writeReady : option string;
  writeRollback : option string;
}.

(** Where [processSection] is suspended for one section. *)
Inductive SectionPc :=
  | Idle
  | AwaitRace
  | AwaitWrite (r : SectionResult)
  | AwaitPlaceholder
  | AwaitProgress (pending : option Exn)
  | Settled (rejected : option Exn).

(** Where [generateProjectContent] is suspended. *)
Inductive MainPc :=
  | AwaitInitStatus
  | AwaitCreateDraft
  | AwaitBatch
  | AwaitReferences
  | AwaitReady
  | AwaitRollback (e : Exn)
  | Returned
  | Thrown (e : Exn).

Record Results := {
  r_sections : list SectionEntry;
  r_errors : list ErrorEntry;
  r_warnings : list string;
}.

(** The state of a run: where the run and the sections are suspended, the
    variable [i] of the loop of line 157, [draft.id] (empty until the draft
    is created), the [results] object, what the run has done so far, the
    status that the store has last taken from this run, and the sections
    whose model call has been issued and has not settled. *)
Record State := {
  pc : MainPc;
  loop_i : nat;
  secs : list SectionPc;
  draftId : string;
  results : Results;
  log : list Action;
  status : option Status;
  inflight : list nat;
}.

Definition set_pc (x : MainPc) (s : State) : State :=
  {| pc := x; loop_i := loop_i s; secs := secs s; draftId := draftId s;
     results := results s; log := log s; status := status s;
     inflight := inflight s |}.

Definition set_loop (i : nat) (s : State) : State :=
  {| pc := pc s; loop_i := i; secs := secs s; draftId := draftId s;
     results := results s; log := log s; status := status s;
     inflight := inflight s |}.

Definition set_sec (i : nat) (x : SectionPc) (s : State) : State :=
  {| pc := pc s; loop_i := loop_i s; secs := <[i:=x]> (secs s);
     draftId := draftId s; results := results s; log := log s;
     status := status s; inflight := inflight s |}.

Definition set_draft (d : string) (s : State) : State :=
  {| pc := pc s; loop_i := loop_i s; secs := secs s; draftId := d;
     results := results s; log := log s; status := status s;
     inflight := inflight s |}.

Definition set_results (r : Results) (s : State) : State :=
  {| pc := pc s; loop_i := loop_i s; secs := secs s; draftId := draftId s;
     results := r; log := log s; status := status s;
     inflight := inflight s |}.

Definition set_status (st : Status) (s : State) : State :=
  {| pc := pc s; loop_i := loop_i s; secs := secs s; draftId := draftId s;
     results := results s; log := log s; status := Some st;
     inflight := inflight s |}.

Definition set_inflight (l : list nat) (s : State) : State :=
  {| pc := pc s; loop_i := loop_i s; secs := secs s; draftId := draftId s;
     results := results s; log := log s; status := status s;
     inflight := l |}.

(** An action is appended to the log when the code performs it. *)
Definition act (a : Action) (s : State) : State :=
  {| pc := pc s; loop_i := loop_i s; secs := secs s; draftId := draftId s;
     results := results s; log := log s ++ [a]; status := status s;
     inflight := inflight s |}.

(** The store takes a status update that it does not reject. *)
Definition persist (outcome : option string) (st : Status) (s : State)
    : State :=
  match outcome with
  | None => set_status st s
  | Some _ => s
  end.

Definition push_section (e : SectionEntry) (s : State) : State :=
  set_results
    {| r_sections := r_sections (results s) ++ [e];
       r_errors := r_errors (results s);
       r_warnings := r_warnings (results s) |} s.

Definition push_error (e : ErrorEntry) (s : State) : State :=
  set_results
    {| r_sections := r_sections (results s);
       r_errors := r_errors (results s) ++ [e];
       r_warnings := r_warnings (results s) |} s.

Definition push_warnings (ws : list string) (s : State) : State :=
  set_results
    {| r_sections := r_sections (results s);
       r_errors := r_errors (results s);
       r_warnings := r_warnings (results s) ++ ws |} s.

Definition CONCURRENCY : nat := 3.
Definition TIMEOUT_MS : N := 300000.

(** [a.slice(i, j)] *)
Definition slice {A} (i j : nat) (l : list A) : list A :=
  take (j - i) (drop i l).

(** ** The run: transitions *)

Section Run.

Context (h : Helpers) (env : Env) (p : Project).

Definition total : nat := length (section_mapping p).

(** [error.message] *)
Definition exn_message (e : Exn) : string :=
  match e with
  | Error m => m
  | UnhandledError t m r => "Unhandled error. (" +:+ inspect h t m r +:+ ")"
  end.

(** [generationEvents.emit('error', payload)]: the listeners are called.
    An [EventEmitter] treats ['error'] as a special case: when no listener
    is registered for it, [emit] throws instead (here, since the payload is
    not an [Error], an error whose message is "Unhandled error." followed
    by the rendering of the payload). *)
Definition emitError (site : option nat) (title : option string)
    (m : string) (r : bool) (s : State) : State + Exn :=
  if errorListener env site
  then inl (act (Emit (projectId p) (EvError title m r)) s)
  else inr (UnhandledError title m r).

(** The [finally] block of [processSection] (lines 145-153); [pending] is
    the exception that is in flight through the block, if any. *)
Definition finallySection (i : nat) (pending : option Exn) (s : State)
    : State :=
  let done := length (r_sections (results s)) in
  let s :=
    act (UpdateProjectStatus (projectId p) StGenerating
           (ProgressUpdate
              {| totalSections := total;
                 completedSections := done;
                 currentSection :=
                   Some ("Processing... (" +:+ pretty done +:+ "/"
                         +:+ pretty total +:+ ")");
                 errors := r_errors (results s) |})) s in
  set_sec i (AwaitProgress pending) (persist (writeProgress env i) StGenerating s).

(** The [catch] block of [processSection] (lines 121-144), up to its
    [await]. *)
Definition catchSection (i : nat) (cfg : SectionConfig) (e : Exn)
    (s : State) : State :=
  let title := templateSectionTitle cfg in
  let m := exn_message e in
  let s := push_error {| section := title; error := m |} s in
  match emitError (Some i) (Some title) m true s with
  | inl s =>
      let s :=
        act (UpdateDraftSection (draftId s) i
               {| ds_templateSectionId := templateSectionId cfg;
                  ds_templateSectionTitle := title;
                  ds_content :=
                    Some ("[Generation failed: " +:+ m
                          +:+ ". Please edit manually.]");
                  ds_sourceRefs := [];
                  ds_warnings := [m] |}) s in
      set_sec i AwaitPlaceholder s
  | inr e' => finallySection i (Some e') s
  end.

(** The start of [processSection] (lines 53-90), up to the [await] of the
    race: the progress event, the timer, and the synchronous part of the
    generation path. *)
Definition startSection (i : nat) (cfg : SectionConfig) (s : State)
    : State :=
  let s :=
    act (Emit (projectId p)
           (EvProgress total (length (r_sections (results s)))
              (templateSectionTitle cfg))) s in
  let s := act (SetTimeout i TIMEOUT_MS) s in
  let s :=
    match generation h p cfg with
    | GenCall req _ =>
        set_inflight (inflight s ++ [i])
          (act (GenerateContent i (buildPrompt h req)) s)
    | _ => s
    end in
  set_sec i AwaitRace s.

(** How [Promise.race([generationPromise, timeoutPromise])] settles. *)
Definition race (i : nat) (g : Generation) : SectionResult + Exn :=
  match g with
  | GenDone r => inl r
  | GenThrow m => inr (Error m)
  | GenCall _ k =>
      match generateContent env i with
      | Replies t response =>
          if bool_decide (t < TIMEOUT_MS)%N
          then inl (k response)
          else inr (Error "Generation timed out")
      | Fails t m =>
          if bool_decide (t < TIMEOUT_MS)%N
          then inr (Error m)
          else inr (Error "Generation timed out")
      | Hangs => inr (Error "Generation timed out")
      end
  end.

(** Whether the model call of section [i] settles before the timer. *)
Definition settles_in_time (i : nat) : bool :=
  match generateContent env i with
  | Replies t _ | Fails t _ => bool_decide (t < TIMEOUT_MS)%N
  | Hangs => false
  end.

(** Whether the model call of section [i] settles at all. *)
Definition settles (i : nat) : bool :=
  match generateContent env i with
  | Replies _ _ | Fails _ _ => true
  | Hangs => false
  end.

Definition remove_inflight (i : nat) (s : State) : State :=
  set_inflight (filter (λ j, j ≠ i) (inflight s)) s.

(** Lines 90-99: the race has settled. *)
Definition afterRace (i : nat) (cfg : SectionConfig) (s : State) : State :=
  let s := if settles_in_time i then remove_inflight i s else s in
  match race i (generation h p cfg) with
  | inl r =>
      let s :=
        act (UpdateDraftSection (draftId s) i
               {| ds_templateSectionId := templateSectionId cfg;
                  ds_templateSectionTitle := templateSectionTitle cfg;
                  ds_content := content r;
                  ds_sourceRefs := sourceRefs r;
                  ds_warnings := warnings r |}) s in
      set_sec i (AwaitWrite r) s
  | inr e => catchSection i cfg e s
  end.

(** Lines 101-119, then the [finally] block. *)
Definition recordSection (i : nat) (cfg : SectionConfig) (r : SectionResult)
    (s : State) : State :=
  let title := templateSectionTitle cfg in
  let s :=
    push_section
      {| sectionId := templateSectionId cfg;
         sectionTitle := title;
         entry_success := success r;
         wordCount := default 0 (Js.split_count <$> content r) |} s in
  let s :=
    act (Emit (projectId p)
           (EvSectionComplete (templateSectionId cfg) title
              (default "" (Js.preview <$> content r)) (success r))) s in
  let s :=
    if bool_decide (0 < length (warnings r))
    then push_warnings ((λ w, title +:+ ": " +:+ w) <$> warnings r) s
    else s in
  finallySection i None s.

(** The [catch] block of [generateProjectContent] (lines 186-193), up to
    its [await]. *)
Definition enterCatch (e : Exn) (s : State) : State :=
  let s :=
    act (UpdateProjectStatus (projectId p) StDraft
           (Failure (exn_message e))) s in
  set_pc (AwaitRollback e) (persist (writeRollback env) StDraft s).

(** Lines 162-164, after the loop. *)
Definition afterLoop (s : State) : State :=
  let allReferences := collectReferences (documents p) in
  set_pc AwaitReferences
    (act (UpdateDraftReferences (draftId s) allReferences) s).

(** [batch.map((section, batchIndex) => processSection(section, i + batchIndex))] *)
Fixpoint startAll (i : nat) (batch : list SectionConfig) (s : State)
    : State :=
  match batch with
  | [] => s
  | cfg :: rest => startAll (S i) rest (startSection i cfg s)
  end.

(** The loop of lines 157-160 from its test: with [i] below the length
    the batch is sliced and all its sections are started, then the run
    waits for [Promise.all]; otherwise the loop is left. *)
Definition enterLoop (i : nat) (s : State) : State :=
  let s := set_loop i s in
  if bool_decide (i < total)
  then
    let batch := slice i (i + CONCURRENCY) (section_mapping p) in
    set_pc AwaitBatch (startAll i batch s)
  else afterLoop s.

(** Whether every promise given to [Promise.all] has resolved. *)
Definition batch_resolved (s : State) : bool :=
  forallb
    (λ x, match x with Settled None => true | _ => false end)
    (slice (loop_i s) (loop_i s + CONCURRENCY) (secs s)).

(** [processSection] settles.  While the run waits for the batch, a
    rejection rejects [Promise.all] at once and the run enters its
    [catch] block; the last resolution lets the loop go on.  Once the run
    has left the batch, the settlement has no observer. *)
Definition settle (i : nat) (outcome : option Exn) (s : State) : State :=
  let s := set_sec i (Settled outcome) s in
  match pc s with
  | AwaitBatch =>
      match outcome with
      | Some e => enterCatch e s
      | None =>
          if batch_resolved s
          then enterLoop (loop_i s + CONCURRENCY) s
          else s
      end
  | _ => s
  end.

(** Lines 166-173. *)
Definition markReady (s : State) : State :=
  let s :=
    act (UpdateProjectStatus (projectId p) StReady
           (ProgressUpdate
              {| totalSections := total;
                 completedSections := total;
                 currentSection := None;
                 errors := r_errors (results s) |})) s in
  set_pc AwaitReady (persist (writeReady env) StReady s).

(** Lines 175-184. *)
Definition finish (s : State) : State :=
  set_pc Returned
    (act (Emit (projectId p)
            (EvComplete (draftId s) (length (r_sections (results s)))
               (r_errors (results s)))) s).

(** Lines 195-202. *)
Definition rethrow (e : Exn) (s : State) : State :=
  match emitError None None (exn_message e) false s with
  | inl s => set_pc (Thrown e) s
  | inr e' => set_pc (Thrown e') s
  end.

(** The call of [generateProjectContent], up to its first [await]
    (lines 28-37). *)
Definition init : State :=
  let s :=
    {| pc := AwaitInitStatus; loop_i := 0;
       secs := replicate total Idle; draftId := "";
       results := {| r_sections := []; r_errors := []; r_warnings := [] |};
       log := []; status := None; inflight := [] |} in
  let s :=
    act (UpdateProjectStatus (projectId p) StGenerating
           (ProgressUpdate
              {| totalSections := total;
                 completedSections := 0;
                 currentSection := None;
                 errors := [] |})) s in
  persist (initStatus env) StGenerating s.

(** What the scheduler resumes: the run itself, the [processSection] of
    a section, or the abandoned model call of a section whose timer has
    fired. *)
Inductive Choice :=
  | Main
  | Sec (i : nat)
  | Late (i : nat).

Definition stepMain (s : State) : option State :=
  match pc s with
  | AwaitInitStatus =>
      Some match initStatus env with
           | Some m => set_pc (Thrown (Error m)) s
           | None => set_pc AwaitCreateDraft (act (CreateDraft (projectId p)) s)
           end
  | AwaitCreateDraft =>
      Some match createDraft env with
           | inr m => set_pc (Thrown (Error m)) s
           | inl d => enterLoop 0 (set_draft d s)
           end
  | AwaitReferences =>
      Some match writeReferences env with
           | Some m => enterCatch (Error m) s
           | None => markReady s
           end
  | AwaitReady =>
      Some match writeReady env with
           | Some m => enterCatch (Error m) s
           | None => finish s
           end
  | AwaitRollback e =>
      Some match writeRollback env with
           | Some m => set_pc (Thrown (Error m)) s
           | None => rethrow e s
           end
  | AwaitBatch | Returned | Thrown _ => None
  end.

Definition stepSec (i : nat) (s : State) : option State :=
  cfg ← section_mapping p !! i;
  x ← secs s !! i;
  match x with
  | Idle | Settled _ => None
  | AwaitRace => Some (afterRace i cfg s)
  | AwaitWrite r =>
      Some match writeSection env i with
           | None => recordSection i cfg r s
           | Some m => catchSection i cfg (Error m) s
           end
  | AwaitPlaceholder =>
      Some match writePlaceholder env i with
           | None => finallySection i None s
           | Some m => finallySection i (Some (Error m)) s
           end
  | AwaitProgress pending =>
      Some match writeProgress env i with
           | None => settle i pending s
           | Some m => settle i (Some (Error m)) s
           end
  end.

(** The model call of a section that has timed out settles: nothing
    observes it. *)
Definition stepLate (i : nat) (s : State) : option State :=
  x ← secs s !! i;
  match x with
  | Idle | AwaitRace => None
  | _ =>
      if bool_decide (i ∈ inflight s) && settles i
      then Some (remove_inflight i s)
      else None
  end.

Definition step (s : State) (c : Choice) : option State :=
  match c with
  | Main => stepMain s
  | Sec i => stepSec i s
  | Late i => stepLate i s
  end.

(** A run under a schedule; a choice that is not enabled ends it. *)
Fixpoint run (sched : list Choice) (s : State) : option State :=
  match sched with
  | [] => Some s
  | c :: rest => step s c ≫= run rest
  end.

End Run.


(** ** Vocabulary of the statements *)

(** The bibliographic content of an aggregated reference: everything but
    its position and its provenance. *)
Definition citation (r : DraftReference)
    : option (list string) * option string * option string * option string
      * option string * string :=
  (dr_authors r, dr_title r, dr_year r, dr_journal r, dr_doi r, dr_formatted r).

(** A reference list is de-duplicated when no citation occurs twice. *)
Definition deduplicated (refs : list DraftReference) : Prop :=
  NoDup (citation <$> refs).

(** The references of all documents, in document order, each with the
    document it comes from. *)
Definition all_references (docs : list Document)
    : list (Document * Reference) :=
  d ← docs; (λ r, (d, r)) <$> default [] (references d).

Definition insufficient_single : SectionResult :=
  {| success := false;
     content := Some "[Insufficient source content for this section]";
     warnings := ["No relevant content found in source document"];
     sourceRefs := [] |}.

Definition insufficient_multi : SectionResult :=
  {| success := false;
     content := Some "[Insufficient source content across documents]";
     warnings := ["No relevant content found in source documents"];
     sourceRefs := [] |}.

Definition placeholder (m : string) : string :=
  "[Generation failed: " +:+ m +:+ ". Please edit manually.]".

(** ** Concrete inputs *)

Module Ex.

(** Stand-ins for the prompt builders and the parsers: the prompt is the
    source content, and a response is taken as the section's content. *)
Definition helpers : Helpers :=
  {| buildSectionRewritePrompt := rw_sourceContent;
     buildMultiDocumentSynthesisPrompt := λ a, Js.join "|" (dc_content <$> md_documents a);
     buildComparativeAnalysisPrompt := λ a, Js.join "|" (dc_content <$> md_documents a);
     parseSectionContent := λ response _,
       {| p_success := true; p_content := Some response; p_warnings := None |};
     parseMultiDocResponse := λ response _,
       {| p_success := true; p_content := Some response; p_warnings := None |};
     inspect := λ _ m _, m |}.

(** Sixty characters. *)
Definition sixty : string :=
  "Lorem ipsum dolor sit amet, consectetur adipiscing elit sed.".

Definition smith : Reference :=
  {| ref_id := Some "r1"; ref_authors := Some ["Smith, J."];
     ref_title := Some "On Widgets"; ref_year := Some "2020";
     ref_journal := Some "Journal of Widgets"; ref_doi := Some "10.1/w";
     rawText := None |}.

Definition doc (id body : string) (refs : list Reference) : Document :=
  {| doc_id := id; filename := id +:+ ".pdf";
     extracted_content :=
       Some {| sections :=
                 Some {[ "abstract" := {| text := Some body; headings := [] |} ]};
               fullText := Some body |};
     metadata := None;
     references := Some refs |}.

Definition paperA : Document := doc "A" sixty [smith].
Definition paperB : Document := doc "B" sixty [smith].

(** A document whose only section is too short to be used. *)
Definition note : Document := doc "N" "Too short." [].

(** A document whose text has 100001 characters. *)
Definition huge : Document := doc "H" (Js.repeat (Ascii.ascii_of_nat 97) 100001) [].

Definition section (id : string) (keys : option (list string)) : SectionConfig :=
  {| templateSectionId := id; templateSectionTitle := "Section " +:+ id;
     sourceMapping := {| sourceSections := keys; sourceDocuments := ["all"] |};
     instructions := None; targetLength := None |}.

Definition project (m : Mode) (docs : list Document)
    (mapping : list SectionConfig) : Project :=
  {| projectId := "P"; mode := m; purpose := "summary"; documents := docs;
     section_mapping := mapping; global_instructions := None |}.

(** An environment in which nothing fails: a listener is attached, the
    store takes every call, and the model answers after one second. *)
Definition calm : Env :=
  {| errorListener := λ _, true; initStatus := None;
     createDraft := inl "D";
     generateContent := λ _, Replies 1000 "Generated text.";
     writeSection := λ _, None; writePlaceholder := λ _, None;
     writeProgress := λ _, None; writeReferences := None;
     writeReady := None; writeRollback := None |}.

Definition with_model (f : nat → ModelBehaviour) (e : Env) : Env :=
  {| errorListener := errorListener e; initStatus := initStatus e;
     createDraft := createDraft e; generateContent := f;
     writeSection := writeSection e; writePlaceholder := writePlaceholder e;
     writeProgress := writeProgress e; writeReferences := writeReferences e;
     writeReady := writeReady e; writeRollback := writeRollback e |}.

Definition without_listener (e : Env) : Env :=
  {| errorListener := λ _, false; initStatus := initStatus e;
     createDraft := createDraft e; generateContent := generateContent e;
     writeSection := writeSection e; writePlaceholder := writePlaceholder e;
     writeProgress := writeProgress e; writeReferences := writeReferences e;
     writeReady := writeReady e; writeRollback := writeRollback e |}.

Definition with_createDraft (r : string + string) (e : Env) : Env :=
  {| errorListener := errorListener e; initStatus := initStatus e;
     createDraft := r; generateContent := generateContent e;
     writeSection := writeSection e; writePlaceholder := writePlaceholder e;
     writeProgress := writeProgress e; writeReferences := writeReferences e;
     writeReady := writeReady e; writeRollback := writeRollback e |}.

(** The draft store rejects every section write. *)
Definition store_down (e : Env) : Env :=
  {| errorListener := errorListener e; initStatus := initStatus e;
     createDraft := createDraft e; generateContent := generateContent e;
     writeSection := λ _, Some "draft store unavailable";
     writePlaceholder := λ _, Some "draft store unavailable";
     writeProgress := writeProgress e; writeReferences := writeReferences e;
     writeReady := writeReady e; writeRollback := writeRollback e |}.

(** One section, rewritten from the abstract of one document. *)
Definition one_section : Project :=
  project Single [paperA] [section "1" (Some ["abstract"])].

Definition two_sections : Project :=
  project Single [paperA]
    [section "1" (Some ["abstract"]); section "2" (Some ["abstract"])].

Definition four_sections : Project :=
  project Single [paperA]
    [section "1" (Some ["abstract"]); section "2" (Some ["abstract"]);
     section "3" (Some ["abstract"]); section "4" (Some ["abstract"])].

(** Two documents that cite the same paper. *)
Definition two_papers : Project :=
  project Multi [paperA; paperB] [section "1" None].

(** The only document has nothing to say about the section. *)
Definition short_project : Project :=
  project Single [note] [section "1" (Some ["abstract"])].

(** Multi-document mode over a document of 100001 characters. *)
Definition huge_project : Project :=
  project Multi [huge] [section "1" None].

(** The model rejects every call. *)
Definition quota : Env :=
  with_model (λ _, Fails 10 "quota exceeded") calm.

(** The model never answers, and nobody listens for ['error']. *)
Definition hanging : Env :=
  without_listener (with_model (λ _, Hangs) calm).

(** The draft cannot be created. *)
Definition no_draft : Env := with_createDraft (inr "insert failed") calm.

(** The draft store is down for section writes. *)
Definition down : Env := store_down calm.

(** The model answers after four hundred seconds. *)
Definition slow : Env := with_model (λ _, Replies 400000 "Late.") calm.

(** The draft store rejects the writes of the first section and takes
    those of the second; the model answers the first section after one
    second and the second after twenty. *)
Definition flaky : Env :=
  {| errorListener := λ _, true; initStatus := None;
     createDraft := inl "D";
     generateContent := λ i,
       if bool_decide (i = 0) then Replies 1000 "Generated text."
       else Replies 20000 "Generated text.";
     writeSection := λ i,
       if bool_decide (i = 0) then Some "draft store unavailable" else None;
     writePlaceholder := λ i,
       if bool_decide (i = 0) then Some "draft store unavailable" else None;
     writeProgress := λ _, None;
     writeReferences := None; writeReady := None; writeRollback := None |}.

End Ex.

(** ** Vocabulary of the statements about runs *)

(** [processSection] has been called for the section. *)
Definition started (x : SectionPc) : bool :=
  match x with Idle => false | _ => true end.

(** [processSection] has not settled yet. *)
Definition unsettled (x : SectionPc) : bool :=
  match x with Settled _ => false | _ => true end.

(** The section is in flight: started and not settled. *)
Definition in_flight (x : SectionPc) : bool := started x && unsettled x.

(** The section has neither an entry in [results.sections] nor one in
    [results.errors] yet. *)
Definition undecided (x : SectionPc) : bool :=
  match x with Idle | AwaitRace | AwaitWrite _ => true | _ => false end.

Definition count (f : SectionPc → bool) (l : list SectionPc) : nat :=
  sum_list_with (λ x, if f x then 1 else 0) l.

(** The resumptions a section still has before it, counting one more for
    the model call it may leave behind. *)
Definition weight (x : SectionPc) : nat :=
  match x with
  | Idle => 6
  | AwaitRace => 4
  | AwaitWrite _ => 3
  | AwaitPlaceholder => 2
  | AwaitProgress _ => 1
  | Settled _ => 0
  end.

Definition rank (x : MainPc) : nat :=
  match x with
  | AwaitInitStatus => 6
  | AwaitCreateDraft => 5
  | AwaitBatch => 4
  | AwaitReferences => 3
  | AwaitReady => 2
  | AwaitRollback _ => 1
  | Returned | Thrown _ => 0
  end.

(** A bound on the number of resumptions left. *)
Definition measure (s : State) : nat :=
  rank (pc s) + sum_list_with weight (secs s) + length (inflight s).

Definition is_section_write (a : Action) : bool :=
  match a with UpdateDraftSection _ _ _ => true | _ => false end.

(** The draft-section writes of a log, in order. *)
Definition section_writes (l : list Action) : list Action :=
  filter (λ a, is_section_write a = true) l.

(** The run has entered its [catch] block, or has thrown. *)
Definition failed (x : MainPc) : bool :=
  match x with AwaitRollback _ | Thrown _ => true | _ => false end.

(** A draft write may still be ahead of the section: it waits for the
    race, or for its content write, whose rejection is followed by the
    write of the placeholder. *)
Definition writes_ahead (x : SectionPc) : bool :=
  match x with AwaitRace | AwaitWrite _ => true | _ => false end.

(** A draft write of a section that had a write ahead of it in [s]. *)
Definition write_of_pending (s : State) (a : Action) : Prop :=
  ∃ d i c x, a = UpdateDraftSection d i c ∧ secs s !! i = Some x
             ∧ writes_ahead x = true.

(** What follows a failure, as far as the draft is concerned. *)
Record aftermath (s s' : State) : Prop := {
  aftermath_pc : failed (pc s') = true;
  aftermath_idle : ∀ i, secs s !! i = Some Idle → secs s' !! i = Some Idle;
  aftermath_ahead :
    ∀ i y, secs s' !! i = Some y → writes_ahead y = true →
           ∃ x, secs s !! i = Some x ∧ writes_ahead x = true;
  aftermath_writes :
    ∃ new, section_writes (log s') = section_writes (log s) ++ new
           ∧ Forall (write_of_pending s) new;
}.

Definition is_model_call (i : nat) (a : Action) : bool :=
  match a with GenerateContent j _ => bool_decide (j = i) | _ => false end.

(** The calls of the model client made for section [i]. *)
Definition model_calls (i : nat) (l : list Action) : list Action :=
  filter (λ a, is_model_call i a = true) l.

(** Nothing but a section's guarded part fails: a listener is attached for
    ['error'], and the store takes the status updates, the draft, the
    placeholder writes, the progress updates and the references. *)
Record handlers_ok (env : Env) : Prop := {
  ok_listener : ∀ site, errorListener env site = true;
  ok_init : initStatus env = None;
  ok_draft : ∃ d, createDraft env = inl d;
  ok_placeholder : ∀ i, writePlaceholder env i = None;
  ok_progress : ∀ i, writeProgress env i = None;
  ok_references : writeReferences env = None;
  ok_ready : writeReady env = None;
}.

Section Invariants.

Context (h : Helpers) (env : Env) (p : Project).

(** Where the sections stand relative to the loop variable: the batches
    before it have resolved, the batches after the current one have not
    been started; and what the program counter of the run adds. *)
Record shape (s : State) : Prop := {
  shape_length : length (secs s) = total p;
  shape_loop : ∃ b, loop_i s = b * CONCURRENCY;
  shape_before : ∀ j x, secs s !! j = Some x → j < loop_i s →
                        x = Settled None;
  shape_after : ∀ j x, secs s !! j = Some x → loop_i s + CONCURRENCY ≤ j →
                       x = Idle;
  shape_pc :
    match pc s with
    | AwaitInitStatus | AwaitCreateDraft =>
        loop_i s = 0 ∧ ∀ j x, secs s !! j = Some x → x = Idle
    | AwaitBatch =>
        loop_i s < total p
        ∧ (∀ j x, secs s !! j = Some x → loop_i s ≤ j →
                  j < loop_i s + CONCURRENCY →
                  started x = true ∧ ∀ e, x ≠ Settled (Some e))
        ∧ (∃ j x, secs s !! j = Some x ∧ loop_i s ≤ j
                  ∧ j < loop_i s + CONCURRENCY ∧ unsettled x = true)
    | AwaitReferences | AwaitReady | Returned => total p ≤ loop_i s
    | AwaitRollback _ | Thrown _ => True
    end;
  shape_draft :
    match pc s with
    | AwaitInitStatus | AwaitCreateDraft | Thrown _ => True
    | _ => createDraft env = inl (draftId s)
    end;
  shape_status : status s = Some StReady → total p ≤ loop_i s;
}.

(** Every section has an entry in exactly one of the two result lists,
    or is still undecided. *)
Definition counted (s : State) : Prop :=
  length (r_sections (results s)) + length (r_errors (results s))
    + count undecided (secs s) = total p.

(** What holds of an action whenever it is performed. *)
Definition action_ok (a : Action) : Prop :=
  match a with
  | UpdateProjectStatus _ st (ProgressUpdate pr) =>
      totalSections pr = total p ∧ completedSections pr ≤ totalSections pr
      ∧ (st = StReady → completedSections pr = total p)
  | Emit _ (EvComplete d n errs) =>
      n + length errs = total p ∧ createDraft env = inl d
  | UpdateDraftReferences d refs =>
      refs = collectReferences (documents p) ∧ createDraft env = inl d
  | GenerateContent i prompt =>
      ∃ cfg req k, section_mapping p !! i = Some cfg
                   ∧ generation h p cfg = GenCall req k
                   ∧ prompt = buildPrompt h req
  | _ => True
  end.

Record invariant (s : State) : Prop := {
  inv_shape : shape s;
  inv_counted : counted s;
  inv_log : Forall action_ok (log s);
}.

(** The sections run without a rejection and the run has not entered its
    [catch] block. *)
Record unbroken (s : State) : Prop := {
  unbroken_pc : ∀ e, pc s ≠ AwaitRollback e ∧ pc s ≠ Thrown e;
  unbroken_secs : ∀ j e, secs s !! j ≠ Some (Settled (Some e))
                         ∧ secs s !! j ≠ Some (AwaitProgress (Some e));
  unbroken_ready : pc s = Returned → status s = Some StReady;
  unbroken_ready' : pc s = AwaitReady → status s = Some StReady;
}.

End Invariants.

Section StartActions.

Context (h : Helpers) (p : Project).

(** What the start of [processSection] does for section [i]. *)
Definition start_action (i : nat) (cfg : SectionConfig) (a : Action) : Prop :=
  (∃ n, a = Emit (projectId p)
              (EvProgress (total p) n (templateSectionTitle cfg)))
  ∨ a = SetTimeout i TIMEOUT_MS
  ∨ (∃ req k, generation h p cfg = GenCall req k
              ∧ a = GenerateContent i (buildPrompt h req)).

End StartActions.

Section Moves.

Context (env : Env) (p : Project).

(** What a resumption of [processSection] may append to the log before
    the section settles, given the number of sections recorded after
    it. *)
Definition section_action (recorded : nat) (a : Action) : Prop :=
  match a with
  | UpdateProjectStatus _ st (ProgressUpdate pr) =>
      st = StGenerating ∧ totalSections pr = total p
      ∧ completedSections pr = recorded
  | UpdateProjectStatus _ _ (Failure _) => False
  | Emit _ (EvComplete _ _ _) => False
  | Emit _ (EvProgress _ _ _) => False
  | UpdateDraftReferences _ _ => False
  | GenerateContent _ _ => False
  | CreateDraft _ => False
  | SetTimeout _ _ => False
  | _ => True
  end.

(** A resumption of section [i] that leaves it in flight, taking it
    from [move_from] to [move_to]. *)
Record SecMove (i : nat) (move_from move_to : SectionPc) (s s' : State)
    : Prop := {
  move_old : secs s !! i = Some move_from;
  move_new : secs s' = <[i:=move_to]> (secs s);
  move_from_flight : in_flight move_from = true;
  move_to_flight : in_flight move_to = true;
  move_weight : weight move_to < weight move_from;
  move_pc : pc s' = pc s;
  move_loop : loop_i s' = loop_i s;
  move_draft : draftId s' = draftId s;
  move_status : status s' = status s ∨ status s' = Some StGenerating;
  move_inflight : length (inflight s') ≤ length (inflight s);
  move_results :
    (results s' = results s ∧ undecided move_to = undecided move_from)
    ∨ (undecided move_from = true ∧ undecided move_to = false
       ∧ ((length (r_sections (results s')) = S (length (r_sections (results s)))
           ∧ r_errors (results s') = r_errors (results s))
          ∨ (r_sections (results s') = r_sections (results s)
             ∧ length (r_errors (results s')) = S (length (r_errors (results s))))));
  move_log :
    ∃ new, log s' = log s ++ new
           ∧ Forall (section_action (length (r_sections (results s')))) new;
  move_unbroken :
    handlers_ok env → ∀ e, move_to ≠ AwaitProgress (Some e);
}.

End Moves.

Section LoopHead.

Context (h : Helpers) (env : Env) (p : Project).

(** The state in which the loop test is evaluated with loop variable
    [i]: the sections before [i] have resolved, the others have not been
    started, and the draft exists. *)
Record loop_head (i : nat) (s : State) : Prop := {
  head_length : length (secs s) = total p;
  head_loop : ∃ b, i = b * CONCURRENCY;
  head_before : ∀ j x, secs s !! j = Some x → j < i → x = Settled None;
  head_after : ∀ j x, secs s !! j = Some x → i ≤ j → x = Idle;
  head_draft : createDraft env = inl (draftId s);
  head_status : status s = Some StReady → total p ≤ i;
}.

(** What entering the loop may append to the log. *)
Definition loop_action (s : State) (a : Action) : Prop :=
  (∃ j cfg, section_mapping p !! j = Some cfg ∧ start_action h p j cfg a)
  ∨ a = UpdateDraftReferences (draftId s) (collectReferences (documents p)).

End LoopHead.

(** The terminal event has been emitted. *)
Definition is_complete (a : Action) : bool :=
  match a with Emit _ (EvComplete _ _ _) => true | _ => false end.

Section Completion.

Context (p : Project).

(** The terminal event carries the results of the run, and is emitted as
    the run returns. *)
Definition complete_ok (s : State) : Prop :=
  ∀ pid d n errs, Emit pid (EvComplete d n errs) ∈ log s →
    pc s = Returned ∧ pid = projectId p ∧ d = draftId s
    ∧ n = length (r_sections (results s)) ∧ errs = r_errors (results s).

End Completion.

(** ** What the claims say *)

Section Claims.

Context (h : Helpers) (env : Env) (p : Project).

(** The [catch] block of [processSection] has taken the exception [e]
    of section [i]: the pair is appended to the error list, the
    recoverable ['error'] event is emitted, the placeholder write is
    issued, and the run stays where it is. *)
Record handled (i : nat) (cfg : SectionConfig) (e : Exn) (s s' : State)
    : Prop := {
  handled_error :
    r_errors (results s')
    = r_errors (results s)
      ++ [{| section := templateSectionTitle cfg;
             error := exn_message h e |}];
  handled_log :
    log s'
    = log s
      ++ [Emit (projectId p)
            (EvError (Some (templateSectionTitle cfg)) (exn_message h e) true);
          UpdateDraftSection (draftId s) i
            {| ds_templateSectionId := templateSectionId cfg;
               ds_templateSectionTitle := templateSectionTitle cfg;
               ds_content := Some (placeholder (exn_message h e));
               ds_sourceRefs := [];
               ds_warnings := [exn_message h e] |}];
  handled_section : secs s' = <[i:=AwaitPlaceholder]> (secs s);
  handled_pc : pc s' = pc s;
  handled_sections : r_sections (results s') = r_sections (results s);
}.


(** The batch a section belongs to. *)
Definition batch_of (j : nat) : nat := j / CONCURRENCY.

(** The batches of the loop: consecutive slices of [CONCURRENCY]
    sections. *)
Definition batches : list (list SectionConfig) :=
  (λ b, slice (b * CONCURRENCY) (b * CONCURRENCY + CONCURRENCY)
          (section_mapping p))
  <$> seq 0 ((total p + (CONCURRENCY - 1)) / CONCURRENCY).

Record batching (s : State) : Prop := {
  batching_cover : concat batches = section_mapping p;
  (* every batch has three sections, but for the last, which has the rest *)
  batching_size :
    ∀ k b, batches !! k = Some b →
      0 < length b
      ∧ length b = CONCURRENCY `min` (total p - k * CONCURRENCY);
  (* when a section has been started, the earlier batches have finished *)
  batching_earlier :
    ∀ j j' x x', secs s !! j = Some x → secs s !! j' = Some x' →
      started x = true → batch_of j' < batch_of j → x' = Settled None;
  (* while a section has not finished, the later batches are not started *)
  batching_later :
    ∀ j j' x x', secs s !! j = Some x → secs s !! j' = Some x' →
      unsettled x = true → batch_of j < batch_of j' → x' = Idle;
  batching_bound : count in_flight (secs s) ≤ CONCURRENCY;
}.

(** The source text extracted for a section is shorter than fifty
    characters: the text of the document in single-document mode, the
    text of every selected document in multi-document mode. *)
Definition short_source (cfg : SectionConfig) : Prop :=
  let keys := sourceSections (sourceMapping cfg) in
  match mode p with
  | Single =>
      ∃ d, documents p !! 0 = Some d
           ∧ (Js.length (extractSourceContent d keys) < MIN_CONTENT)%N
  | Multi =>
      ∀ d, d ∈ docsToUse (sourceMapping cfg) (documents p) →
           (Js.length (extractSourceContent d keys) < MIN_CONTENT)%N
  end.

End Claims.

(** * More of the service: vocabulary *)

(** The string consists of white space only. *)
Fixpoint blank (s : string) : bool :=
  match s with
  | EmptyString => true
  | String c r => Js.is_space c && blank r
  end.

(** The field is missing or empty. *)
Definition absent (x : option string) : Prop := x = None ∨ x = Some "".

(** The key names an extracted section with text. *)
Definition has_text (document : Document) (key : string) : Prop :=
  is_Some (section_text document key).

(** The reference that [docsToUse] leaves in [sourceRefs] for a
    document. *)
Definition source_ref (sm : SourceMapping) (doc : Document) : SourceRef :=
  {| sr_documentId := doc_id doc; sr_sections := sourceSections sm |}.

Module Sample.

Definition fifty : string :=
  "Lorem ipsum dolor sit amet, consectetur adipiscing".

Definition spaces : string := Js.repeat (Ascii.ascii_of_nat 32) 60.

(** A document with two extracted sections. *)
Definition paper : Document :=
  {| doc_id := "A"; filename := "a.pdf";
     extracted_content :=
       Some {| sections :=
                 Some {[ "abstract" := {| text := Some "We study widgets.";
                                          headings := ["Abstract"] |};
                         "methods" := {| text := Some "We count them.";
                                         headings := ["Methods"] |};
                         "results" := {| text := Some ""; headings := [] |} ]};
               fullText := Some "Everything." |};
     metadata := None;
     references := None |}.

(** A document whose text is sixty spaces. *)
Definition empty_page : Document := Ex.doc "S" spaces [].

(** A document whose text has exactly fifty characters. *)
Definition brief : Document := Ex.doc "F" fifty [].

(** A reference without any field. *)
Definition bare : Reference :=
  {| ref_id := None; ref_authors := Some []; ref_title := None;
     ref_year := Some ""; ref_journal := None; ref_doi := None;
     rawText := Some "" |}.

(** A reference that comes with its raw text. *)
Definition raw : Reference :=
  {| ref_id := Some "r2"; ref_authors := None; ref_title := None;
     ref_year := None; ref_journal := None; ref_doi := None;
     rawText := Some "[2] Jones, K. Gadgets. 2019." |}.

(** A section of a multi-document project that names its documents. *)
Definition section_of (ids : list string) : SectionConfig :=
  {| templateSectionId := "1"; templateSectionTitle := "Section 1";
     sourceMapping := {| sourceSections := None; sourceDocuments := ids |};
     instructions := None; targetLength := Some "500 words" |}.

Definition comparison : Project :=
  {| projectId := "P"; mode := Multi; purpose := "comparative";
     documents := [Ex.paperA; Ex.note; Ex.paperB];
     section_mapping := [section_of ["B"; "N"; "A"; "B"]];
     global_instructions := None |}.

(** The store rejects the first status update. *)
Definition offline : Env :=
  {| errorListener := λ _, true; initStatus := Some "store offline";
     createDraft := inl "D";
     generateContent := λ _, Replies 1000 "Generated text.";
     writeSection := λ _, None; writePlaceholder := λ _, None;
     writeProgress := λ _, None; writeReferences := None;
     writeReady := None; writeRollback := None |}.

End Sample.

(** ** What a run does, action by action *)

Section Traces.

Context (h : Helpers) (env : Env) (p : Project).

(** The write of a generated section into the draft (lines 93-99). *)
Definition content_write (d : string) (i : nat) (cfg : SectionConfig)
    (r : SectionResult) : Action :=
  UpdateDraftSection d i
    {| ds_templateSectionId := templateSectionId cfg;
       ds_templateSectionTitle := templateSectionTitle cfg;
       ds_content := content r;
       ds_sourceRefs := sourceRefs r;
       ds_warnings := warnings r |}.

(** The write of the placeholder (lines 138-144). *)
Definition placeholder_write (d : string) (i : nat) (cfg : SectionConfig)
    (m : string) : Action :=
  UpdateDraftSection d i
    {| ds_templateSectionId := templateSectionId cfg;
       ds_templateSectionTitle := templateSectionTitle cfg;
       ds_content := Some (placeholder m);
       ds_sourceRefs := [];
       ds_warnings := [m] |}.

(** The status update of the [finally] block (lines 147-152). *)
Definition progress_update (r : Results) : Action :=
  UpdateProjectStatus (projectId p) StGenerating
    (ProgressUpdate
       {| totalSections := total p;
          completedSections := length (r_sections r);
          currentSection :=
            Some ("Processing... (" +:+ pretty (length (r_sections r)) +:+ "/"
                  +:+ pretty (total p) +:+ ")");
          errors := r_errors r |}).

(** The events of a section (lines 109-115 and 130-135). *)
Definition section_complete (cfg : SectionConfig) (r : SectionResult)
    : Action :=
  Emit (projectId p)
    (EvSectionComplete (templateSectionId cfg) (templateSectionTitle cfg)
       (default "" (Js.preview <$> content r)) (success r)).

Definition section_error (cfg : SectionConfig) (m : string) : Action :=
  Emit (projectId p) (EvError (Some (templateSectionTitle cfg)) m true).

(** [results] after lines 124-127. *)
Definition with_error (cfg : SectionConfig) (m : string) (r : Results)
    : Results :=
  {| r_sections := r_sections r;
     r_errors :=
       r_errors r ++ [{| section := templateSectionTitle cfg; error := m |}];
     r_warnings := r_warnings r |}.

(** [results] after lines 101-119. *)
Definition with_section (cfg : SectionConfig) (sr : SectionResult)
    (r : Results) : Results :=
  {| r_sections :=
       r_sections r
       ++ [{| sectionId := templateSectionId cfg;
              sectionTitle := templateSectionTitle cfg;
              entry_success := success sr;
              wordCount := default 0 (Js.split_count <$> content sr) |}];
     r_errors := r_errors r;
     r_warnings :=
       r_warnings r
       ++ ((λ w, templateSectionTitle cfg +:+ ": " +:+ w) <$> warnings sr) |}.

(** The error that [emit] throws when nobody listens for ['error']. *)
Definition unheard (cfg : SectionConfig) (m : string) : Exn :=
  UnhandledError (Some (templateSectionTitle cfg)) m true.

(** An exception reaches the [catch] block of [processSection] while the
    section waits at [x]: the race has rejected, or the draft store has
    rejected the section write. *)
Inductive Raised (i : nat) (cfg : SectionConfig) : SectionPc → Exn → Prop :=
  | raised_race (e : Exn) :
      race env i (generation h p cfg) = inr e →
      Raised i cfg AwaitRace e
  | raised_write (r : SectionResult) (m : string) :
      writeSection env i = Some m →
      Raised i cfg (AwaitWrite r) (Error m).

(** What a resumption of [processSection] does before the section
    settles: where the section waits before and after, the actions it
    performs, and the [results] it leaves. *)
Inductive SecEffect (i : nat) (cfg : SectionConfig) (s : State)
    : SectionPc → SectionPc → list Action → Results → Prop :=
  | eff_generated (r : SectionResult) :
      race env i (generation h p cfg) = inl r →
      SecEffect i cfg s AwaitRace (AwaitWrite r)
        [content_write (draftId s) i cfg r] (results s)
  | eff_written (r : SectionResult) :
      writeSection env i = None →
      SecEffect i cfg s (AwaitWrite r) (AwaitProgress None)
        [section_complete cfg r;
         progress_update (with_section cfg r (results s))]
        (with_section cfg r (results s))
  | eff_caught (x : SectionPc) (e : Exn) :
      Raised i cfg x e →
      errorListener env (Some i) = true →
      SecEffect i cfg s x AwaitPlaceholder
        [section_error cfg (exn_message h e);
         placeholder_write (draftId s) i cfg (exn_message h e)]
        (with_error cfg (exn_message h e) (results s))
  | eff_unheard (x : SectionPc) (e : Exn) :
      Raised i cfg x e →
      errorListener env (Some i) = false →
      SecEffect i cfg s x
        (AwaitProgress (Some (unheard cfg (exn_message h e))))
        [progress_update (with_error cfg (exn_message h e) (results s))]
        (with_error cfg (exn_message h e) (results s))
  | eff_placeholder :
      SecEffect i cfg s AwaitPlaceholder
        (AwaitProgress (Error <$> writePlaceholder env i))
        [progress_update (results s)] (results s).

(** The section has entered its [finally] block. *)
Definition in_finally (x : SectionPc) : bool :=
  match x with AwaitProgress _ => true | _ => false end.

(** What the start of [processSection] does for section [i] when [done]
    sections have been recorded (lines 57-88). *)
Definition start_actions (done i : nat) (cfg : SectionConfig) : list Action :=
  [Emit (projectId p)
     (EvProgress (total p) done (templateSectionTitle cfg));
   SetTimeout i TIMEOUT_MS]
  ++ match generation h p cfg with
     | GenCall req _ => [GenerateContent i (buildPrompt h req)]
     | _ => []
     end.

(** What starting a batch at position [i] does (line 159). *)
Fixpoint start_log (done i : nat) (batch : list SectionConfig)
    : list Action :=
  match batch with
  | [] => []
  | cfg :: rest => start_actions done i cfg ++ start_log done (S i) rest
  end.

(** What the loop does from its test with loop variable [i]
    (lines 157-164). *)
Definition loop_log (i : nat) (s : State) : list Action :=
  if bool_decide (i < total p)
  then start_log (length (r_sections (results s))) i
         (slice i (i + CONCURRENCY) (section_mapping p))
  else [UpdateDraftReferences (draftId s) (collectReferences (documents p))].

(** The status updates and the events of the run itself (lines 167-173,
    176-182, 190-193 and 196-200). *)
Definition ready_update (r : Results) : Action :=
  UpdateProjectStatus (projectId p) StReady
    (ProgressUpdate
       {| totalSections := total p;
          completedSections := total p;
          currentSection := None;
          errors := r_errors r |}).

Definition rollback_update (e : Exn) : Action :=
  UpdateProjectStatus (projectId p) StDraft (Failure (exn_message h e)).

Definition complete_event (s : State) : Action :=
  Emit (projectId p)
    (EvComplete (draftId s) (length (r_sections (results s)))
       (r_errors (results s))).

Definition fatal_error (e : Exn) : Action :=
  Emit (projectId p) (EvError None (exn_message h e) false).

(** What a resumption of [generateProjectContent] does once the draft
    exists or cannot be had: where the run waits before and after, and the
    actions it performs. *)
Inductive MainEffect (s : State) : MainPc → MainPc → list Action → Prop :=
  | main_init_failed (m : string) :
      initStatus env = Some m →
      MainEffect s AwaitInitStatus (Thrown (Error m)) []
  | main_init :
      initStatus env = None →
      MainEffect s AwaitInitStatus AwaitCreateDraft [CreateDraft (projectId p)]
  | main_draft_failed (m : string) :
      createDraft env = inr m →
      MainEffect s AwaitCreateDraft (Thrown (Error m)) []
  | main_references_failed (m : string) :
      writeReferences env = Some m →
      MainEffect s AwaitReferences (AwaitRollback (Error m))
        [rollback_update (Error m)]
  | main_references :
      writeReferences env = None →
      MainEffect s AwaitReferences AwaitReady [ready_update (results s)]
  | main_ready_failed (m : string) :
      writeReady env = Some m →
      MainEffect s AwaitReady (AwaitRollback (Error m))
        [rollback_update (Error m)]
  | main_ready :
      writeReady env = None →
      MainEffect s AwaitReady Returned [complete_event s]
  | main_rollback_failed (e : Exn) (m : string) :
      writeRollback env = Some m →
      MainEffect s (AwaitRollback e) (Thrown (Error m)) []
  | main_rethrow (e : Exn) :
      writeRollback env = None →
      errorListener env None = true →
      MainEffect s (AwaitRollback e) (Thrown e) [fatal_error e]
  | main_unheard (e : Exn) :
      writeRollback env = None →
      errorListener env None = false →
      MainEffect s (AwaitRollback e)
        (Thrown (UnhandledError None (exn_message h e) false)) [].

(** The loop has been entered from its test with loop variable [i] in
    the state [s]. *)
Record Entered (i : nat) (s s' : State) : Prop := {
  entered_log : log s' = log s ++ loop_log i s;
  entered_loop : loop_i s' = i;
  entered_draft : draftId s' = draftId s;
  entered_results : results s' = results s;
  entered_status : status s' = status s;
  entered_secs :
    (i < total p ∧ pc s' = AwaitBatch
     ∧ ∀ j, secs s' !! j =
            if bool_decide (i ≤ j ∧ j < i + CONCURRENCY ∧ j < total p)
            then Some AwaitRace else secs s !! j)
    ∨ (total p ≤ i ∧ pc s' = AwaitReferences ∧ secs s' = secs s);
}.

(** A section has entered the [catch] block of the run: [Promise.all]
    has rejected with [e]. *)
Record Rejected (e : Exn) (s s' : State) : Prop := {
  rejected_log : log s' = log s ++ [rollback_update e];
  rejected_pc : pc s' = AwaitRollback e;
  rejected_secs : secs s' = secs s;
  rejected_loop : loop_i s' = loop_i s;
  rejected_draft : draftId s' = draftId s;
  rejected_results : results s' = results s;
  rejected_status :
    status s' = match writeRollback env with
                | None => Some StDraft
                | Some _ => status s
                end;
}.

(** How a section settles with [outcome], seen from the state [s1] in
    which it is marked as settled. *)
Inductive Settling (outcome : option Exn) (s1 s' : State) : Prop :=
  | settling_unobserved :
      pc s1 ≠ AwaitBatch → s' = s1 → Settling outcome s1 s'
  | settling_rejected (e : Exn) :
      pc s1 = AwaitBatch → outcome = Some e → Rejected e s1 s' →
      Settling outcome s1 s'
  | settling_waiting :
      pc s1 = AwaitBatch → outcome = None → s' = s1 →
      Settling outcome s1 s'
  | settling_next :
      pc s1 = AwaitBatch → outcome = None →
      loop_head env p (loop_i s1 + CONCURRENCY) s1 →
      Entered (loop_i s1 + CONCURRENCY) s1 s' →
      Settling outcome s1 s'.

(** What a step of the run does. *)
Inductive Effect (s s' : State) : Prop :=
  | effect_main (y : MainPc) (new : list Action) :
      MainEffect s (pc s) y new →
      pc s' = y → secs s' = secs s → loop_i s' = loop_i s →
      draftId s' = draftId s → results s' = results s →
      log s' = log s ++ new →
      Effect s s'
  | effect_draft (d : string) (s0 : State) :
      pc s = AwaitCreateDraft → createDraft env = inl d →
      pc s0 = pc s → secs s0 = secs s → loop_i s0 = loop_i s →
      draftId s0 = d → results s0 = results s → log s0 = log s →
      status s0 = status s →
      loop_head env p 0 s0 →
      Entered 0 s0 s' →
      Effect s s'
  | effect_section (i : nat) (cfg : SectionConfig) (x y : SectionPc)
        (new : list Action) :
      section_mapping p !! i = Some cfg →
      secs s !! i = Some x →
      SecEffect i cfg s x y new (results s') →
      secs s' = <[i:=y]> (secs s) →
      log s' = log s ++ new →
      pc s' = pc s → loop_i s' = loop_i s → draftId s' = draftId s →
      status s'
      = (if in_finally y
         then match writeProgress env i with
              | None => Some StGenerating
              | Some _ => status s
              end
         else status s) →
      Effect s s'
  | effect_settled (i : nat) (cfg : SectionConfig) (pending : option Exn)
        (s1 : State) :
      section_mapping p !! i = Some cfg →
      secs s !! i = Some (AwaitProgress pending) →
      let outcome := match writeProgress env i with
                     | None => pending
                     | Some m => Some (Error m)
                     end in
      pc s1 = pc s → secs s1 = <[i:=Settled outcome]> (secs s) →
      loop_i s1 = loop_i s → draftId s1 = draftId s →
      results s1 = results s → log s1 = log s → status s1 = status s →
      Settling outcome s1 s' →
      Effect s s'
  | effect_late :
      pc s' = pc s → secs s' = secs s → loop_i s' = loop_i s →
      draftId s' = draftId s → results s' = results s →
      log s' = log s → status s' = status s →
      Effect s s'.

End Traces.

(** ** Vocabulary of the statements about runs, continued *)

(** The event tells that the run has failed for good. *)
Definition is_fatal (a : Action) : bool :=
  match a with Emit _ (EvError _ _ false) => true | _ => false end.

(** The terminal events of a log: 'complete', and 'error' with
    recoverable: false. *)
Definition terminal_events (l : list Action) : list Action :=
  filter (λ a, is_complete a || is_fatal a = true) l.

(** The action is the timer, the model call or a draft write of
    section [i]. *)
Definition owned (i : nat) (a : Action) : bool :=
  match a with
  | SetTimeout j _ | GenerateContent j _ | UpdateDraftSection _ j _ =>
      bool_decide (j = i)
  | _ => false
  end.

(** The timer, the model call and the draft writes of section [i], in the
    order in which the run has made them. *)
Definition history (i : nat) (l : list Action) : list Action :=
  filter (λ a, owned i a = true) l.

Definition is_timer (i : nat) (a : Action) : bool :=
  match a with SetTimeout j _ => bool_decide (j = i) | _ => false end.

(** The timers set for section [i]. *)
Definition timers (i : nat) (l : list Action) : list Action :=
  filter (λ a, is_timer i a = true) l.

Definition is_write_of (i : nat) (a : Action) : bool :=
  match a with UpdateDraftSection _ j _ => bool_decide (j = i) | _ => false end.

(** The draft writes made for section [i]. *)
Definition writes_of (i : nat) (l : list Action) : list Action :=
  filter (λ a, is_write_of i a = true) l.

Section Histories.

Context (h : Helpers) (env : Env) (p : Project).

(** How [processSection] begins for section [i]: the timer, and the
    model call when the generation path gets that far. *)
Definition begun (i : nat) (cfg : SectionConfig) : list Action :=
  [SetTimeout i TIMEOUT_MS]
  ++ match generation h p cfg with
     | GenCall req _ => [GenerateContent i (buildPrompt h req)]
     | _ => []
     end.

(** The [catch] block of section [i] has been entered with [e], the draft
    writes [ws] having been made before. *)
Inductive Caught (d : string) (i : nat) (cfg : SectionConfig)
    : list Action → Exn → Prop :=
  | caught_race (e : Exn) :
      race env i (generation h p cfg) = inr e →
      Caught d i cfg [] e
  | caught_write (r : SectionResult) (m : string) :
      race env i (generation h p cfg) = inl r →
      writeSection env i = Some m →
      Caught d i cfg [content_write d i cfg r] (Error m).

(** Section [i] has reached its [finally] block having made the draft
    writes [ws], with the exception [pending] in flight. *)
Inductive Outcome (d : string) (i : nat) (cfg : SectionConfig)
    : list Action → option Exn → Prop :=
  | outcome_content (r : SectionResult) :
      race env i (generation h p cfg) = inl r →
      writeSection env i = None →
      Outcome d i cfg [content_write d i cfg r] None
  | outcome_placeholder (ws : list Action) (e : Exn) :
      Caught d i cfg ws e →
      errorListener env (Some i) = true →
      Outcome d i cfg
        (ws ++ [placeholder_write d i cfg (exn_message h e)])
        (Error <$> writePlaceholder env i)
  | outcome_unheard (ws : list Action) (e : Exn) :
      Caught d i cfg ws e →
      errorListener env (Some i) = false →
      Outcome d i cfg ws (Some (unheard cfg (exn_message h e))).

(** The history of section [i] when [processSection] waits at [x]. *)
Definition tracked (d : string) (i : nat) (cfg : SectionConfig)
    (x : SectionPc) (hist : list Action) : Prop :=
  match x with
  | Idle => hist = []
  | AwaitRace => hist = begun i cfg
  | AwaitWrite r =>
      race env i (generation h p cfg) = inl r
      ∧ hist = begun i cfg ++ [content_write d i cfg r]
  | AwaitPlaceholder =>
      ∃ ws e, Caught d i cfg ws e
              ∧ errorListener env (Some i) = true
              ∧ hist = begun i cfg ++ ws
                       ++ [placeholder_write d i cfg (exn_message h e)]
  | AwaitProgress pending =>
      ∃ ws, Outcome d i cfg ws pending ∧ hist = begun i cfg ++ ws
  | Settled outcome =>
      ∃ ws pending,
        Outcome d i cfg ws pending ∧ hist = begun i cfg ++ ws
        ∧ outcome = match writeProgress env i with
                    | None => pending
                    | Some m => Some (Error m)
                    end
  end.

(** Every section has the history that goes with where it waits. *)
Definition histories (s : State) : Prop :=
  ∀ i cfg x, section_mapping p !! i = Some cfg → secs s !! i = Some x →
    tracked (draftId s) i cfg x (history i (log s)).

End Histories.

(** The number of completed sections that a status update or a 'progress'
    event reports. *)
Definition progress_count (a : Action) : option nat :=
  match a with
  | UpdateProjectStatus _ _ (ProgressUpdate pr) => Some (completedSections pr)
  | Emit _ (EvProgress _ n _) => Some n
  | _ => None
  end.

(** The numbers of completed sections reported by a run, in order. *)
Definition progress_counts (l : list Action) : list nat :=
  omap progress_count l.

(** The numbers never go down along the list. *)
Definition nondecreasing (l : list nat) : Prop :=
  ∀ k1 k2 n1 n2, k1 ≤ k2 → l !! k1 = Some n1 → l !! k2 = Some n2 → n1 ≤ n2.

(** Nothing fails: the handlers' own calls succeed, the draft store takes
    every section write, the model answers every call before the timer
    fires, and in single-document mode there is a document. *)
Record healthy (env : Env) (p : Project) : Prop := {
  healthy_handlers : handlers_ok env;
  healthy_writes : ∀ i, writeSection env i = None;
  healthy_model :
    ∀ i, ∃ t response,
      generateContent env i = Replies t response ∧ (t < TIMEOUT_MS)%N;
  healthy_document : mode p = Single → documents p ≠ [];
}.

(** * The progress stream (routes/projects.js,
      GET /:id/generation-status)

    The route answers with a stream of server-sent events.  Once the
    project has been found it writes the project's status, registers one
    listener for each of the four kinds of events of [generationEvents],
    and starts an interval that writes a ping every ten seconds.  The
    listeners are removed when the 'complete' event of the project has
    been written (the response is then ended) and when the client closes
    the connection; the interval is cleared only when the client closes
    the connection. *)

Module Stream.

(** The name under which the service emits an event. *)
Definition event_name (e : Event) : string :=
  match e with
  | EvProgress _ _ _ => "progress"
  | EvSectionComplete _ _ _ _ => "section-complete"
  | EvError _ _ _ => "error"
  | EvComplete _ _ _ => "complete"
  end.

(** What [res.write] is called with. *)
Inductive Chunk :=
  | Initial (status : string)
  | Frame (project : string) (e : Event)
  | Ping.

(** The text of a chunk; [json] stands for [JSON.stringify] of the
    payload of an event, which holds the project's id, and [status] for
    the serialised status object of lines 226-230. *)
Definition render (json : string → Event → string) (c : Chunk) : string :=
  match c with
  | Initial status => "data: " +:+ status +:+ Js.LF +:+ Js.LF
  | Frame project e =>
      "event: " +:+ event_name e +:+ Js.LF
      +:+ "data: " +:+ json project e +:+ Js.LF +:+ Js.LF
  | Ping => ": ping" +:+ Js.LF +:+ Js.LF
  end.

(** A connection: whether its listeners are registered, whether its
    interval is active, whether [res.end()] has been called, and the
    calls of [res.write] so far. *)
Record Connection := {
  listening : bool;
  pinging : bool;
  ended : bool;
  written : list Chunk;
}.

(** Lines 218-284: the connection as the handler leaves it. *)
Definition open (status : string) : Connection :=
  {| listening := true; pinging := true; ended := false;
     written := [Initial status] |}.

(** What happens to a connection: an event is emitted on
    [generationEvents] with the given [projectId], the interval fires, or
    the client closes the connection. *)
Inductive Input :=
  | Published (project : string) (e : Event)
  | Tick
  | Close.

Definition is_complete_event (e : Event) : bool :=
  match e with EvComplete _ _ _ => true | _ => false end.

(** The listeners (lines 233-258), the interval (lines 278-280) and the
    two handlers of 'close' (lines 267-275 and 282-284), for the stream
    of project [id].  Node emits 'close' on the request once the response
    has been ended, so the handlers of 'close' run after [res.end()] of
    line 256 as they do when the client leaves; this 'close' is taken to
    come before the interval fires again. *)
Definition deliver (id : string) (c : Connection) (i : Input) : Connection :=
  match i with
  | Published project e =>
      if listening c && bool_decide (project = id)
      then {| listening := negb (is_complete_event e);
              pinging := pinging c && negb (is_complete_event e);
              ended := ended c || is_complete_event e;
              written := written c ++ [Frame project e] |}
      else c
  | Tick =>
      if pinging c
      then {| listening := listening c; pinging := pinging c;
              ended := ended c; written := written c ++ [Ping] |}
      else c
  | Close =>
      {| listening := false; pinging := false; ended := ended c;
         written := written c |}
  end.

Definition feed (id : string) (c : Connection) (ins : list Input)
    : Connection :=
  foldl (deliver id) c ins.

(** The events written to a connection, in order. *)
Definition frames (c : Connection) : list (string * Event) :=
  omap (λ ch, match ch with Frame project e => Some (project, e) | _ => None end)
    (written c).

(** The input is no event of another project. *)
Definition concerns (id : string) (i : Input) : Prop :=
  match i with Published project _ => project = id | _ => True end.

#[global] Instance concerns_dec (id : string) (i : Input) :
  Decision (concerns id i) :=
  match i as i0 return Decision (concerns id i0) with
  | Published project _ => decide (project = id)
  | Tick | Close => left I
  end.

End Stream.

(** The events that a run emits, as inputs of the connections. *)
Definition publications (l : list Action) : list Stream.Input :=
  omap (λ a, match a with
             | Emit project e => Some (Stream.Published project e)
             | _ => None
             end) l.

(** The events that a run emits, in order. *)
Definition emitted (l : list Action) : list (string * Event) :=
  omap (λ a, match a with Emit project e => Some (project, e) | _ => None end) l.

(** * The error handler (middleware/errorHandler.js) *)

Module Http.

(** What [err.code] is: nothing that counts ([undefined], or another
    falsy value that is no string), a string, or a truthy value that is no
    string and has no method [startsWith] (a number, say). *)
Inductive Code :=
  | NoCode
  | CodeString (c : string)
  | CodeOther.

(** A value passed to the error handler, as far as the handler looks at
    it: an [ApiError], or another value with its [message] and [stack],
    its [code], its [status] if it is a number, whether it is a
    [SyntaxError], and whether it has a [body] field.  [details] is the
    value given to the constructor of [ApiError], [None] for [null]. *)
Inductive JsError :=
  | ApiError (statusCode : nat) (message : string) (details : option string)
      (stack : string)
  | OtherError (syntaxError : bool) (message stack : string)
      (code : Code) (status : option nat) (hasBody : bool).



(** The factories of [Errors] (lines 21-31); an argument that is left out
    is [None], and [stack] is the trace that the constructor captures. *)
Definition badRequest (stack message : string) (details : option string)
    : JsError :=
  ApiError 400 message details stack.

Definition unauthorized (stack : string) (message : option string) : JsError :=
  ApiError 401 (default "Unauthorized" message) None stack.

Definition forbidden (stack : string) (message : option string) : JsError :=
  ApiError 403 (default "Forbidden" message) None stack.


Definition conflict (stack message : string) : JsError :=
  ApiError 409 message None stack.

Definition unprocessable (stack message : string) (details : option string)
    : JsError :=
  ApiError 422 message details stack.

Definition tooLarge (stack : string) (message : option string) : JsError :=
  ApiError 413 (default "File too large" message) None stack.

Definition internal (stack : string) (message : option string) : JsError :=
  ApiError 500 (default "Internal server error" message) None stack.

Definition serviceUnavailable (stack message : string) : JsError :=
  ApiError 503 message None stack.




End Http.

(** * Authentication (middleware/auth.js) *)

Module Auth.

(** [s.split(' ')] *)
Fixpoint split_space (s : string) : list string :=
  match s with
  | EmptyString => [""]
  | String c r =>
      if Ascii.eqb c (Ascii.ascii_of_nat 32)
      then "" :: split_space r
      else match split_space r with
           | x :: rest => String c x :: rest
           | [] => [String c ""]
           end
  end.

(** What [supabase.auth.getUser(token)] does: it returns a user, it
    returns an error or no user, or it throws. *)
Inductive Verdict :=
  | User (user : string)
  | Refused
  | Throws.

(** What [authenticate] does with a request: it answers 401 with a
    message, it answers 500, or it attaches the user and the token to the
    request and calls [next]. *)
Inductive Outcome :=
  | Unauthorized (message : string)
  | ServerError
  | Continue (user token : string).

(** The token that [authenticate] takes from the request (lines 10-21):
    from the [Authorization] header when there is one, and only then from
    the [token] query parameter. *)
Definition token_of (authorization query : option string) : option string :=
  match Js.truthy authorization with
  | Some header =>
      if String.prefix "Bearer " header
      then split_space header !! 1
      else None
  | None => Js.truthy query
  end.

(** [authenticate] (lines 7-56). *)
Definition authenticate (getUser : string → Verdict)
    (authorization query : option string) : Outcome :=
  match Js.truthy (token_of authorization query) with
  | None => Unauthorized "No authorization token provided"
  | Some token =>
      match getUser token with
      | User user => Continue user token
      | Refused => Unauthorized "Invalid or expired token"
      | Throws => ServerError
      end
  end.

(** [optionalAuth] (lines 63-98): the user and the token that are
    attached to the request, if any; [next] is called in every case. *)
Definition optionalAuth (getUser : string → Verdict)
    (authorization : option string) : option (string * string) :=
  match Js.truthy authorization with
  | None => None
  | Some header =>
      match split_space header with
      | [scheme; token] =>
          if bool_decide (scheme = "Bearer")
          then match getUser token with
               | User user => Some (user, token)
               | Refused | Throws => None
               end
          else None
      | _ => None
      end
  end.

(** The string has no space in it. *)
Fixpoint spaceless (s : string) : bool :=
  match s with
  | EmptyString => true
  | String c r => negb (Ascii.eqb c (Ascii.ascii_of_nat 32)) && spaceless r
  end.

End Auth.

Module Visitors.

(** An identity service that knows one token. *)
Definition getUser (token : string) : Auth.Verdict :=
  if bool_decide (token = "secret") then Auth.User "ada" else Auth.Refused.

End Visitors.

(** ** Vocabulary of the statements about results *)

(** A word: not empty and without white space. *)
Fixpoint spaceless_word (s : string) : bool :=
  match s with
  | EmptyString => true
  | String c r => negb (Js.is_space c) && spaceless_word r
  end.

Definition word (s : string) : Prop := s ≠ "" ∧ spaceless_word s = true.

(** The titles under which a run has reported its sections so far:
    those recorded in [results.sections], then those of
    [results.errors]. *)
Definition reported_titles (r : Results) : list string :=
  (sectionTitle <$> r_sections r) ++ (section <$> r_errors r).

(** The titles of the sections that are on one of the two result lists,
    in the order of the mapping. *)
Definition decided_titles (secs : list SectionPc)
    (mapping : list SectionConfig) : list string :=
  omap (λ xc, if undecided xc.1 then None else Some (templateSectionTitle xc.2))
    (zip secs mapping).

(** The actions of the run itself, as opposed to those of its sections
    and to its first status update: the creation of the draft, the write
    of the references, the status updates to 'ready' and to 'draft', and
    the terminal events. *)
Definition is_run_level (a : Action) : bool :=
  match a with
  | CreateDraft _ | UpdateDraftReferences _ _ => true
  | UpdateProjectStatus _ StReady _ | UpdateProjectStatus _ StDraft _ => true
  | Emit _ (EvComplete _ _ _) | Emit _ (EvError _ _ false) => true
  | _ => false
  end.

Definition skeleton (l : list Action) : list Action :=
  filter (λ a, is_run_level a = true) l.

Section Skeletons.

Context (h : Helpers) (env : Env) (p : Project).

Definition references_write (s : State) : Action :=
  UpdateDraftReferences (draftId s) (collectReferences (documents p)).

(** The run-level actions of a run that has not failed, as far as it has
    got after the creation of the draft. *)
Inductive Forward : list Action → Prop :=
  | forward_draft : Forward [CreateDraft (projectId p)]
  | forward_references (d : string) (refs : list DraftReference) :
      Forward [CreateDraft (projectId p); UpdateDraftReferences d refs]
  | forward_ready (d : string) (refs : list DraftReference) (r : Results) :
      Forward [CreateDraft (projectId p); UpdateDraftReferences d refs;
               ready_update p r].

(** The run-level actions of a run, by where the run stands. *)
Definition skeleton_ok (s : State) : Prop :=
  match pc s with
  | AwaitInitStatus => skeleton (log s) = []
  | AwaitCreateDraft | AwaitBatch =>
      skeleton (log s) = [CreateDraft (projectId p)]
  | AwaitReferences =>
      skeleton (log s) = [CreateDraft (projectId p); references_write s]
  | AwaitReady =>
      skeleton (log s)
      = [CreateDraft (projectId p); references_write s;
         ready_update p (results s)]
  | Returned =>
      skeleton (log s)
      = [CreateDraft (projectId p); references_write s;
         ready_update p (results s); complete_event p s]
  | AwaitRollback e =>
      ∃ pre, Forward pre ∧ skeleton (log s) = pre ++ [rollback_update h p e]
  | Thrown e =>
      skeleton (log s) = []
      ∨ skeleton (log s) = [CreateDraft (projectId p)]
      ∨ ∃ pre e0,
          Forward pre
          ∧ (skeleton (log s) = pre ++ [rollback_update h p e0]
             ∨ (e0 = e
                ∧ skeleton (log s)
                  = pre ++ [rollback_update h p e; fatal_error h p e]))
  end.

End Skeletons.
(** * Properties of the pure helpers *)

Module JsFacts.

Lemma length_rev_app (s1 s2 : string) :
  String.length (String.rev_app s1 s2) = String.length s1 + String.length s2.
Proof.
  revert s2. induction s1 as [|c s1 IH]; intros s2; simpl; [done|].
  rewrite IH. simpl. lia.
Qed.

Lemma length_rev (s : string) : String.length (String.rev s) = String.length s.
Proof. unfold String.rev. rewrite length_rev_app. simpl. lia. Qed.

Lemma length_trimStart (s : string) :
  String.length (Js.trimStart s) ≤ String.length s.
Proof.
  induction s as [|c s IH]; simpl; [done|].
  destruct (Js.is_space c); simpl; lia.
Qed.

Lemma length_trim (s : string) : (Js.length (Js.trim s) ≤ Js.length s)%N.
Proof.
  unfold Js.length, Js.trim, Js.trimEnd.
  rewrite length_rev.
  pose proof (length_trimStart (String.rev (Js.trimStart s))) as H1.
  rewrite length_rev in H1.
  pose proof (length_trimStart s). lia.
Qed.

Lemma length_substring0 (n : nat) (s : string) :
  String.length (String.substring 0 n s) = n `min` String.length s.
Proof.
  revert s. induction n as [|n IH]; intros [|c s]; simpl; try done.
  by rewrite IH.
Qed.

Lemma length_prefix (n : N) (s : string) :
  (Js.length (Js.prefix n s) ≤ n)%N.
Proof. unfold Js.length, Js.prefix. rewrite length_substring0. lia. Qed.

(** [truncateForContext] keeps its promise. *)
Lemma truncateForContext_length (s : string) (n : N) :
  (Js.length (truncateForContext s n).1 ≤ n)%N.
Proof.
  unfold truncateForContext. case_bool_decide; simpl.
  - apply length_prefix.
  - lia.
Qed.

Lemma or_else_empty (x : option string) : Js.or_else x "" = default "" x.
Proof.
  unfold Js.or_else, Js.truthy. destruct x as [s|]; [|done].
  by case_decide; subst.
Qed.

Lemma length_repeat (c : Ascii.ascii) (n : N) : Js.length (Js.repeat c n) = n.
Proof.
  unfold Js.length, Js.repeat.
  induction n as [|n IH] using N.peano_ind; [done|].
  rewrite N.iter_succ. simpl. lia.
Qed.

End JsFacts.

Section ExtractFacts.

Lemma omap_section_text_nil (document : Document) (keys : list string) :
  (∀ key, key ∈ keys → section_text document key = None) →
  omap (section_text document) keys = [].
Proof.
  induction keys as [|k keys IH]; intros Hk; [done|].
  simpl. rewrite Hk by set_solver. apply IH. intros; apply Hk; set_solver.
Qed.

Lemma section_text_None (document : Document) (key : string) :
  (∀ sec, doc_sections document !! key = Some sec →
          text sec = None ∨ text sec = Some "") →
  section_text document key = None.
Proof.
  intros H. unfold section_text.
  destruct (doc_sections document !! key) as [sec|]; [|done].
  simpl. destruct (H sec eq_refl) as [-> | ->]; done.
Qed.

Lemma extract_no_match (document : Document) (keys : list string) :
  (∀ key, key ∈ keys → section_text document key = None) →
  extractSourceContent document (Some keys) = doc_fullText document.
Proof.
  intros H. unfold extractSourceContent. destruct keys as [|k keys]; [done|].
  by rewrite (omap_section_text_nil _ _ H).
Qed.

End ExtractFacts.

(** * The generation paths *)

Section PathFacts.

Context (h : Helpers).

(** Single-document path: a source text shorter than fifty characters
    never reaches the model. *)
Lemma single_short_circuit (cfg : SectionConfig) (document : Document)
    (purpose : string) (gi : option string) :
  (Js.length (extractSourceContent document
                (sourceSections (sourceMapping cfg))) < MIN_CONTENT)%N →
  generateSingleDocSection h cfg document purpose gi
    = GenDone insufficient_single.
Proof.
  intros Hlen. unfold generateSingleDocSection.
  pose proof (JsFacts.length_trim
    (extractSourceContent document (sourceSections (sourceMapping cfg)))).
  rewrite orb_true_intro; [done|]. right. apply bool_decide_eq_true. lia.
Qed.

(** Single-document path: when a prompt is built, its source content is
    the truncated text. *)
Lemma single_prompt (cfg : SectionConfig) (document : Document)
    (purpose : string) (gi : option string) :
  let src := extractSourceContent document (sourceSections (sourceMapping cfg)) in
  src ≠ "" →
  (MIN_CONTENT ≤ Js.length (Js.trim src))%N →
  ∃ k, generateSingleDocSection h cfg document purpose gi
       = GenCall
           (SectionRewrite
              {| rw_sectionTitle := templateSectionTitle cfg;
                 rw_sourceContent := (truncateForContext src MAX_CONTEXT).1;
                 rw_instructions := instructions cfg;
                 rw_globalInstructions := gi;
                 rw_targetLength := targetLength cfg;
                 rw_purpose := purpose;
                 rw_documentMetadata := metadata document |}) k.
Proof.
  intros src Hne Hlen. unfold generateSingleDocSection. fold src.
  rewrite bool_decide_eq_false_2 by done.
  rewrite bool_decide_eq_false_2 by lia. simpl.
  destruct (truncateForContext src MAX_CONTEXT) as [t b]. simpl. eauto.
Qed.

(** Single-document path: the prompt builder never sees more than
    [MAX_CONTEXT] characters of source. *)
Lemma single_prompt_within_ceiling (cfg : SectionConfig)
    (document : Document) (purpose : string) (gi : option string)
    (req : PromptRequest) (k : string → SectionResult) :
  generateSingleDocSection h cfg document purpose gi = GenCall req k →
  ∀ src, src ∈ prompt_sources req → (Js.length src ≤ MAX_CONTEXT)%N.
Proof.
  unfold generateSingleDocSection.
  destruct (_ || _); [done|].
  pose proof (JsFacts.truncateForContext_length
    (extractSourceContent document (sourceSections (sourceMapping cfg)))
    MAX_CONTEXT) as Hlen.
  destruct (truncateForContext _ _) as [t b]. simpl in Hlen.
  intros [= <- <-] src Hsrc. simpl in Hsrc.
  apply list_elem_of_singleton in Hsrc. by subst.
Qed.

Lemma docContents_nil (sm : SourceMapping) (docs : list Document) :
  (∀ d, d ∈ docsToUse sm docs →
     (Js.length (extractSourceContent d (sourceSections sm)) < MIN_CONTENT)%N) →
  docContents sm docs = [].
Proof.
  unfold docContents. generalize (docsToUse sm docs) as l.
  induction l as [|d l IH]; intros Hl; [done|].
  rewrite fmap_cons, filter_cons_False.
  - apply IH. intros d' Hd'. apply Hl. set_solver.
  - simpl. specialize (Hl d ltac:(set_solver)). lia.
Qed.

(** Multi-document path: when every selected document yields less than
    fifty characters, the model is not called. *)
Lemma multi_short_circuit (cfg : SectionConfig) (docs : list Document)
    (purpose : string) (gi : option string) :
  (∀ d, d ∈ docsToUse (sourceMapping cfg) docs →
     (Js.length (extractSourceContent d
                   (sourceSections (sourceMapping cfg))) < MIN_CONTENT)%N) →
  generateMultiDocSection h cfg docs purpose gi
    = GenDone insufficient_multi.
Proof.
  intros Hshort. unfold generateMultiDocSection.
  by rewrite (docContents_nil _ _ Hshort).
Qed.

Lemma docContents_keeps (sm : SourceMapping) (docs : list Document)
    (d : Document) :
  d ∈ docsToUse sm docs →
  (MIN_CONTENT < Js.length (extractSourceContent d (sourceSections sm)))%N →
  extractSourceContent d (sourceSections sm)
    ∈ dc_content <$> docContents sm docs.
Proof.
  intros Hd Hlen. unfold docContents.
  apply list_elem_of_fmap.
  eexists {| dc_content := extractSourceContent d (sourceSections sm) |}.
  split; [done|]. apply list_elem_of_filter. split; [done|].
  apply list_elem_of_fmap. eauto.
Qed.

(** Multi-document path: the text extracted from a selected document
    reaches the prompt builder as it is, whatever its length. *)
Lemma multi_prompt_untruncated (cfg : SectionConfig) (docs : list Document)
    (purpose : string) (gi : option string) (d : Document) :
  d ∈ docsToUse (sourceMapping cfg) docs →
  (MIN_CONTENT < Js.length (extractSourceContent d
                              (sourceSections (sourceMapping cfg))))%N →
  ∃ req k,
    generateMultiDocSection h cfg docs purpose gi = GenCall req k
    ∧ extractSourceContent d (sourceSections (sourceMapping cfg))
        ∈ prompt_sources req.
Proof.
  intros Hd Hlen. unfold generateMultiDocSection.
  pose proof (docContents_keeps _ _ _ Hd Hlen) as Hin.
  destruct (docContents (sourceMapping cfg) docs) as [|c cs] eqn:Hc.
  { by apply elem_of_nil in Hin. }
  rewrite bool_decide_eq_false_2 by done.
  case_bool_decide; do 2 eexists; (split; [reflexivity|]); exact Hin.
Qed.

End PathFacts.

Lemma extract_doc_all (id body : string) (refs : list Reference) :
  extractSourceContent (Ex.doc id body refs) None = body.
Proof.
  unfold extractSourceContent, doc_fullText. by rewrite JsFacts.or_else_empty.
Qed.

(** * Aggregated references *)

Section ReferenceFacts.

Lemma collectDocRefs_spec (doc : Document) (docRefs : list Reference)
    (acc : list DraftReference) (n : nat) :
  collectDocRefs doc docRefs (acc, n)
    = (acc ++ imap (λ k r, makeReference (n + k) doc r) docRefs,
       n + length docRefs).
Proof.
  revert acc n. induction docRefs as [|r rest IH]; intros acc n; simpl.
  - by rewrite app_nil_r, Nat.add_0_r.
  - rewrite IH, <- app_assoc. simpl. f_equal.
    + f_equal. rewrite Nat.add_0_r. f_equal.
      apply imap_ext. intros k x _. simpl. f_equal. lia.
    + lia.
Qed.

Lemma collectLoop_spec (docs : list Document)
    (acc : list DraftReference) (n : nat) :
  collectLoop docs (acc, n)
    = (acc ++ imap (λ k dr, makeReference (n + k) dr.1 dr.2)
                (all_references docs),
       n + length (all_references docs)).
Proof.
  revert acc n. induction docs as [|d docs IH]; intros acc n; simpl.
  - by rewrite app_nil_r, Nat.add_0_r.
  - rewrite collectDocRefs_spec, IH.
    unfold all_references at 2 3. simpl. fold (all_references docs).
    rewrite imap_app, length_app, app_assoc, length_fmap, imap_fmap.
    f_equal; [|lia]. f_equal.
    apply imap_ext. intros k x _. simpl. f_equal. lia.
Qed.

Lemma collectReferences_spec (docs : list Document) :
  collectReferences docs
    = imap (λ k dr, makeReference (S k) dr.1 dr.2) (all_references docs).
Proof. unfold collectReferences. by rewrite collectLoop_spec. Qed.

Lemma collectReferences_lookup (docs : list Document) (k : nat)
    (r : DraftReference) :
  collectReferences docs !! k = Some r →
  ∃ d ref, all_references docs !! k = Some (d, ref)
           ∧ r = makeReference (S k) d ref.
Proof.
  rewrite collectReferences_spec, list_lookup_imap.
  destruct (all_references docs !! k) as [[d ref]|]; [|done].
  intros [= <-]. eauto.
Qed.

End ReferenceFacts.

(** * Lists *)

Section ListFacts.

Context {A : Type}.
Implicit Types (l : list A) (f : A → nat).

Lemma sum_list_with_insert f l i x y :
  l !! i = Some x →
  sum_list_with f (<[i:=y]> l) + f x = sum_list_with f l + f y.
Proof.
  revert i. induction l as [|a l IH]; intros [|i] Hi; simplify_eq/=.
  - lia.
  - specialize (IH _ Hi). lia.
Qed.

Lemma sum_list_with_zero f l :
  (∀ j x, l !! j = Some x → f x = 0) → sum_list_with f l = 0.
Proof.
  induction l as [|a l IH]; intros H; [done|]. simpl.
  rewrite (H 0 a eq_refl), IH; [done|]. intros j x Hj. exact (H (S j) x Hj).
Qed.

Lemma length_slice (i j : nat) l :
  length (slice i j l) = (j - i) `min` (length l - i).
Proof. unfold slice. by rewrite length_take, length_drop. Qed.

Lemma lookup_slice (i j k : nat) l :
  slice i j l !! k = if bool_decide (k < j - i) then l !! (i + k) else None.
Proof.
  unfold slice. case_bool_decide.
  - by rewrite lookup_take_lt, lookup_drop.
  - by rewrite lookup_take_ge by lia.
Qed.

(** The slices taken by the loop, glued together, are the list. *)
Lemma slices_cover (n : nat) l :
  0 < n →
  ∀ m, concat ((λ b, slice (b * n) (b * n + n) l) <$> seq 0 m)
       = take (m * n) l.
Proof.
  intros Hn m. induction m as [|m IH]; [done|].
  rewrite seq_S, fmap_app, concat_app, IH. simpl. rewrite app_nil_r.
  unfold slice.
  replace (m * n + n - m * n) with n by lia.
  replace (n + m * n) with (m * n + n) by lia.
  by rewrite <- take_take_drop.
Qed.

End ListFacts.

Lemma forallb_slice_true {A} (f : A → bool) (i j : nat) (l : list A) :
  forallb f (slice i j l) = true →
  ∀ k x, l !! k = Some x → i ≤ k → k < j → f x = true.
Proof.
  intros H k x Hk Hi Hj.
  apply Is_true_true, forallb_True in H.
  eapply Forall_lookup_1 with (i := k - i) in H; [by apply Is_true_true|].
  rewrite lookup_slice, bool_decide_eq_true_2 by lia.
  by replace (i + (k - i)) with k by lia.
Qed.

Lemma forallb_slice_false {A} (f : A → bool) (i j : nat) (l : list A) :
  forallb f (slice i j l) = false →
  ∃ k x, l !! k = Some x ∧ i ≤ k ∧ k < j ∧ f x = false.
Proof.
  intros H.
  assert (¬ Forall (λ x, f x = true) (slice i j l)) as Hn.
  { intros HF. assert (forallb f (slice i j l) = true); [|congruence].
    apply Is_true_true, forallb_True.
    eapply Forall_impl; [exact HF|]. intros x ->. done. }
  apply not_Forall_Exists in Hn; [|intros x; apply _].
  apply Exists_exists in Hn as (x & Hx & Hfx).
  apply list_elem_of_lookup in Hx as [k Hk].
  rewrite lookup_slice in Hk. case_bool_decide; [|done].
  exists (i + k), x. split; [done|]. split; [lia|]. split; [lia|].
  simpl in Hfx. destruct (f x); [by destruct Hfx | done].
Qed.

(** * The run: how the sections are started *)

Section StartFacts.

Context (h : Helpers) (env : Env) (p : Project).

Lemma startSection_fields (i : nat) (cfg : SectionConfig) (s : State) :
  let s' := startSection h p i cfg s in
  pc s' = pc s ∧ loop_i s' = loop_i s ∧ draftId s' = draftId s
  ∧ results s' = results s ∧ status s' = status s
  ∧ secs s' = <[i:=AwaitRace]> (secs s)
  ∧ (∃ new, log s' = log s ++ new ∧ Forall (start_action h p i cfg) new
            ∧ Forall (λ a, is_section_write a = false) new)
  ∧ (∃ more, inflight s' = inflight s ++ more ∧ length more ≤ 1).
Proof.
  unfold startSection. simpl.
  destruct (generation h p cfg) as [r|m|req k] eqn:Hg; simpl;
    repeat split; try done.
  - eexists [_; _]. split; [by rewrite <- app_assoc|].
    split; [|by repeat constructor].
    repeat apply Forall_cons_2; try apply Forall_nil_2;
      unfold start_action; eauto 10.
  - exists []. split; [by rewrite app_nil_r | simpl; lia].
  - eexists [_; _]. split; [by rewrite <- app_assoc|].
    split; [|by repeat constructor].
    repeat apply Forall_cons_2; try apply Forall_nil_2;
      unfold start_action; eauto 10.
  - exists []. split; [by rewrite app_nil_r | simpl; lia].
  - eexists [_; _; _]. split; [by rewrite <- !app_assoc|].
    split; [|by repeat constructor].
    repeat apply Forall_cons_2; try apply Forall_nil_2;
      unfold start_action; eauto 10.
  - exists [i]. split; [done|]. simpl. lia.
Qed.

Lemma startAll_fields (batch : list SectionConfig) (i : nat) (s : State) :
  let s' := startAll h p i batch s in
  pc s' = pc s ∧ loop_i s' = loop_i s ∧ draftId s' = draftId s
  ∧ results s' = results s ∧ status s' = status s
  ∧ length (secs s') = length (secs s)
  ∧ (∀ j, secs s' !! j =
          if bool_decide (i ≤ j ∧ j < i + length batch ∧ j < length (secs s))
          then Some AwaitRace else secs s !! j)
  ∧ (∃ new, log s' = log s ++ new
            ∧ Forall (λ a, ∃ k cfg, batch !! k = Some cfg
                                    ∧ start_action h p (i + k) cfg a) new
            ∧ Forall (λ a, is_section_write a = false) new)
  ∧ (∃ more, inflight s' = inflight s ++ more
             ∧ length more ≤ length batch).
Proof.
  revert i s. induction batch as [|cfg rest IH]; intros i s; simpl.
  - repeat split; try done.
    + intros j. case_bool_decide; [lia|done].
    + exists []. by rewrite app_nil_r.
    + exists []. split; [by rewrite app_nil_r | simpl; lia].
  - destruct (startSection_fields i cfg s)
      as (Hpc & Hl & Hd & Hr & Hst & Hsecs & (new1 & Hlog1 & Hn1 & Hw1)
          & (m1 & Hin1 & Hm1)).
    destruct (IH (S i) (startSection h p i cfg s))
      as (Hpc' & Hl' & Hd' & Hr' & Hst' & Hlen' & Hsecs'
          & (new2 & Hlog2 & Hn2 & Hw2) & (m2 & Hin2 & Hm2)).
    simpl in *.
    repeat split; try congruence.
    + by rewrite Hlen', Hsecs, length_insert.
    + intros j. rewrite Hsecs', Hsecs, length_insert.
      destruct (decide (j = i)) as [->|Hne].
      * rewrite bool_decide_eq_false_2 by lia.
        case_bool_decide.
        -- apply list_lookup_insert_eq. lia.
        -- rewrite list_insert_ge; [done|]. lia.
      * rewrite list_lookup_insert_ne by done.
        repeat case_bool_decide; try done; lia.
    + exists (new1 ++ new2). split; [by rewrite Hlog2, Hlog1, app_assoc|].
      split; [|by apply Forall_app].
      apply Forall_app. split.
      * eapply Forall_impl; [exact Hn1|]. intros a Ha. exists 0, cfg.
        by rewrite Nat.add_0_r.
      * eapply Forall_impl; [exact Hn2|]. intros a (k & c & Hk & Ha).
        exists (S k), c. split; [done|].
        by replace (i + S k) with (S i + k) by lia.
    + exists (m1 ++ m2). split; [by rewrite Hin2, Hin1, app_assoc|].
      rewrite length_app. lia.
Qed.

End StartFacts.

(** * The run: the resumptions of a section *)

(** Unfolds the blocks of [processSection] and the field updates, and
    reduces the projections as it goes. *)
Ltac unfold_run :=
  cbv beta iota zeta delta
    [afterRace catchSection recordSection finallySection emitError
     enterCatch afterLoop markReady finish rethrow
     persist remove_inflight push_section push_error push_warnings
     set_sec set_results set_status set_inflight set_pc set_loop set_draft act
     pc loop_i secs draftId results log status inflight
     r_sections r_errors r_warnings] in *.

Section MoveFacts.

Context (h : Helpers) (env : Env) (p : Project).

Local Ltac solve_results :=
  first
    [ by (left; split; reflexivity)
    | by (right; split; [reflexivity|]; split; [reflexivity|];
          rewrite ?length_app; simpl; (left + right); split;
          first [reflexivity | lia]) ].

Local Ltac solve_log :=
  rewrite <- ?app_assoc; simpl;
  eexists; split; [reflexivity|];
  repeat apply Forall_cons_2; try apply Forall_nil_2; by simpl.

Local Ltac solve_unbroken i :=
  let Hok := fresh in
  intros Hok ? ?;
  pose proof (ok_listener _ Hok (Some i));
  pose proof (ok_placeholder _ Hok i);
  congruence.

Local Ltac solve_move i :=
  eexists; econstructor;
  [ eassumption | reflexivity | reflexivity | reflexivity | simpl; lia
  | reflexivity | reflexivity | reflexivity | by eauto
  | simpl; first [ apply length_filter | lia ]
  | simpl; solve_results | simpl; solve_log | solve_unbroken i ].

(** A resumption of [processSection] either moves the section to its
    next [await], or settles it. *)
Lemma stepSec_cases (i : nat) (s s' : State) :
  stepSec h env p i s = Some s' →
  (∃ x y, SecMove env p i x y s s')
  ∨ (∃ pending outcome,
       secs s !! i = Some (AwaitProgress pending)
       ∧ s' = settle h env p i outcome s
       ∧ (handlers_ok env → outcome = pending)).
Proof.
  unfold stepSec. intros Hstep.
  destruct (section_mapping p !! i) as [cfg|] eqn:Hcfg; [|done].
  destruct (secs s !! i) as [x|] eqn:Hx; [|done]. simpl in Hstep.
  destruct x as [| |r| |pending|rej]; simplify_eq.
  - (* the race settles *)
    left. exists AwaitRace. destruct s as [? ? ? ? [? ? ?] ? ? ?]. unfold_run.
    destruct (settles_in_time env i), (race env i (generation h p cfg)),
      (errorListener env (Some i)) eqn:?, (writeProgress env i);
      solve_move i.
  - (* the section write settles *)
    left. exists (AwaitWrite r). destruct s as [? ? ? ? [? ? ?] ? ? ?]. unfold_run.
    destruct (writeSection env i), (errorListener env (Some i)) eqn:?,
      (writeProgress env i); try case_bool_decide;
      solve_move i.
  - (* the placeholder write settles *)
    left. exists AwaitPlaceholder. destruct s as [? ? ? ? [? ? ?] ? ? ?]. unfold_run.
    destruct (writePlaceholder env i) eqn:Hw, (writeProgress env i);
      solve_move i.
  - (* the progress update settles *)
    right. destruct (writeProgress env i) as [m|] eqn:Hw.
    + exists pending, (Some (Error m)). repeat split.
      intros Hok. by rewrite (ok_progress _ Hok) in Hw.
    + by exists pending, pending.
Qed.

End MoveFacts.

(** * The run: invariants *)

Section InvariantFacts.

Context (h : Helpers) (env : Env) (p : Project).

Local Abbreviation shape := (shape env p).
Local Abbreviation counted := (counted p).
Local Abbreviation action_ok := (action_ok h env p).
Local Abbreviation invariant := (invariant h env p).

Lemma in_flight_not_settled (x : SectionPc) (o : option Exn) :
  in_flight x = true → x ≠ Settled o.
Proof. by destruct x. Qed.

Lemma in_flight_not_idle (x : SectionPc) : in_flight x = true → x ≠ Idle.
Proof. by destruct x. Qed.

(** A section in flight belongs to the current batch. *)
Lemma in_flight_in_batch (s : State) (i : nat) (x : SectionPc) :
  shape s → secs s !! i = Some x → in_flight x = true →
  loop_i s ≤ i ∧ i < loop_i s + CONCURRENCY ∧ i < total p.
Proof.
  intros Hs Hi Hx.
  assert (i < total p).
  { rewrite <- (shape_length _ _ _ Hs). by eapply lookup_lt_Some. }
  destruct (decide (i < loop_i s)) as [Hlt|].
  { by destruct (in_flight_not_settled x None Hx), (shape_before _ _ _ Hs i x). }
  destruct (decide (loop_i s + CONCURRENCY ≤ i)) as [Hge|].
  { by destruct (in_flight_not_idle x Hx), (shape_after _ _ _ Hs i x). }
  lia.
Qed.

(** While a section is in flight the run waits for its batch, or has
    entered its [catch] block. *)
Lemma in_flight_pc (s : State) (i : nat) (x : SectionPc) :
  shape s → secs s !! i = Some x → in_flight x = true →
  pc s = AwaitBatch ∨ (∃ e, pc s = AwaitRollback e) ∨ (∃ e, pc s = Thrown e).
Proof.
  intros Hs Hi Hx.
  destruct (in_flight_in_batch s i x Hs Hi Hx) as (? & ? & ?).
  pose proof (shape_pc _ _ _ Hs) as Hpc.
  destruct (pc s); eauto; try lia.
  - destruct Hpc as [_ Hidle]. by destruct (in_flight_not_idle x Hx), (Hidle i x).
  - destruct Hpc as [_ Hidle]. by destruct (in_flight_not_idle x Hx), (Hidle i x).
Qed.

Lemma shape_move (i : nat) (x y : SectionPc) (s s' : State) :
  shape s → SecMove env p i x y s s' → shape s'.
Proof.
  intros Hs [Hold Hnew Hx Hy _ Hpc Hloop Hdraft Hstatus _ _ _ _].
  destruct (in_flight_in_batch s i x Hs Hold Hx) as (Hlo & Hhi & Htot).
  assert (i < length (secs s)) as Hlen by by eapply lookup_lt_Some.
  constructor; rewrite ?Hnew, ?Hpc, ?Hloop, ?Hdraft.
  - rewrite length_insert. apply Hs.
  - apply Hs.
  - intros j z Hj Hlt. rewrite list_lookup_insert_ne in Hj by lia.
    by eapply (shape_before _ _ _ Hs).
  - intros j z Hj Hge. rewrite list_lookup_insert_ne in Hj by lia.
    by eapply (shape_after _ _ _ Hs).
  - pose proof (shape_pc _ _ _ Hs) as HP.
    destruct (in_flight_pc s i x Hs Hold Hx) as [HB|[[e HB]|[e HB]]];
      rewrite HB in *; [|done..].
    destruct HP as (Hlt & Hall & (j0 & x0 & Hj0 & Hj0lo & Hj0hi & Hun)).
    split; [done|]. split.
    + intros j z Hj Hjlo Hjhi.
      destruct (decide (j = i)) as [->|Hne].
      * rewrite list_lookup_insert_eq in Hj by done. simplify_eq.
        split; [by destruct z|]. intros e. by apply in_flight_not_settled.
      * rewrite list_lookup_insert_ne in Hj by done. eauto.
    + destruct (decide (j0 = i)) as [->|Hne].
      * exists i, y. rewrite list_lookup_insert_eq by done.
        repeat split; try done. by destruct y.
      * exists j0, x0. by rewrite list_lookup_insert_ne.
  - apply Hs.
  - intros Hr. destruct Hstatus as [Heq|Heq]; rewrite Heq in Hr; [|done].
    by apply Hs.
Qed.

Lemma counted_move (i : nat) (x y : SectionPc) (s s' : State) :
  counted s → SecMove env p i x y s s' → counted s'.
Proof.
  unfold counted, count. intros Hc [Hold Hnew _ _ _ _ _ _ _ _ Hres _ _].
  pose proof (sum_list_with_insert
    (λ z, if undecided z then 1 else 0) (secs s) i x y Hold) as Hsum.
  simpl in Hsum. rewrite Hnew.
  destruct Hres as [[-> Hu]|(Hx & Hy & [[Hsec ->]|[-> Herr]])].
  - rewrite Hu in Hsum. lia.
  - rewrite Hx, Hy in Hsum. lia.
  - rewrite Hx, Hy in Hsum. lia.
Qed.

Lemma section_action_ok (n : nat) (a : Action) :
  n ≤ total p → section_action p n a → action_ok a.
Proof.
  intros Hn. destruct a as [pid []|pid st []| | | | |]; simpl; try done.
  intros (-> & -> & ->). done.
Qed.

Lemma invariant_move (i : nat) (x y : SectionPc) (s s' : State) :
  invariant s → SecMove env p i x y s s' → invariant s'.
Proof.
  intros [Hs Hc Hl] Hm.
  pose proof (counted_move _ _ _ _ _ Hc Hm) as Hc'.
  constructor; [by eapply shape_move|done|].
  destruct (move_log _ _ _ _ _ _ _ Hm) as (new & -> & Hnew).
  apply Forall_app. split; [done|].
  eapply Forall_impl; [exact Hnew|]. intros a.
  apply section_action_ok. unfold counted in Hc'. lia.
Qed.

End InvariantFacts.

(** * The run: the loop over the batches *)

Section LoopFacts.

Context (h : Helpers) (env : Env) (p : Project).

Local Abbreviation shape := (shape env p).
Local Abbreviation counted := (counted p).
Local Abbreviation action_ok := (action_ok h env p).
Local Abbreviation invariant := (invariant h env p).

Lemma startAll_weight (batch : list SectionConfig) (i : nat) (s : State) :
  (∀ k, k < length batch → secs s !! (i + k) = Some Idle) →
  sum_list_with weight (secs (startAll h p i batch s)) + 2 * length batch
    = sum_list_with weight (secs s)
  ∧ count undecided (secs (startAll h p i batch s))
    = count undecided (secs s).
Proof.
  revert i s. induction batch as [|cfg rest IH]; intros i s Hidle; simpl.
  { lia. }
  destruct (startSection_fields h p i cfg s)
    as (_ & _ & _ & _ & _ & Hsecs & _).
  cbv zeta in Hsecs.
  assert (secs s !! i = Some Idle) as Hi.
  { rewrite <- (Nat.add_0_r i). apply Hidle. simpl. lia. }
  destruct (IH (S i) (startSection h p i cfg s)) as [Hw Hc].
  { intros k Hk. rewrite Hsecs, list_lookup_insert_ne by lia.
    replace (S i + k) with (i + S k) by lia. apply Hidle. simpl. lia. }
  rewrite Hsecs in Hw, Hc.
  pose proof (sum_list_with_insert weight (secs s) i Idle AwaitRace Hi) as H1.
  pose proof (sum_list_with_insert (λ z, if undecided z then 1 else 0)
                (secs s) i Idle AwaitRace Hi) as H2.
  simpl in H1, H2. unfold count in *. lia.
Qed.

Lemma enterLoop_fields (i : nat) (s : State) :
  length (secs s) = total p →
  (∀ j x, secs s !! j = Some x → i ≤ j → x = Idle) →
  let s' := enterLoop h p i s in
  loop_i s' = i ∧ draftId s' = draftId s ∧ results s' = results s
  ∧ status s' = status s ∧ length (secs s') = length (secs s)
  ∧ (∃ new, log s' = log s ++ new
            ∧ Forall (λ a, is_section_write a = false) new
            ∧ Forall (loop_action h p s) new)
  ∧ ((i < total p ∧ pc s' = AwaitBatch
      ∧ (∀ j, secs s' !! j =
              if bool_decide (i ≤ j ∧ j < i + CONCURRENCY ∧ j < total p)
              then Some AwaitRace else secs s !! j)
      ∧ sum_list_with weight (secs s') + length (inflight s')
          ≤ sum_list_with weight (secs s) + length (inflight s)
      ∧ count undecided (secs s') = count undecided (secs s))
     ∨ (total p ≤ i ∧ pc s' = AwaitReferences ∧ secs s' = secs s
        ∧ inflight s' = inflight s)).
Proof.
  intros Hlen Hidle. unfold enterLoop. case_bool_decide as Hi.
  - set (batch := slice i (i + CONCURRENCY) (section_mapping p)).
    assert (length batch ≤ 3 ∧ i + length batch ≤ total p
            ∧ (length batch = 3 ∨ i + length batch = total p)) as Hb.
    { unfold batch. rewrite length_slice.
      unfold total, CONCURRENCY in Hi |- *. lia. }
    destruct (startAll_fields h p batch i (set_loop i s))
      as (Hpc & Hl & Hd & Hr & Hst & Hlen' & Hsecs
          & (new & Hlog & Hnew & Hw) & (more & Hin & Hmore)).
    destruct (startAll_weight batch i (set_loop i s)) as [Hwt Hct].
    { intros k Hk. simpl.
      destruct (lookup_lt_is_Some_2 (secs s) (i + k)) as [x Hx]; [lia|].
      rewrite Hx. f_equal. eapply Hidle; [done|lia]. }
    simpl in *. repeat split; try done.
    + exists new. repeat split; try done.
      eapply Forall_impl; [exact Hnew|]. intros a (k & cfg & Hk & Ha).
      left. exists (i + k), cfg. split; [|done].
      unfold batch in Hk. rewrite lookup_slice in Hk.
      by case_bool_decide.
    + left. repeat split; try done.
      * intros j. rewrite Hsecs.
        unfold CONCURRENCY in *.
        repeat case_bool_decide; try done; lia.
      * rewrite Hin, length_app. lia.
  - simpl. repeat split; try done.
    + exists [UpdateDraftReferences (draftId s) (collectReferences (documents p))].
      repeat split; try done.
      * by repeat constructor.
      * apply Forall_cons_2; [by right|apply Forall_nil_2].
    + right. repeat split; try done. lia.
Qed.

Lemma start_action_ok (j : nat) (cfg : SectionConfig) (a : Action) :
  section_mapping p !! j = Some cfg → start_action h p j cfg a →
  action_ok a.
Proof.
  intros Hj [[n ->]|[->|(req & k & Hg & ->)]]; simpl; eauto 10.
Qed.

Lemma loop_action_ok (s : State) (a : Action) :
  createDraft env = inl (draftId s) → loop_action h p s a → action_ok a.
Proof.
  intros Hd [(j & cfg & Hj & Ha)| ->].
  - by eapply start_action_ok.
  - done.
Qed.

Lemma invariant_enterLoop (i : nat) (s : State) :
  loop_head env p i s → counted s → Forall action_ok (log s) →
  invariant (enterLoop h p i s).
Proof.
  intros [Hlen Hloop Hbefore Hafter Hdraft Hstatus] Hc Hlog.
  destruct (enterLoop_fields i s Hlen Hafter)
    as (Hl & Hd & Hr & Hst & Hlen' & (new & Hlog' & _ & Hnew) & Hcases).
  simpl in *. constructor.
  - destruct Hcases as [(Hi & Hpc & Hsecs & _)|(Hi & Hpc & Hsecs & _)];
      constructor; rewrite ?Hpc, ?Hl, ?Hd, ?Hst; try done; try congruence.
    + intros j x Hj Hlt.
      rewrite Hsecs, bool_decide_eq_false_2 in Hj by lia. eauto.
    + intros j x Hj Hge. unfold CONCURRENCY in Hge.
      rewrite Hsecs, bool_decide_eq_false_2 in Hj
        by (unfold CONCURRENCY; lia).
      eapply Hafter; [done|lia].
    + split; [done|]. split.
      * intros j x. rewrite Hsecs. intros Hj Hlo Hhi.
        case_bool_decide.
        -- by simplify_eq.
        -- apply lookup_lt_Some in Hj. lia.
      * exists i, AwaitRace. rewrite Hsecs, bool_decide_eq_true_2.
        -- unfold CONCURRENCY. repeat split; try done; lia.
        -- unfold CONCURRENCY. lia.
    + rewrite Hsecs. eauto.
    + rewrite Hsecs. intros j x Hj ?. eapply Hafter; [done|lia].
  - unfold counted in *. rewrite Hr.
    destruct Hcases as [(_ & _ & _ & _ & ->)|(_ & _ & -> & _)]; done.
  - rewrite Hlog'. apply Forall_app. split; [done|].
    eapply Forall_impl; [exact Hnew|]. intros a. by apply loop_action_ok.
Qed.

End LoopFacts.

(** * The run: every reachable state satisfies the invariant *)

Section Preservation.

Context (h : Helpers) (env : Env) (p : Project).

Local Abbreviation shape := (shape env p).
Local Abbreviation counted := (counted p).
Local Abbreviation action_ok := (action_ok h env p).
Local Abbreviation invariant := (invariant h env p).

(** The four ways in which a section settles. *)
Lemma settle_cases (i : nat) (outcome : option Exn) (s : State) :
  let s1 := set_sec i (Settled outcome) s in
  (pc s ≠ AwaitBatch ∧ settle h env p i outcome s = s1)
  ∨ (pc s = AwaitBatch
     ∧ ∃ e, outcome = Some e ∧ settle h env p i outcome s = enterCatch h env p e s1)
  ∨ (pc s = AwaitBatch ∧ outcome = None ∧ batch_resolved s1 = false
     ∧ settle h env p i outcome s = s1)
  ∨ (pc s = AwaitBatch ∧ outcome = None ∧ batch_resolved s1 = true
     ∧ settle h env p i outcome s
       = enterLoop h p (loop_i s + CONCURRENCY) s1).
Proof.
  unfold settle. cbn [pc set_sec loop_i].
  destruct (pc s) eqn:Hpc; try (left; split; [done|reflexivity]).
  destruct outcome as [e|].
  - right. left. eauto.
  - destruct (batch_resolved _) eqn:Hb.
    + right. right. right. done.
    + right. right. left. done.
Qed.

Lemma counted_settle (i : nat) (pending outcome : option Exn) (s : State) :
  counted s → secs s !! i = Some (AwaitProgress pending) →
  counted (set_sec i (Settled outcome) s).
Proof.
  unfold counted, count. intros Hc Hi. simpl.
  pose proof (sum_list_with_insert (λ z, if undecided z then 1 else 0)
                (secs s) i _ (Settled outcome) Hi) as Hsum.
  simpl in Hsum. lia.
Qed.

(** The state in which the last section of a batch has resolved is a
    loop head for the next batch. *)
Lemma settled_loop_head (i : nat) (pending : option Exn) (s : State) :
  shape s → secs s !! i = Some (AwaitProgress pending) →
  pc s = AwaitBatch →
  batch_resolved (set_sec i (Settled None) s) = true →
  loop_head env p (loop_i s + CONCURRENCY) (set_sec i (Settled None) s).
Proof.
  intros Hs Hi Hpc Hres.
  destruct (in_flight_in_batch env p s i _ Hs Hi eq_refl) as (Hlo & Hhi & Htot).
  pose proof (shape_pc _ _ _ Hs) as HP. rewrite Hpc in HP.
  pose proof (shape_draft _ _ _ Hs) as HD. rewrite Hpc in HD.
  unfold batch_resolved in Hres. cbn [secs loop_i set_sec] in Hres.
  constructor; cbn [secs set_sec draftId status].
  - rewrite length_insert. apply Hs.
  - destruct (shape_loop _ _ _ Hs) as [b ->]. exists (S b).
    unfold CONCURRENCY. lia.
  - intros j x Hj Hlt.
    destruct (decide (j < loop_i s)) as [Hlt'|Hge].
    + rewrite list_lookup_insert_ne in Hj by lia.
      by eapply (shape_before _ _ _ Hs).
    + pose proof (forallb_slice_true _ _ _ _ Hres j x Hj
                    ltac:(lia) ltac:(lia)) as Hx.
      by destruct x as [| | | | |[]].
  - intros j x Hj Hge. rewrite list_lookup_insert_ne in Hj by lia.
    eapply (shape_after _ _ _ Hs); [done|lia].
  - done.
  - intros Hr. apply (shape_status _ _ _ Hs) in Hr. lia.
Qed.

Lemma invariant_settle (i : nat) (pending outcome : option Exn) (s : State) :
  invariant s → secs s !! i = Some (AwaitProgress pending) →
  invariant (settle h env p i outcome s).
Proof.
  intros [Hs Hc Hl] Hi.
  destruct (in_flight_in_batch env p s i _ Hs Hi eq_refl) as (Hlo & Hhi & Htot).
  assert (i < length (secs s)) as Hlen by by eapply lookup_lt_Some.
  pose proof (counted_settle i pending outcome s Hc Hi) as Hc1.
  assert (∀ o j x, secs (set_sec i (Settled o) s) !! j = Some x →
                   j < loop_i s → x = Settled None) as Hbefore.
  { intros o j x Hj Hlt. simpl in Hj.
    rewrite list_lookup_insert_ne in Hj by lia.
    by eapply (shape_before _ _ _ Hs). }
  assert (∀ o j x, secs (set_sec i (Settled o) s) !! j = Some x →
                   loop_i s + CONCURRENCY ≤ j → x = Idle) as Hafter.
  { intros o j x Hj Hge. simpl in Hj.
    rewrite list_lookup_insert_ne in Hj by lia.
    by eapply (shape_after _ _ _ Hs). }
  destruct (settle_cases i outcome s)
    as [[Hpc ->]|[(Hpc & e & -> & ->)|[(Hpc & -> & Hres & ->)
                                      |(Hpc & -> & Hres & ->)]]].
  - (* the run has left the batch *)
    constructor; [|done|done].
    pose proof (shape_draft _ _ _ Hs) as HD.
    destruct (in_flight_pc env p s i _ Hs Hi eq_refl)
      as [HB|[[e HB]|[e HB]]]; [done| |];
      rewrite HB in HD;
      (constructor; cbn [pc set_sec loop_i secs draftId status];
       [ rewrite length_insert; apply Hs | apply Hs | by apply Hbefore
       | by apply Hafter | by rewrite HB | by rewrite HB | apply Hs ]).
  - (* a rejection: the run enters its catch block *)
    pose proof (shape_draft _ _ _ Hs) as HD. rewrite Hpc in HD.
    assert (shape (enterCatch h env p e (set_sec i (Settled (Some e)) s))).
    { unfold enterCatch, persist.
      destruct (writeRollback env);
        (constructor; cbn [pc set_sec loop_i secs draftId status act
                           set_pc set_status];
         [ rewrite length_insert; apply Hs | apply Hs | by apply Hbefore
         | by apply Hafter | done | done | ]).
      - apply Hs.
      - done. }
    constructor; [done| |].
    + unfold counted, enterCatch, persist in *.
      by destruct (writeRollback env).
    + unfold enterCatch, persist.
      destruct (writeRollback env); cbn [log set_pc set_status act set_sec];
        (apply Forall_app; split; [done|by repeat constructor]).
  - (* a resolution, with other sections of the batch outstanding *)
    constructor; [|done|done].
    pose proof (shape_pc _ _ _ Hs) as HP. rewrite Hpc in HP.
    destruct HP as (Hlt & Hall & _).
    assert (∀ j x, <[i:=Settled None]> (secs s) !! j = Some x →
              loop_i s ≤ j → j < loop_i s + CONCURRENCY →
              started x = true ∧ ∀ e, x ≠ Settled (Some e)) as Hall'.
    { intros j x Hj ? ?. destruct (decide (j = i)) as [->|Hne].
      - rewrite list_lookup_insert_eq in Hj by done. by simplify_eq.
      - rewrite list_lookup_insert_ne in Hj by done. eauto. }
    pose proof (shape_draft _ _ _ Hs) as HD. rewrite Hpc in HD.
    constructor; cbn [pc set_sec loop_i secs draftId status];
      [ rewrite length_insert; apply Hs | apply Hs | by apply Hbefore
      | by apply Hafter | rewrite Hpc | by rewrite Hpc | apply Hs ].
    split; [done|]. split; [done|].
    unfold batch_resolved in Hres. cbn [secs loop_i set_sec] in Hres.
    apply forallb_slice_false in Hres as (k & x & Hk & ? & ? & Hx).
    exists k, x. repeat split; try done.
    destruct (Hall' k x Hk) as [Hst Hrej]; [done..|].
    destruct x as [| | | | |[e|]]; try done. by destruct (Hrej e).
  - (* the last resolution of the batch: the loop goes on *)
    apply invariant_enterLoop; [|done|done].
    by eapply settled_loop_head.
Qed.

End Preservation.

Section Reachability.

Context (h : Helpers) (env : Env) (p : Project).

Local Abbreviation shape := (shape env p).
Local Abbreviation counted := (counted p).
Local Abbreviation action_ok := (action_ok h env p).
Local Abbreviation invariant := (invariant h env p).
Local Abbreviation step := (step h env p).
Local Abbreviation run := (run h env p).

Lemma run_app (sched1 sched2 : list Choice) (s : State) :
  run (sched1 ++ sched2) s = run sched1 s ≫= run sched2.
Proof.
  revert s. induction sched1 as [|c sched1 IH]; intros s; simpl; [done|].
  destruct (step s c); simpl; [apply IH|done].
Qed.

Lemma run_snoc (sched : list Choice) (c : Choice) (s s' : State) :
  run (sched ++ [c]) s = Some s' ↔
  ∃ s1, run sched s = Some s1 ∧ step s1 c = Some s'.
Proof.
  rewrite run_app. split.
  - destruct (run sched s) as [s1|]; simpl; [|done].
    destruct (step s1 c) eqn:Hc; simpl; [|done]. intros [= <-]. eauto.
  - intros (s1 & -> & Hc). simpl. by rewrite Hc.
Qed.

(** Induction over the runs from a state. *)
Lemma run_ind (P : State → Prop) (s0 : State) :
  P s0 →
  (∀ s c s', P s → step s c = Some s' → P s') →
  ∀ sched s, run sched s0 = Some s → P s.
Proof.
  intros H0 Hstep sched.
  induction sched as [|c sched IH] using rev_ind; intros s Hrun.
  - by simplify_eq/=.
  - apply run_snoc in Hrun as (s1 & Hrun & Hc). eauto.
Qed.

(** A step of the run itself leaves the sections and the loop variable
    as they are; the shape is kept when the new program counter agrees
    with them. *)
Lemma shape_update (s s' : State) :
  shape s → secs s' = secs s → loop_i s' = loop_i s →
  match pc s' with
  | AwaitInitStatus | AwaitCreateDraft =>
      loop_i s = 0 ∧ ∀ j x, secs s !! j = Some x → x = Idle
  | AwaitBatch => pc s = AwaitBatch
  | AwaitReferences | AwaitReady | Returned => total p ≤ loop_i s
  | AwaitRollback _ | Thrown _ => True
  end →
  match pc s' with
  | AwaitInitStatus | AwaitCreateDraft | Thrown _ => True
  | _ => createDraft env = inl (draftId s')
  end →
  (status s' = Some StReady → total p ≤ loop_i s) →
  shape s'.
Proof.
  intros Hs Hsecs Hloop Hpc Hdraft Hstatus.
  constructor; rewrite ?Hsecs, ?Hloop; try apply Hs; try done.
  pose proof (shape_pc _ _ _ Hs) as HP.
  destruct (pc s'); try done. by rewrite Hpc in HP.
Qed.

Lemma invariant_init : invariant (init env p).
Proof.
  assert (shape {| pc := AwaitInitStatus; loop_i := 0;
                   secs := replicate (total p) Idle; draftId := "";
                   results := {| r_sections := []; r_errors := [];
                                 r_warnings := [] |};
                   log := []; status := None; inflight := [] |}) as H0.
  { constructor; cbn [pc loop_i secs draftId status]; try done.
    - apply length_replicate.
    - by exists 0.
    - lia.
    - by intros j x [-> _]%lookup_replicate.
    - split; [done|]. by intros j x [-> _]%lookup_replicate. }
  unfold init, persist. constructor.
  - destruct (initStatus env);
      (eapply shape_update;
       [exact H0|done|done|exact (shape_pc _ _ _ H0)|done|done]).
  - assert (∀ n, count undecided (replicate n Idle) = n) as Hn.
    { induction n as [|n IH]; [done|]. unfold count in *. simpl. by rewrite IH. }
    unfold counted. destruct (initStatus env); simpl; by rewrite Hn.
  - destruct (initStatus env); cbn [log act set_status];
      (apply Forall_cons_2; [|apply Forall_nil_2]; simpl;
       repeat split; first [done | lia]).
Qed.

Local Ltac log_ok :=
  cbn [log act set_pc set_status set_draft];
  first [ assumption
        | apply Forall_app; split; [assumption|];
          repeat apply Forall_cons_2; try apply Forall_nil_2;
          simpl; repeat split; first [done | lia] ].

Lemma invariant_stepMain (s s' : State) :
  invariant s → stepMain h env p s = Some s' → invariant s'.
Proof.
  intros [Hs Hc Hl]. unfold stepMain.
  pose proof (shape_pc _ _ _ Hs) as HP.
  pose proof (shape_draft _ _ _ Hs) as HD.
  pose proof (shape_status _ _ _ Hs) as HS.
  destruct (pc s) eqn:Hpc; intros Hstep; simplify_eq.
  - (* the first status update settles *)
    destruct (initStatus env);
      (constructor;
       [ eapply shape_update; [exact Hs|done..] | done | log_ok ]).
  - (* the draft is created *)
    destruct HP as [Hloop Hidle].
    destruct (createDraft env) as [d|m] eqn:Hd.
    + apply invariant_enterLoop; [|done|done].
      constructor; cbn [secs draftId status set_draft]; try done.
      * apply Hs.
      * by exists 0.
      * lia.
      * eauto.
      * intros Hr. apply HS in Hr. lia.
    + constructor; [eapply shape_update; [exact Hs|done..]|done|log_ok].
  - (* the references are written *)
    destruct (writeReferences env).
    + unfold enterCatch, persist. destruct (writeRollback env);
        (constructor;
         [ eapply shape_update; [exact Hs|done..] | done | log_ok ]).
    + unfold markReady, persist. destruct (writeReady env);
        (constructor;
         [ eapply shape_update; [exact Hs|done..] | done | log_ok ]).
  - (* the final status update settles *)
    destruct (writeReady env).
    + unfold enterCatch, persist. destruct (writeRollback env);
        (constructor;
         [ eapply shape_update; [exact Hs|done..] | done | log_ok ]).
    + constructor;
        [ eapply shape_update; [exact Hs|done..] | done | ].
      cbn [log act set_pc finish]. apply Forall_app. split; [done|].
      apply Forall_cons_2; [|done]. simpl. split; [|done].
      unfold counted, count in Hc.
      rewrite sum_list_with_zero in Hc; [lia|].
      intros j x Hj.
      rewrite (shape_before _ _ _ Hs j x Hj); [done|].
      apply lookup_lt_Some in Hj. rewrite (shape_length _ _ _ Hs) in Hj.
      lia.
  - (* the rollback settles *)
    destruct (writeRollback env).
    + constructor; [eapply shape_update; [exact Hs|done..]|done|log_ok].
    + unfold rethrow, emitError. destruct (errorListener env None);
        (constructor;
         [ eapply shape_update; [exact Hs|done..] | done | log_ok ]).
Qed.

Lemma invariant_stepLate (i : nat) (s s' : State) :
  invariant s → stepLate env i s = Some s' → invariant s'.
Proof.
  intros [Hs Hc Hl]. unfold stepLate.
  destruct (secs s !! i) as [x|]; [|done]. simpl.
  destruct x; try done;
    (destruct (_ && _); [|done]; intros [= <-];
     constructor; [|done|done];
     constructor; cbn [pc loop_i secs draftId status remove_inflight
                       set_inflight]; apply Hs).
Qed.

Lemma invariant_step (s : State) (c : Choice) (s' : State) :
  invariant s → step s c = Some s' → invariant s'.
Proof.
  intros Hinv. destruct c as [|i|i]; simpl.
  - by apply invariant_stepMain.
  - intros Hstep.
    destruct (stepSec_cases h env p i s s' Hstep)
      as [(x & y & Hm)|(pending & outcome & Hi & -> & _)].
    + by eapply invariant_move.
    + by eapply invariant_settle.
  - by apply invariant_stepLate.
Qed.

(** Every state of every run satisfies the invariant. *)
Lemma reachable_invariant (sched : list Choice) (s : State) :
  run sched (init env p) = Some s → invariant s.
Proof.
  apply run_ind; [apply invariant_init|].
  intros s1 c s2. apply invariant_step.
Qed.

End Reachability.

(** * The run: termination *)

Section Termination.

Context (h : Helpers) (env : Env) (p : Project).

Local Abbreviation invariant := (invariant h env p).
Local Abbreviation step := (step h env p).
Local Abbreviation run := (run h env p).

Lemma measure_init : measure (init env p) = 6 + 6 * total p.
Proof.
  assert (∀ n, sum_list_with weight (replicate n Idle) = 6 * n) as Hn.
  { induction n as [|n IH]; [done|]. simpl replicate. simpl sum_list_with.
    rewrite IH. lia. }
  unfold init, persist, measure.
  destruct (initStatus env); simpl; rewrite Hn; lia.
Qed.

Lemma measure_stepMain (s s' : State) :
  invariant s → stepMain h env p s = Some s' → measure s' < measure s.
Proof.
  intros [Hs _ _]. unfold stepMain, measure.
  pose proof (shape_pc _ _ _ Hs) as HP.
  destruct (pc s) eqn:Hpc; intros Hstep; simplify_eq.
  - destruct (initStatus env); simpl; lia.
  - destruct (createDraft env) as [d|m]; [|simpl; lia].
    destruct HP as [_ Hidle].
    destruct (enterLoop_fields h p 0 (set_draft d s))
      as (_ & _ & _ & _ & _ & _ & Hcases).
    { apply Hs. }
    { intros j x Hj _. by eapply Hidle. }
    cbn [secs inflight set_draft] in Hcases.
    destruct Hcases as [(_ & -> & _ & Hw & _)|(_ & -> & -> & ->)];
      simpl; lia.
  - destruct (writeReferences env).
    + unfold enterCatch, persist. destruct (writeRollback env); simpl; lia.
    + unfold markReady, persist. destruct (writeReady env); simpl; lia.
  - destruct (writeReady env).
    + unfold enterCatch, persist. destruct (writeRollback env); simpl; lia.
    + simpl. lia.
  - destruct (writeRollback env); [simpl; lia|].
    unfold rethrow, emitError. destruct (errorListener env None); simpl; lia.
Qed.

Lemma measure_move (i : nat) (x y : SectionPc) (s s' : State) :
  SecMove env p i x y s s' → measure s' < measure s.
Proof.
  intros [Hold Hnew _ _ Hw Hpc _ _ _ Hin _ _ _]. unfold measure.
  pose proof (sum_list_with_insert weight (secs s) i x y Hold).
  rewrite Hnew, Hpc. lia.
Qed.

Lemma measure_settle (i : nat) (pending outcome : option Exn) (s : State) :
  invariant s → secs s !! i = Some (AwaitProgress pending) →
  measure (settle h env p i outcome s) < measure s.
Proof.
  intros [Hs _ _] Hi. unfold measure.
  pose proof (sum_list_with_insert weight (secs s) i _ (Settled outcome) Hi)
    as Hsum. simpl in Hsum.
  destruct (settle_cases h env p i outcome s)
    as [[Hpc ->]|[(Hpc & e & -> & ->)|[(Hpc & -> & Hres & ->)
                                      |(Hpc & -> & Hres & ->)]]].
  - simpl. lia.
  - unfold enterCatch, persist. rewrite Hpc.
    destruct (writeRollback env); simpl; lia.
  - simpl. lia.
  - destruct (settled_loop_head env p i pending s Hs Hi Hpc Hres)
      as [Hlen _ _ Hafter _ _].
    destruct (enterLoop_fields h p _ _ Hlen Hafter)
      as (_ & _ & _ & _ & _ & _ & Hcases).
    cbn [secs inflight set_sec] in Hcases. rewrite Hpc.
    destruct Hcases as [(_ & -> & _ & Hw & _)|(_ & -> & -> & ->)];
      simpl; lia.
Qed.

Lemma measure_stepLate (i : nat) (s s' : State) :
  stepLate env i s = Some s' → measure s' < measure s.
Proof.
  unfold stepLate, measure.
  destruct (secs s !! i) as [x|]; [|done]. simpl.
  assert (bool_decide (i ∈ inflight s) && settles env i = true →
          length (filter (λ j, j ≠ i) (inflight s)) < length (inflight s)).
  { intros [Hin _]%andb_true_iff. apply bool_decide_eq_true in Hin.
    eapply length_filter_lt; [done|]. by intros ?. }
  destruct x; try done;
    (destruct (_ && _); [|done]; intros [= <-]; simpl; lia).
Qed.

(** Every resumption brings the run closer to its end. *)
Lemma measure_step (s : State) (c : Choice) (s' : State) :
  invariant s → step s c = Some s' → measure s' < measure s.
Proof.
  intros Hinv. destruct c as [|i|i]; simpl.
  - by apply measure_stepMain.
  - intros Hstep.
    destruct (stepSec_cases h env p i s s' Hstep)
      as [(x & y & Hm)|(pending & outcome & Hi & -> & _)].
    + by eapply measure_move.
    + by eapply measure_settle.
  - by apply measure_stepLate.
Qed.

(** A run has at most [6 + 6 * total] resumptions. *)
Lemma run_length (sched : list Choice) (s : State) :
  run sched (init env p) = Some s →
  length sched + measure s ≤ 6 + 6 * total p.
Proof.
  revert s. induction sched as [|c sched IH] using rev_ind; intros s Hrun.
  - simplify_eq/=. rewrite measure_init. lia.
  - apply run_snoc in Hrun as (s1 & Hrun & Hc).
    pose proof (IH _ Hrun).
    pose proof (measure_step s1 c s
                  (reachable_invariant h env p _ _ Hrun) Hc).
    rewrite length_app. simpl. lia.
Qed.

End Termination.

(** * The run: progress, and runs in which only guarded parts fail *)

Section Progress.

Context (h : Helpers) (env : Env) (p : Project).

Local Abbreviation invariant := (invariant h env p).
Local Abbreviation step := (step h env p).
Local Abbreviation run := (run h env p).

(** A section in flight can always be resumed, whatever the other
    sections are doing. *)
Lemma in_flight_enabled (s : State) (i : nat) (x : SectionPc) :
  invariant s → secs s !! i = Some x → in_flight x = true →
  ∃ s', step s (Sec i) = Some s'.
Proof.
  intros [Hs _ _] Hi Hx. simpl. unfold stepSec.
  destruct (in_flight_in_batch env p s i x Hs Hi Hx) as (_ & _ & Htot).
  destruct (lookup_lt_is_Some_2 (section_mapping p) i Htot) as [cfg ->].
  rewrite Hi. simpl. destruct x; try done; eauto.
Qed.

(** The run is never stuck before it returns or throws. *)
Lemma progress (s : State) :
  invariant s →
  pc s = Returned ∨ (∃ e, pc s = Thrown e) ∨ ∃ c s', step s c = Some s'.
Proof.
  intros Hinv. pose proof (shape_pc _ _ _ (inv_shape _ _ _ _ Hinv)) as HP.
  destruct (pc s) eqn:Hpc; eauto;
    try (right; right; exists Main; simpl; unfold stepMain; rewrite Hpc;
         by eauto).
  destruct HP as (_ & Hall & (j & x & Hj & Hlo & Hhi & Hun)).
  destruct (Hall j x Hj Hlo Hhi) as [Hst _].
  destruct (in_flight_enabled s j x Hinv Hj) as [s' Hs'].
  { unfold in_flight. by rewrite Hst, Hun. }
  right. right. by exists (Sec j), s'.
Qed.

Lemma unbroken_init : handlers_ok env → unbroken (init env p).
Proof.
  intros Hok. unfold init, persist. rewrite (ok_init _ Hok).
  constructor; cbn [pc secs status act set_status]; try done.
  intros j e. split; intros [? _]%lookup_replicate; done.
Qed.

Lemma unbroken_enterLoop (i : nat) (s : State) (x : MainPc) :
  loop_head env p i s → pc s = x → x ≠ Returned → x ≠ AwaitReady →
  (∀ j e, secs s !! j ≠ Some (Settled (Some e))
          ∧ secs s !! j ≠ Some (AwaitProgress (Some e))) →
  unbroken (enterLoop h p i s).
Proof.
  intros [Hlen _ _ Hafter _ _] Hpc Hx1 Hx2 Hsecs.
  destruct (enterLoop_fields h p i s Hlen Hafter)
    as (_ & _ & _ & _ & _ & _ & Hcases).
  destruct Hcases as [(_ & Hpc' & Hs' & _)|(_ & Hpc' & Hs' & _)];
    constructor; rewrite ?Hpc'; try done.
  - intros j e. rewrite Hs'. case_bool_decide; [done|apply Hsecs].
  - intros j e. rewrite Hs'. apply Hsecs.
Qed.

Lemma unbroken_step (s : State) (c : Choice) (s' : State) :
  handlers_ok env → invariant s → unbroken s → step s c = Some s' →
  unbroken s'.
Proof.
  intros Hok Hinv [Hpc Hsecs Hret Hready] Hstep.
  pose proof (inv_shape _ _ _ _ Hinv) as Hs.
  destruct c as [|i|i]; simpl in Hstep.
  - (* the run itself *)
    unfold stepMain in Hstep.
    pose proof (shape_pc _ _ _ Hs) as HP.
    destruct (pc s) eqn:Hpcs; simplify_eq.
    + rewrite (ok_init _ Hok). by constructor.
    + destruct (ok_draft _ Hok) as [d Hd]. rewrite Hd.
      destruct HP as [Hloop Hidle].
      eapply (unbroken_enterLoop _ _ AwaitCreateDraft);
        [|exact Hpcs|done|done|done].
      constructor; cbn [secs draftId status set_draft]; try done.
      * apply Hs.
      * by exists 0.
      * lia.
      * eauto.
      * intros Hr. apply (shape_status _ _ _ Hs) in Hr. lia.
    + rewrite (ok_references _ Hok). unfold markReady, persist.
      rewrite (ok_ready _ Hok). by constructor.
    + rewrite (ok_ready _ Hok). constructor; try done.
      intros _. by apply Hready.
    + by destruct (Hpc e).
  - (* a section *)
    destruct (stepSec_cases h env p i s s' Hstep)
      as [(x & y & Hm)|(pending & outcome & Hi & -> & Hout)].
    + destruct Hm as [Hold Hnew Hx Hy _ Hpc' _ _ _ _ _ _ Hunb].
      assert (pc s ≠ Returned ∧ pc s ≠ AwaitReady) as [? ?].
      { pose proof (shape_pc _ _ _ Hs) as HP.
        destruct (in_flight_in_batch env p s i x Hs Hold Hx) as (? & ? & ?).
        split; intros Heq; rewrite Heq in HP; lia. }
      constructor; rewrite ?Hpc', ?Hnew; try done.
      intros j e. destruct (decide (j = i)) as [->|Hne].
      * rewrite list_lookup_insert_eq by by eapply lookup_lt_Some.
        split; intros [= ->]; [done|]. by eapply Hunb.
      * rewrite list_lookup_insert_ne by done. apply Hsecs.
    + specialize (Hout Hok). subst outcome.
      assert (pending = None) as ->.
      { destruct pending as [e|]; [|done]. by destruct (Hsecs i e) as [_ []]. }
      assert (∀ j e,
                secs (set_sec i (Settled None) s) !! j ≠ Some (Settled (Some e))
                ∧ secs (set_sec i (Settled None) s) !! j
                  ≠ Some (AwaitProgress (Some e))) as Hsecs1.
      { intros j e. cbn [secs set_sec].
        destruct (decide (j = i)) as [->|Hne].
        - rewrite list_lookup_insert_eq by by eapply lookup_lt_Some. done.
        - rewrite list_lookup_insert_ne by done. apply Hsecs. }
      destruct (settle_cases h env p i None s)
        as [[Hpcs ->]|[(Hpcs & e & ? & ->)|[(Hpcs & _ & Hres & ->)
                                          |(Hpcs & _ & Hres & ->)]]].
      * constructor; cbn [pc status set_sec]; done.
      * done.
      * constructor; cbn [pc status set_sec]; rewrite ?Hpcs; done.
      * eapply (unbroken_enterLoop _ _ AwaitBatch);
          [|exact Hpcs|done|done|done].
        by eapply settled_loop_head.
  - (* an abandoned model call *)
    unfold stepLate in Hstep.
    destruct (secs s !! i) as [x|]; [|done]. simpl in Hstep.
    destruct x; try done;
      (destruct (_ && _); [|done]; simplify_eq; by constructor).
Qed.

Lemma reachable_unbroken (sched : list Choice) (s : State) :
  handlers_ok env → run sched (init env p) = Some s → unbroken s.
Proof.
  intros Hok Hrun.
  enough (invariant s ∧ unbroken s) by tauto.
  revert sched s Hrun. apply run_ind.
  - split; [apply invariant_init|by apply unbroken_init].
  - intros s c s' [Hinv Hunb] Hstep. split.
    + by eapply invariant_step.
    + by eapply unbroken_step.
Qed.

(** When only guarded parts fail, every run can be resumed until it
    returns. *)
Lemma eventually_returns (s : State) :
  handlers_ok env → invariant s → unbroken s →
  ∃ sched' s', run sched' s = Some s' ∧ pc s' = Returned.
Proof.
  intros Hok.
  induction s as [s IH] using (well_founded_induction
                                 (well_founded_ltof State measure)).
  intros Hinv Hunb.
  destruct (progress s Hinv) as [Hret|[[e He]|(c & s1 & Hc)]].
  - by exists [], s.
  - by destruct (unbroken_pc _ Hunb e) as [_ []].
  - destruct (IH s1) as (sched' & s' & Hrun & Hret).
    + by eapply measure_step.
    + by eapply invariant_step.
    + by eapply unbroken_step.
    + exists (c :: sched'), s'. simpl. by rewrite Hc.
Qed.

End Progress.

(** * The run: after the loop *)

Section AfterLoop.

Context (h : Helpers) (env : Env) (p : Project).

Local Abbreviation invariant := (invariant h env p).
Local Abbreviation step := (step h env p).
Local Abbreviation run := (run h env p).

Lemma section_writes_app (l1 l2 : list Action) :
  section_writes (l1 ++ l2) = section_writes l1 ++ section_writes l2.
Proof. apply filter_app. Qed.

Lemma section_writes_none (l : list Action) :
  Forall (λ a, is_section_write a = false) l → section_writes l = [].
Proof.
  induction 1 as [|a l Ha _ IH]; [done|].
  unfold section_writes in *. rewrite filter_cons_False; [done|].
  by rewrite Ha.
Qed.

(** Once the loop has been left no section can be resumed. *)
Lemma after_loop_stepSec (i : nat) (s : State) :
  invariant s → total p ≤ loop_i s → stepSec h env p i s = None.
Proof.
  intros [Hs _ _] Hloop. unfold stepSec.
  destruct (section_mapping p !! i) as [cfg|] eqn:Hcfg; [|done].
  destruct (secs s !! i) as [x|] eqn:Hx; [|done]. simpl.
  rewrite (shape_before _ _ _ Hs i x Hx); [done|].
  apply lookup_lt_Some in Hx. rewrite (shape_length _ _ _ Hs) in Hx. lia.
Qed.

(** After the loop, a resumption writes no draft section and leaves the
    results as they are. *)
Lemma after_loop_step (s : State) (c : Choice) (s' : State) :
  invariant s → total p ≤ loop_i s → step s c = Some s' →
  total p ≤ loop_i s'
  ∧ section_writes (log s') = section_writes (log s)
  ∧ results s' = results s.
Proof.
  intros Hinv Hloop Hstep. pose proof (inv_shape _ _ _ _ Hinv) as Hs.
  destruct c as [|i|i]; simpl in Hstep.
  - unfold stepMain in Hstep.
    pose proof (shape_pc _ _ _ Hs) as HP.
    destruct (pc s) eqn:Hpc; simplify_eq.
    + destruct (initStatus env); cbn [loop_i log results act set_pc];
        rewrite ?section_writes_app, ?app_nil_r; done.
    + destruct (createDraft env) as [d|m]; [|done].
      destruct HP as [Hl0 Hidle].
      destruct (enterLoop_fields h p 0 (set_draft d s))
        as (Hl & _ & Hr & _ & _ & (new & Hlog & Hw & _) & _).
      { apply Hs. }
      { intros j x Hj _. by eapply Hidle. }
      cbn [log results set_draft] in *.
      rewrite Hl, Hr, Hlog, section_writes_app, (section_writes_none new Hw),
        app_nil_r.
      split; [lia|done].
    + destruct (writeReferences env).
      * unfold enterCatch, persist. destruct (writeRollback env);
          cbn [loop_i log results act set_pc set_status];
          rewrite ?section_writes_app, ?app_nil_r; done.
      * unfold markReady, persist. destruct (writeReady env);
          cbn [loop_i log results act set_pc set_status];
          rewrite ?section_writes_app, ?app_nil_r; done.
    + destruct (writeReady env).
      * unfold enterCatch, persist. destruct (writeRollback env);
          cbn [loop_i log results act set_pc set_status];
          rewrite ?section_writes_app, ?app_nil_r; done.
      * cbn [loop_i log results act set_pc finish].
        rewrite ?section_writes_app, ?app_nil_r; done.
    + destruct (writeRollback env); [done|].
      unfold rethrow, emitError. destruct (errorListener env None);
        cbn [loop_i log results act set_pc];
        rewrite ?section_writes_app, ?app_nil_r; done.
  - by rewrite (after_loop_stepSec i s Hinv Hloop) in Hstep.
  - unfold stepLate in Hstep.
    destruct (secs s !! i) as [x|]; [|done]. simpl in Hstep.
    destruct x; try done; (destruct (_ && _); [|done]; by simplify_eq).
Qed.

Lemma after_loop_run (sched : list Choice) (s s' : State) :
  invariant s → total p ≤ loop_i s → run sched s = Some s' →
  section_writes (log s') = section_writes (log s)
  ∧ results s' = results s.
Proof.
  intros Hinv Hloop Hrun.
  enough (invariant s' ∧ total p ≤ loop_i s'
          ∧ section_writes (log s') = section_writes (log s)
          ∧ results s' = results s) by tauto.
  revert sched s' Hrun. apply run_ind; [done|].
  intros s1 c s2 (Hinv1 & Hloop1 & Hw1 & Hr1) Hstep.
  destruct (after_loop_step s1 c s2 Hinv1 Hloop1 Hstep) as (? & ? & ?).
  split; [by eapply invariant_step|]. split; [done|]. split; congruence.
Qed.

(** The model call that a timed-out section has left behind settles
    unobserved: nothing but the set of outstanding calls changes. *)
Lemma stepLate_unobserved (i : nat) (s s' : State) :
  stepLate env i s = Some s' →
  pc s' = pc s ∧ secs s' = secs s ∧ results s' = results s
  ∧ log s' = log s ∧ status s' = status s.
Proof.
  unfold stepLate. destruct (secs s !! i) as [x|]; [|done]. simpl.
  destruct x; try done; (destruct (_ && _); [|done]; by intros [= <-]).
Qed.

End AfterLoop.

(** * The run: the terminal event *)

Section Completion.

Context (h : Helpers) (env : Env) (p : Project).

Local Abbreviation invariant := (invariant h env p).
Local Abbreviation step := (step h env p).
Local Abbreviation run := (run h env p).
Local Abbreviation complete_ok := (complete_ok p).

Lemma no_complete (s : State) (a : Action) :
  complete_ok s → pc s ≠ Returned → a ∈ log s → is_complete a = false.
Proof.
  intros Hc Hpc Ha. destruct a as [pid []| | | | | |]; try done.
  by destruct (Hc _ _ _ _ Ha) as [? _].
Qed.

(** The state keeps [complete_ok] when the run has not returned and
    nothing appended to the log is the terminal event. *)
Lemma complete_ok_extend (s s' : State) (new : list Action) :
  complete_ok s → pc s ≠ Returned → log s' = log s ++ new →
  Forall (λ a, is_complete a = false) new →
  complete_ok s'.
Proof.
  intros Hc Hpc Hlog Hnew pid d n errs Hin.
  rewrite Hlog in Hin. apply elem_of_app in Hin as [Hin|Hin].
  - by pose proof (no_complete s _ Hc Hpc Hin).
  - rewrite Forall_forall in Hnew. by pose proof (Hnew _ Hin).
Qed.

Lemma section_action_not_complete (n : nat) (a : Action) :
  section_action p n a → is_complete a = false.
Proof. by destruct a as [pid []| | | | | |]. Qed.

Lemma loop_action_not_complete (s : State) (a : Action) :
  loop_action h p s a → is_complete a = false.
Proof.
  intros [(j & cfg & _ & [[n ->]|[->|(req & k & _ & ->)]])| ->]; done.
Qed.

Local Ltac solve_pc :=
  match goal with
  | H : pc _ ≠ Returned |- _ => exact H
  | H : pc _ = _ |- _ => by rewrite H
  end.

Local Ltac extend_nil :=
  eapply complete_ok_extend with (new := []);
  [ eassumption | solve_pc | by rewrite ?app_nil_r | by constructor ].

Local Ltac extend_one :=
  eapply complete_ok_extend;
  [ eassumption | solve_pc
  | cbn [log act set_pc set_status set_sec]; reflexivity
  | by repeat constructor ].

Lemma complete_ok_step (s : State) (c : Choice) (s' : State) :
  invariant s → complete_ok s → step s c = Some s' → complete_ok s'.
Proof.
  intros Hinv Hc Hstep. pose proof (inv_shape _ _ _ _ Hinv) as Hs.
  destruct c as [|i|i]; simpl in Hstep.
  - (* the run itself *)
    unfold stepMain in Hstep.
    pose proof (shape_pc _ _ _ Hs) as HP.
    destruct (pc s) eqn:Hpc; simplify_eq.
    + destruct (initStatus env); [extend_nil|].
      extend_one.
    + destruct (createDraft env) as [d|m].
      * destruct HP as [_ Hidle].
        destruct (enterLoop_fields h p 0 (set_draft d s))
          as (_ & _ & _ & _ & _ & (new & Hlog & _ & Hnew) & _).
        { apply Hs. }
        { intros j x Hj _. by eapply Hidle. }
        eapply complete_ok_extend; [done|by rewrite Hpc|exact Hlog|].
        eapply Forall_impl; [exact Hnew|].
        apply loop_action_not_complete.
      * extend_nil.
    + destruct (writeReferences env).
      * unfold enterCatch, persist. destruct (writeRollback env);
          extend_one.
      * unfold markReady, persist. destruct (writeReady env);
          extend_one.
    + destruct (writeReady env).
      * unfold enterCatch, persist. destruct (writeRollback env);
          extend_one.
      * intros pid d n errs Hin.
        cbn [log pc draftId results act set_pc finish] in *.
        apply elem_of_app in Hin as [Hin|Hin].
        -- assert (pc s ≠ Returned) as Hne by by rewrite Hpc.
           by pose proof (no_complete s _ Hc Hne Hin).
        -- apply list_elem_of_singleton in Hin. by simplify_eq.
    + destruct (writeRollback env).
      * extend_nil.
      * unfold rethrow, emitError. destruct (errorListener env None).
        -- extend_one.
        -- extend_nil.
  - (* a section *)
    destruct (stepSec_cases h env p i s s' Hstep)
      as [(x & y & Hm)|(pending & outcome & Hi & -> & _)].
    + destruct (move_log _ _ _ _ _ _ _ Hm) as (new & Hlog & Hnew).
      assert (pc s ≠ Returned) as Hne.
      { destruct (in_flight_pc env p s i x Hs (move_old _ _ _ _ _ _ _ Hm)
                    (move_from_flight _ _ _ _ _ _ _ Hm))
          as [HB|[[e HB]|[e HB]]]; by rewrite HB. }
      eapply complete_ok_extend; [done|done|exact Hlog|].
      eapply Forall_impl; [exact Hnew|].
      intros a. apply section_action_not_complete.
    + assert (pc s ≠ Returned) as Hne.
      { destruct (in_flight_pc env p s i _ Hs Hi eq_refl)
          as [HB|[[e HB]|[e HB]]]; by rewrite HB. }
      destruct (settle_cases h env p i outcome s)
        as [[Hpc ->]|[(Hpc & e & -> & ->)|[(Hpc & -> & Hres & ->)
                                          |(Hpc & -> & Hres & ->)]]].
      * extend_nil.
      * unfold enterCatch, persist. destruct (writeRollback env);
          extend_one.
      * extend_nil.
      * destruct (settled_loop_head env p i pending s Hs Hi Hpc Hres)
          as [Hlen _ _ Hafter _ _].
        destruct (enterLoop_fields h p _ _ Hlen Hafter)
          as (_ & _ & _ & _ & _ & (new & Hlog & _ & Hnew) & _).
        eapply complete_ok_extend; [done|done|exact Hlog|].
        eapply Forall_impl; [exact Hnew|].
        apply loop_action_not_complete.
  - (* an abandoned model call *)
    destruct (stepLate_unobserved env i s s' Hstep)
      as (Hpc & _ & Hr & Hl & _).
    assert (draftId s' = draftId s) as Hd.
    { unfold stepLate in Hstep.
      destruct (secs s !! i) as [x|]; [|done]. simpl in Hstep.
      destruct x; try done; (destruct (_ && _); [|done]; by simplify_eq). }
    intros pid d n errs Hin. rewrite Hpc, Hr, Hd. rewrite Hl in Hin. eauto.
Qed.

Lemma reachable_complete_ok (sched : list Choice) (s : State) :
  run sched (init env p) = Some s → complete_ok s.
Proof.
  intros Hrun.
  enough (invariant s ∧ complete_ok s) by tauto.
  revert sched s Hrun. apply run_ind.
  - split; [apply invariant_init|].
    intros pid d n errs Hin. unfold init, persist in Hin.
    destruct (initStatus env); cbn [log act set_status] in Hin;
      apply list_elem_of_singleton in Hin; done.
  - intros s c s' [Hinv Hc] Hstep. split.
    + by eapply invariant_step.
    + by eapply complete_ok_step.
Qed.

End Completion.

(** * The run: sections in flight *)

Section InFlight.

Lemma count_le_length (f : SectionPc → bool) (l : list SectionPc) :
  count f l ≤ length l.
Proof.
  unfold count. induction l as [|x l IH]; simpl; [done|].
  destruct (f x); lia.
Qed.

Lemma count_window (f : SectionPc → bool) (l : list SectionPc) (a n : nat) :
  (∀ j x, l !! j = Some x → f x = true → a ≤ j ∧ j < a + n) →
  count f l ≤ n.
Proof.
  intros Hw.
  rewrite <- (take_drop a l), <- (take_drop n (drop a l)).
  unfold count. rewrite !sum_list_with_app.
  rewrite (sum_list_with_zero _ (take a l)).
  2:{ intros j x Hj. destruct (f x) eqn:Hf; [|done].
      apply lookup_take_Some in Hj as [Hj ?].
      destruct (Hw j x Hj Hf). lia. }
  rewrite (sum_list_with_zero _ (drop n (drop a l))).
  2:{ intros j x Hj. destruct (f x) eqn:Hf; [|done].
      rewrite !lookup_drop in Hj. destruct (Hw _ x Hj Hf). lia. }
  pose proof (count_le_length f (take n (drop a l))) as Hle.
  unfold count in Hle. rewrite length_take in Hle. lia.
Qed.

End InFlight.
(** * The run, action by action *)

Section TraceFacts.

Context (h : Helpers) (env : Env) (p : Project).

Lemma startSection_log (i : nat) (cfg : SectionConfig) (s : State) :
  log (startSection h p i cfg s)
    = log s ++ start_actions h p (length (r_sections (results s))) i cfg
  ∧ results (startSection h p i cfg s) = results s
  ∧ draftId (startSection h p i cfg s) = draftId s.
Proof.
  unfold startSection, start_actions. simpl.
  destruct (generation h p cfg); simpl; rewrite <- ?app_assoc; done.
Qed.

Lemma startAll_log (batch : list SectionConfig) (i : nat) (s : State) :
  log (startAll h p i batch s)
    = log s ++ start_log h p (length (r_sections (results s))) i batch.
Proof.
  revert i s. induction batch as [|cfg rest IH]; intros i s; simpl.
  - by rewrite app_nil_r.
  - destruct (startSection_log i cfg s) as (Hlog & Hres & _).
    by rewrite IH, Hlog, Hres, <- app_assoc.
Qed.

Lemma enterLoop_log (i : nat) (s : State) :
  log (enterLoop h p i s) = log s ++ loop_log h p i s.
Proof.
  unfold enterLoop, loop_log. case_bool_decide; simpl.
  - by rewrite startAll_log.
  - done.
Qed.

(** A resumption of [processSection] that does not settle the section. *)
Lemma stepSec_effect (i : nat) (cfg : SectionConfig) (x : SectionPc)
    (s s' : State) :
  stepSec h env p i s = Some s' →
  section_mapping p !! i = Some cfg →
  secs s !! i = Some x →
  in_finally x = false →
  ∃ y new,
    SecEffect h env p i cfg s x y new (results s')
    ∧ secs s' = <[i:=y]> (secs s)
    ∧ log s' = log s ++ new
    ∧ pc s' = pc s ∧ loop_i s' = loop_i s ∧ draftId s' = draftId s
    ∧ status s'
      = (if in_finally y
         then match writeProgress env i with
              | None => Some StGenerating
              | Some _ => status s
              end
         else status s).
Proof.
  unfold stepSec. intros Hstep Hcfg Hx Hfin. rewrite Hcfg, Hx in Hstep.
  simpl in Hstep.
  destruct x as [| |r| |pending|rej]; simplify_eq.
  - destruct s as [? ? ? ? [? ? ?] ? ? ?]. unfold_run.
    destruct (settles_in_time env i),
      (race env i (generation h p cfg)) as [r|e] eqn:Hrace,
      (errorListener env (Some i)) eqn:Hl,
      (writeProgress env i) eqn:Hw;
      cbv beta iota zeta;
      eexists _, _;
      (split; [first [ by apply eff_generated
                     | by apply eff_caught; [apply raised_race|]
                     | by apply eff_unheard; [apply raised_race|] ]|]);
      simpl; rewrite <- ?app_assoc; repeat split; reflexivity.
  - destruct s as [spc sloop ssecs sdraft [rsec rerr rwarn] slog sstat sinfl].
    unfold_run.
    destruct (writeSection env i) as [m|] eqn:Hws,
      (errorListener env (Some i)) eqn:Hl,
      (writeProgress env i) eqn:Hw;
      try (case_bool_decide as Hlen;
           [|destruct (warnings r) eqn:Hwr; [|simpl in Hlen; lia]]);
      cbv beta iota zeta;
      eexists _, _;
      (split; [first [ by apply eff_caught; [apply raised_write|]
                     | by apply eff_unheard; [apply raised_write|]
                     | idtac ]|]);
      simpl; rewrite <- ?app_assoc; repeat split; try reflexivity.
    all: pose proof (eff_written h env p i cfg
           {| pc := spc; loop_i := sloop; secs := ssecs; draftId := sdraft;
              results := {| r_sections := rsec; r_errors := rerr;
                            r_warnings := rwarn |};
              log := slog; status := sstat; inflight := sinfl |}
           r Hws) as Heff;
      unfold with_section, progress_update in Heff; simpl in Heff;
      rewrite ?Hwr, ?app_nil_r in Heff; simpl in Heff;
      rewrite ?length_app in *; simpl in *; exact Heff.
  - destruct s as [? ? ? ? [? ? ?] ? ? ?]. unfold_run.
    destruct (writePlaceholder env i) as [m|] eqn:Hwp,
      (writeProgress env i) eqn:Hw;
      eexists _, _; (split; [apply eff_placeholder|]);
      simpl; rewrite ?Hwp; repeat split; reflexivity.
Qed.

End TraceFacts.

Section EffectFacts.

Context (h : Helpers) (env : Env) (p : Project).

Lemma entered (i : nat) (s : State) :
  loop_head env p i s → Entered h p i s (enterLoop h p i s).
Proof.
  intros Hh.
  destruct (enterLoop_fields h p i s (head_length _ _ _ _ Hh)
              (head_after _ _ _ _ Hh))
    as (Hl & Hd & Hr & Hst & _ & _ & Hsecs).
  constructor; try done.
  - apply enterLoop_log.
  - destruct Hsecs as [(? & ? & ? & _)|(? & ? & ? & _)]; [left|right]; done.
Qed.

Lemma rejected (e : Exn) (s : State) :
  Rejected h env p e s (enterCatch h env p e s).
Proof.
  destruct s as [? ? ? ? [? ? ?] ? ? ?]. unfold_run.
  destruct (writeRollback env) eqn:Hw; constructor; simpl; rewrite ?Hw; done.
Qed.

Lemma settling (i : nat) (pending outcome : option Exn) (s : State) :
  shape env p s → secs s !! i = Some (AwaitProgress pending) →
  Settling h env p outcome (set_sec i (Settled outcome) s)
    (settle h env p i outcome s).
Proof.
  intros Hs Hi.
  destruct (settle_cases h env p i outcome s)
    as [[Hpc ->]|[(Hpc & e & -> & ->)|[(Hpc & -> & Hb & ->)
        |(Hpc & -> & Hb & ->)]]].
  - by apply settling_unobserved.
  - eapply settling_rejected; [done|done|apply rejected].
  - by apply settling_waiting.
  - pose proof (settled_loop_head env p i pending s Hs Hi Hpc Hb) as Hh.
    apply settling_next; [done|done|exact Hh|].
    by apply entered.
Qed.

(** Every step of the run is one of the effects. *)
Lemma step_effect (s : State) (c : Choice) (s' : State) :
  invariant h env p s → step h env p s c = Some s' → Effect h env p s s'.
Proof.
  intros [Hs Hc Hl]. destruct c as [|i|i]; simpl.
  - unfold stepMain.
    pose proof (shape_pc _ _ _ Hs) as HP.
    pose proof (shape_status _ _ _ Hs) as HS.
    destruct (pc s) eqn:Hpc; intros Hstep; simplify_eq.
    + destruct (initStatus env) as [m|] eqn:Hi.
      * eapply effect_main; rewrite ?Hpc;
          [by apply main_init_failed|done..|by rewrite app_nil_r].
      * eapply effect_main; rewrite ?Hpc; [by apply main_init|done..].
    + destruct HP as [Hloop Hidle].
      destruct (createDraft env) as [d|m] eqn:Hd.
      * eapply (effect_draft _ _ _ _ _ d (set_draft d s)); try done.
        -- constructor; cbn [secs draftId status set_draft]; try done.
           ++ apply Hs.
           ++ by exists 0.
           ++ lia.
           ++ eauto.
           ++ intros Hr. apply HS in Hr. lia.
        -- apply entered.
           constructor; cbn [secs draftId status set_draft]; try done.
           ++ apply Hs.
           ++ by exists 0.
           ++ lia.
           ++ eauto.
           ++ intros Hr. apply HS in Hr. lia.
      * eapply effect_main; rewrite ?Hpc;
          [by apply main_draft_failed|done..|by rewrite app_nil_r].
    + destruct (writeReferences env) as [m|] eqn:Hw.
      * destruct (rejected (Error m) s) as [? ? ? ? ? ? ?].
        eapply effect_main; rewrite ?Hpc;
          [by apply main_references_failed|done..].
      * unfold markReady, persist.
        destruct (writeReady env);
          (eapply effect_main; rewrite ?Hpc;
           [by apply main_references|done..]).
    + destruct (writeReady env) as [m|] eqn:Hw.
      * destruct (rejected (Error m) s) as [? ? ? ? ? ? ?].
        eapply effect_main; rewrite ?Hpc;
          [by apply main_ready_failed|done..].
      * eapply effect_main; rewrite ?Hpc; [by apply main_ready|done..].
    + destruct (writeRollback env) as [m|] eqn:Hw.
      * eapply effect_main; rewrite ?Hpc;
          [by apply main_rollback_failed|done..|by rewrite app_nil_r].
      * unfold rethrow, emitError.
        destruct (errorListener env None) eqn:Hl'.
        -- eapply effect_main; rewrite ?Hpc; [by apply main_rethrow|done..].
        -- eapply effect_main; rewrite ?Hpc;
             [by apply main_unheard|done..|by rewrite app_nil_r].
  - intros Hstep. pose proof Hstep as Hstep'. unfold stepSec in Hstep'.
    destruct (section_mapping p !! i) as [cfg|] eqn:Hcfg; [|done].
    destruct (secs s !! i) as [x|] eqn:Hx; [|done]. simpl in Hstep'.
    destruct (in_finally x) eqn:Hfin.
    + destruct x as [| | | |pending|]; try done.
      eapply (effect_settled _ _ _ _ _ i cfg pending
                (set_sec i (Settled _) s)); try done.
      assert (s' = settle h env p i
                     match writeProgress env i with
                     | None => pending
                     | Some m => Some (Error m)
                     end s) as ->.
      { destruct (writeProgress env i); by simplify_eq. }
      by eapply settling.
    + destruct (stepSec_effect h env p i cfg x s s' Hstep Hcfg Hx Hfin)
        as (y & new & Heff & ? & ? & ? & ? & ? & ?).
      by eapply effect_section.
  - unfold stepLate. destruct (secs s !! i) as [x|]; [|done]. simpl.
    destruct x; try done;
      (destruct (_ && _); [|done]; intros [= <-]; by apply effect_late).
Qed.

End EffectFacts.

Section RunInduction.

Context (h : Helpers) (env : Env) (p : Project).

(** Induction over the states of a run, effect by effect. *)
Lemma effect_ind (P : State → Prop) :
  P (init env p) →
  (∀ s s', invariant h env p s → invariant h env p s' → P s →
           Effect h env p s s' → P s') →
  ∀ sched s, run h env p sched (init env p) = Some s → P s.
Proof.
  intros H0 Hstep sched s Hrun.
  cut (invariant h env p s ∧ P s); [by intros [_ ?]|].
  revert sched s Hrun. apply run_ind.
  - split; [apply invariant_init | exact H0].
  - intros s c s' [Hinv HP] Hs.
    assert (invariant h env p s') as Hinv' by (by eapply invariant_step).
    split; [exact Hinv'|].
    eapply Hstep; [exact Hinv|exact Hinv'|exact HP|]. by eapply step_effect.
Qed.

Lemma filter_none {A} (f : A → bool) (l : list A) :
  Forall (λ a, f a = false) l → filter (λ a, f a = true) l = [].
Proof.
  induction 1 as [|a l Ha _ IH]; [done|].
  rewrite filter_cons_False; [done|]. by rewrite Ha.
Qed.

Lemma start_log_Forall (P : Action → Prop) (done : nat)
    (batch : list SectionConfig) (i : nat) :
  (∀ n title, P (Emit (projectId p) (EvProgress (total p) n title))) →
  (∀ j, P (SetTimeout j TIMEOUT_MS)) →
  (∀ j prompt, P (GenerateContent j prompt)) →
  Forall P (start_log h p done i batch).
Proof.
  intros H1 H2 H3. revert i.
  induction batch as [|cfg rest IH]; intros i; [done|].
  cbn [start_log]. apply Forall_app. split; [|apply IH].
  unfold start_actions. apply Forall_app. split.
  - repeat apply Forall_cons_2; done.
  - destruct (generation h p cfg); repeat apply Forall_cons_2; done.
Qed.

Lemma loop_log_Forall (P : Action → Prop) (i : nat) (s : State) :
  (∀ n title, P (Emit (projectId p) (EvProgress (total p) n title))) →
  (∀ j, P (SetTimeout j TIMEOUT_MS)) →
  (∀ j prompt, P (GenerateContent j prompt)) →
  (∀ d refs, P (UpdateDraftReferences d refs)) →
  Forall P (loop_log h p i s).
Proof.
  intros H1 H2 H3 H4. unfold loop_log. case_bool_decide.
  - by apply start_log_Forall.
  - by apply Forall_cons_2.
Qed.

(** Once the run has returned, every section has settled. *)
Lemma returned_all_settled (s : State) (i : nat) (x : SectionPc) :
  invariant h env p s → total p ≤ loop_i s → secs s !! i = Some x →
  x = Settled None.
Proof.
  intros [Hs _ _] Hloop Hi.
  eapply (shape_before _ _ _ Hs); [done|].
  apply lookup_lt_Some in Hi. rewrite (shape_length _ _ _ Hs) in Hi. lia.
Qed.

Lemma after_loop_pc (s : State) :
  invariant h env p s →
  pc s = Returned ∨ pc s = AwaitReady ∨ pc s = AwaitReferences →
  total p ≤ loop_i s.
Proof.
  intros [Hs _ _] Hpc. pose proof (shape_pc _ _ _ Hs) as HP.
  destruct Hpc as [Hpc|[Hpc|Hpc]]; by rewrite Hpc in HP.
Qed.

Lemma SecEffect_not_settled (i : nat) (cfg : SectionConfig) (s : State)
    (x y : SectionPc) (new : list Action) (r : Results) :
  SecEffect h env p i cfg s x y new r → ∀ o, x ≠ Settled o.
Proof. destruct 1 as [| |? ? []|? ? []|]; done. Qed.

Lemma SecEffect_not_terminal (i : nat) (cfg : SectionConfig) (s : State)
    (x y : SectionPc) (new : list Action) (r : Results) :
  SecEffect h env p i cfg s x y new r → terminal_events new = [].
Proof. destruct 1; done. Qed.

(** What is known of the terminal events in a state of a run. *)
Lemma reachable_terminal (sched : list Choice) (s : State) :
  run h env p sched (init env p) = Some s →
  match pc s with
  | Returned => terminal_events (log s) = [complete_event p s]
  | Thrown e =>
      terminal_events (log s) = []
      ∨ terminal_events (log s) = [fatal_error h p e]
  | _ => terminal_events (log s) = []
  end.
Proof.
  revert sched s. apply effect_ind.
  - unfold init, persist. by destruct (initStatus env).
  - intros s s' Hinv Hinv' IH Heff.
    destruct Heff
      as [y new Hmain Hpc Hsecs Hloop Hd Hr Hlog
         |d s0 Hpc Hd Hpc0 Hsecs0 Hloop0 Hd0 Hr0 Hlog0 Hst0 Hh He
         |i cfg x y new Hcfg Hx Heff Hsecs Hlog Hpc Hloop Hd Hst
         |i cfg pending s1 Hcfg Hx outcome Hpc1 Hsecs1 Hloop1 Hd1 Hr1 Hlog1
            Hst1 Hset
         |Hpc Hsecs Hloop Hd Hr Hlog Hst].
    + unfold terminal_events in *. rewrite Hpc, Hlog, filter_app.
      inversion Hmain; subst;
        match goal with H : _ = pc s |- _ => rewrite <- H in IH end;
        rewrite IH; simpl; rewrite ?app_nil_r; auto.
      unfold complete_event. by rewrite Hd, Hr.
    + rewrite Hpc in IH.
      assert (terminal_events (log s') = []) as Hnone.
      { unfold terminal_events in *.
        rewrite (entered_log _ _ _ _ _ He), filter_app, Hlog0, IH.
        apply filter_none, loop_log_Forall; done. }
      destruct (entered_secs _ _ _ _ _ He) as [(_ & -> & _)|(_ & -> & _)];
        done.
    + assert (terminal_events (log s') = terminal_events (log s)) as Hsame.
      { unfold terminal_events in *. rewrite Hlog, filter_app.
        pose proof (SecEffect_not_terminal _ _ _ _ _ _ _ Heff) as Hn.
        unfold terminal_events in Hn. by rewrite Hn, app_nil_r. }
      rewrite Hpc, Hsame. destruct (pc s) eqn:Hpcs; try done.
      pose proof (after_loop_pc s Hinv (or_introl Hpcs)) as Hafter.
      pose proof (returned_all_settled s i x Hinv Hafter Hx) as ->.
      by destruct (SecEffect_not_settled _ _ _ _ _ _ _ Heff None).
    + destruct Hset as [Hpc ->| e Hpc _ Hrej |Hpc _ -> |Hpc _ Hh He].
      * rewrite Hpc1, Hlog1. destruct (pc s); try done.
        unfold complete_event in *. by rewrite Hd1, Hr1.
      * rewrite Hpc1 in Hpc. rewrite Hpc in IH.
        rewrite (rejected_pc _ _ _ _ _ _ Hrej).
        unfold terminal_events in *.
        rewrite (rejected_log _ _ _ _ _ _ Hrej), filter_app, Hlog1, IH. done.
      * rewrite Hpc1 in Hpc. rewrite Hpc in IH. by rewrite Hpc1, Hpc, Hlog1.
      * rewrite Hpc1 in Hpc. rewrite Hpc in IH.
        assert (terminal_events (log s') = []) as Hnone.
        { unfold terminal_events in *.
          rewrite (entered_log _ _ _ _ _ He), filter_app, Hlog1, IH.
          apply filter_none, loop_log_Forall; done. }
        destruct (entered_secs _ _ _ _ _ He) as [(_ & -> & _)|(_ & -> & _)];
          done.
    + rewrite Hpc, Hlog. destruct (pc s); try done.
      unfold complete_event in *. by rewrite Hd, Hr.
Qed.

End RunInduction.

(** * The run after a failure *)

Section AfterFailure.

Context (h : Helpers) (env : Env) (p : Project).

Lemma Raised_writes_ahead (i : nat) (cfg : SectionConfig) (x : SectionPc)
    (e : Exn) :
  Raised h env p i cfg x e → writes_ahead x = true.
Proof. by destruct 1. Qed.

(** What a resumption of a section may write, and where it leaves the
    section. *)
Lemma SecEffect_writes (i : nat) (cfg : SectionConfig) (s : State)
    (x y : SectionPc) (new : list Action) (r : Results) :
  SecEffect h env p i cfg s x y new r →
  x ≠ Idle ∧ y ≠ Idle
  ∧ (writes_ahead y = true → writes_ahead x = true)
  ∧ Forall (λ a, ∃ d c, a = UpdateDraftSection d i c ∧ writes_ahead x = true)
      (section_writes new).
Proof.
  destruct 1 as [r0 Hrace|r0 Hw|x e Hraised Hl|x e Hraised Hl|].
  - repeat split; try done. repeat constructor. eauto.
  - repeat split; try done.
  - pose proof (Raised_writes_ahead _ _ _ _ Hraised) as Hx.
    repeat split; try done.
    + by destruct Hraised.
    + repeat constructor. eauto.
  - pose proof (Raised_writes_ahead _ _ _ _ Hraised) as Hx.
    repeat split; try done. by destruct Hraised.
  - repeat split; try done.
Qed.

Lemma MainEffect_failed (s : State) (x y : MainPc) (new : list Action) :
  MainEffect h env p s x y new → failed x = true →
  failed y = true ∧ section_writes new = [].
Proof. by destruct 1. Qed.

Lemma aftermath_same (s s' : State) :
  failed (pc s) = true → pc s' = pc s → secs s' = secs s → log s' = log s →
  aftermath s s'.
Proof.
  intros Hf Hpc Hsecs Hlog. constructor.
  - by rewrite Hpc.
  - intros i. by rewrite Hsecs.
  - intros i y. rewrite Hsecs. eauto.
  - exists []. by rewrite Hlog, app_nil_r.
Qed.

Lemma aftermath_trans (s1 s2 s3 : State) :
  aftermath s1 s2 → aftermath s2 s3 → aftermath s1 s3.
Proof.
  intros [_ Hi1 Ha1 (new1 & Hw1 & Hn1)] [Hf2 Hi2 Ha2 (new2 & Hw2 & Hn2)].
  constructor; [done|auto|..].
  - intros i y Hy Hay. destruct (Ha2 i y Hy Hay) as (x & Hx & Hax). eauto.
  - exists (new1 ++ new2). split; [by rewrite Hw2, Hw1, app_assoc|].
    apply Forall_app. split; [done|].
    eapply Forall_impl; [exact Hn2|].
    intros a (d & i & c & x & -> & Hx & Hax).
    destruct (Ha1 i x Hx Hax) as (x0 & Hx0 & Hax0).
    exists d, i, c, x0. done.
Qed.

(** A step of a run that has failed. *)
Lemma aftermath_step (s : State) (c : Choice) (s' : State) :
  invariant h env p s → failed (pc s) = true →
  step h env p s c = Some s' → aftermath s s'.
Proof.
  intros Hinv Hf Hstep.
  destruct (step_effect h env p s c s' Hinv Hstep)
    as [y new Hmain Hpc Hsecs Hloop Hd Hr Hlog
       |d s0 Hpc Hd Hpc0 Hsecs0 Hloop0 Hd0 Hr0 Hlog0 Hst0 Hh He
       |i cfg x y new Hcfg Hx Heff Hsecs Hlog Hpc Hloop Hd Hst
       |i cfg pending s1 Hcfg Hx outcome Hpc1 Hsecs1 Hloop1 Hd1 Hr1 Hlog1
          Hst1 Hset
       |Hpc Hsecs Hloop Hd Hr Hlog Hst].
  - destruct (MainEffect_failed _ _ _ _ Hmain Hf) as [Hy Hnone].
    constructor.
    + by rewrite Hpc.
    + intros i. by rewrite Hsecs.
    + intros i z. rewrite Hsecs. eauto.
    + exists []. by rewrite Hlog, section_writes_app, Hnone.
  - by rewrite Hpc in Hf.
  - destruct (SecEffect_writes _ _ _ _ _ _ _ Heff)
      as (Hxi & Hyi & Hahead & Hnew).
    constructor.
    + by rewrite Hpc.
    + intros j Hj. rewrite Hsecs.
      destruct (decide (j = i)) as [->|Hne]; [congruence|].
      by rewrite list_lookup_insert_ne.
    + intros j z. rewrite Hsecs.
      destruct (decide (j = i)) as [->|Hne].
      * rewrite list_lookup_insert_eq by (by eapply lookup_lt_Some).
        intros [= <-] Hz. eauto.
      * rewrite list_lookup_insert_ne by done. eauto.
    + exists (section_writes new).
      split; [by rewrite Hlog, section_writes_app|].
      eapply Forall_impl; [exact Hnew|].
      intros a (d & c0 & -> & Hax). exists d, i, c0, x. done.
  - assert (aftermath s s1) as H1.
    { constructor.
      - by rewrite Hpc1.
      - intros j Hj. rewrite Hsecs1.
        destruct (decide (j = i)) as [->|Hne]; [congruence|].
        by rewrite list_lookup_insert_ne.
      - intros j z. rewrite Hsecs1.
        destruct (decide (j = i)) as [->|Hne].
        + rewrite list_lookup_insert_eq by (by eapply lookup_lt_Some).
          by intros [= <-].
        + rewrite list_lookup_insert_ne by done. eauto.
      - exists []. by rewrite Hlog1, app_nil_r. }
    assert (pc s1 ≠ AwaitBatch) as Hnb.
    { rewrite Hpc1. intros Hb. by rewrite Hb in Hf. }
    destruct Hset as [_ ->| e Hpc _ _ |Hpc _ _ |Hpc _ _ _]; done.
  - by apply aftermath_same.
Qed.

(** Every continuation of a run that has failed. *)
Lemma aftermath_run (sched : list Choice) (s s' : State) :
  invariant h env p s → failed (pc s) = true →
  run h env p sched s = Some s' → aftermath s s'.
Proof.
  revert s. induction sched as [|c sched IH]; intros s Hinv Hf Hrun.
  { simpl in Hrun. simplify_eq. by apply aftermath_same. }
  simpl in Hrun. destruct (step h env p s c) as [s1|] eqn:Hstep; [|done].
  simpl in Hrun.
  pose proof (aftermath_step s c s1 Hinv Hf Hstep) as H1.
  eapply aftermath_trans; [exact H1|].
  apply IH; [by eapply invariant_step|apply H1|done].
Qed.

(** The status is 'draft' only in a run that has failed. *)
Lemma draft_status_step (s : State) (c : Choice) (s' : State) :
  invariant h env p s →
  (status s = Some StDraft → failed (pc s) = true) →
  step h env p s c = Some s' →
  status s' = Some StDraft → failed (pc s') = true.
Proof.
  intros Hinv IH. destruct c as [|i|i]; simpl.
  - pose proof Hinv as [Hs _ _]. unfold stepMain.
    pose proof (shape_pc _ _ _ Hs) as HP.
    pose proof (shape_status _ _ _ Hs) as HS.
    destruct (pc s) eqn:Hpc; intros Hstep; simplify_eq.
    + destruct (initStatus env); [done|]. simpl. intros Hd. by apply IH in Hd.
    + destruct HP as [Hloop Hidle].
      destruct (createDraft env) as [d|m] eqn:Hd; [|done].
      assert (loop_head env p 0 (set_draft d s)) as Hh.
      { constructor; cbn [secs draftId status set_draft]; try done.
        - apply Hs.
        - by exists 0.
        - lia.
        - eauto.
        - intros Hr. apply HS in Hr. lia. }
      pose proof (entered h env p 0 _ Hh) as He.
      rewrite (entered_status _ _ _ _ _ He). simpl.
      intros Hst. by apply IH in Hst.
    + destruct (writeReferences env) as [m|].
      * intros _. by rewrite (rejected_pc _ _ _ _ _ _ (rejected h env p _ s)).
      * unfold markReady, persist. destruct (writeReady env); simpl; [|done].
        intros Hst. by apply IH in Hst.
    + destruct (writeReady env) as [m|].
      * intros _. by rewrite (rejected_pc _ _ _ _ _ _ (rejected h env p _ s)).
      * simpl. intros Hst. by apply IH in Hst.
    + intros _. destruct (writeRollback env); [done|].
      unfold rethrow, emitError. by destruct (errorListener env None).
  - intros Hstep.
    destruct (stepSec_cases h env p i s s' Hstep)
      as [(x & y & Hm)|(pending & outcome & Hi & -> & _)].
    + rewrite (move_pc _ _ _ _ _ _ _ Hm).
      destruct (move_status _ _ _ _ _ _ _ Hm) as [->| ->]; [done|done].
    + destruct (settling h env p i pending outcome s
                  (inv_shape _ _ _ _ Hinv) Hi)
        as [Hpc ->| e Hpc _ Hrej |Hpc _ -> |Hpc _ Hh He]; try done.
      * by rewrite (rejected_pc _ _ _ _ _ _ Hrej).
      * rewrite (entered_status _ _ _ _ _ He). simpl. intros Hst.
        apply IH in Hst. simpl in Hpc. by rewrite Hpc in Hst.
  - intros Hstep.
    destruct (stepLate_unobserved env i s s' Hstep)
      as (-> & _ & _ & _ & ->). done.
Qed.

Lemma reachable_draft_status (sched : list Choice) (s : State) :
  run h env p sched (init env p) = Some s →
  status s = Some StDraft → failed (pc s) = true.
Proof.
  intros Hrun.
  cut (invariant h env p s
       ∧ (status s = Some StDraft → failed (pc s) = true));
    [by intros [_ ?]|].
  revert sched s Hrun. apply run_ind.
  - split; [apply invariant_init|].
    unfold init, persist. by destruct (initStatus env).
  - intros s c s' [Hinv IH] Hstep.
    split; [by eapply invariant_step|by eapply draft_status_step].
Qed.

(** Nothing is written when no section has a write ahead of it. *)
Lemma aftermath_quiet (s s' : State) :
  aftermath s s' →
  (∀ i x, secs s !! i = Some x → writes_ahead x = false) →
  section_writes (log s') = section_writes (log s).
Proof.
  intros [_ _ _ (new & -> & Hnew)] Hnone.
  destruct new as [|a new]; [by rewrite app_nil_r|].
  apply Forall_cons in Hnew as [(d & i & c & x & _ & Hx & Hax) _].
  by rewrite (Hnone i x Hx) in Hax.
Qed.

(** The references are written after the loop only. *)
Lemma reachable_references (sched : list Choice) (s : State) :
  run h env p sched (init env p) = Some s →
  ∀ d refs, UpdateDraftReferences d refs ∈ log s → total p ≤ loop_i s.
Proof.
  revert sched s.
  apply (effect_ind h env p
           (λ s, ∀ d refs, UpdateDraftReferences d refs ∈ log s →
                           total p ≤ loop_i s)).
  - intros d refs. unfold init, persist.
    destruct (initStatus env); simpl;
      by intros [=]%list_elem_of_singleton.
  - intros s s' Hinv Hinv' IH Heff d refs.
    assert (∀ i s0 s1, Entered h p i s0 s1 →
              (∀ d refs, UpdateDraftReferences d refs ∈ log s0 →
                         total p ≤ loop_i s0) →
              loop_i s0 ≤ i →
              UpdateDraftReferences d refs ∈ log s1 →
              total p ≤ loop_i s1) as Hentered.
    { intros i s0 s1 He IH0 Hle.
      rewrite (entered_log _ _ _ _ _ He), (entered_loop _ _ _ _ _ He).
      intros [Hin|Hin]%elem_of_app.
      - apply IH0 in Hin. lia.
      - unfold loop_log in Hin. case_bool_decide as Hi; [|lia].
        exfalso. revert Hin. generalize (length (r_sections (results s0))).
        intros n Hin.
        assert (Forall (λ a, ∀ d refs, a ≠ UpdateDraftReferences d refs)
                  (start_log h p n i
                     (slice i (i + CONCURRENCY) (section_mapping p)))) as Hall
          by (apply start_log_Forall; done).
        rewrite Forall_forall in Hall. by eapply Hall. }
    destruct Heff
      as [y new Hmain Hpc Hsecs Hloop Hd Hr Hlog
         |d0 s0 Hpc Hd Hpc0 Hsecs0 Hloop0 Hd0 Hr0 Hlog0 Hst0 Hh He
         |i cfg x y new Hcfg Hx Heff Hsecs Hlog Hpc Hloop Hd Hst
         |i cfg pending s1 Hcfg Hx outcome Hpc1 Hsecs1 Hloop1 Hd1 Hr1 Hlog1
            Hst1 Hset
         |Hpc Hsecs Hloop Hd Hr Hlog Hst].
    + rewrite Hlog, Hloop. intros [Hin|Hin]%elem_of_app; [by eapply IH|].
      exfalso. destruct Hmain; simpl in Hin;
        repeat (apply elem_of_cons in Hin as [[=]|Hin]);
        by apply elem_of_nil in Hin.
    + pose proof (shape_pc _ _ _ (inv_shape _ _ _ _ Hinv)) as HP.
      rewrite Hpc in HP. destruct HP as [Hzero _].
      apply (Hentered 0 s0 s' He); [|lia].
      intros d1 refs1. rewrite Hlog0, Hloop0. apply IH.
    + rewrite Hlog, Hloop. intros [Hin|Hin]%elem_of_app; [by eapply IH|].
      exfalso. destruct Heff; simpl in Hin;
        repeat (apply elem_of_cons in Hin as [[=]|Hin]);
        by apply elem_of_nil in Hin.
    + assert (∀ d refs, UpdateDraftReferences d refs ∈ log s1 →
                        total p ≤ loop_i s1) as IH1.
      { intros d1 refs1. rewrite Hlog1, Hloop1. apply IH. }
      destruct Hset as [Hpc ->| e Hpc _ Hrej |Hpc _ -> |Hpc _ Hh He];
        try apply IH1.
      * rewrite (rejected_log _ _ _ _ _ _ Hrej),
          (rejected_loop _ _ _ _ _ _ Hrej).
        intros [Hin|Hin]%elem_of_app; [by eapply IH1|].
        by apply list_elem_of_singleton in Hin.
      * apply (Hentered _ s1 s' He IH1). lia.
    + rewrite Hlog, Hloop. apply IH.
Qed.

End AfterFailure.

(** * The claims *)

(** Finds an element in a list that is written out. *)
Ltac find_elem :=
  repeat first [apply list_elem_of_here | apply list_elem_of_further].

Section ClaimC1.




End ClaimC1.

Section ClaimC2.

(** C2, as stated, fails: the model rejects the call of the only section
    (L = 1); the run returns with status 'ready', and its 'complete'
    event reports 0 sections generated, not 1. *)
Lemma complete_event_can_report_fewer_than_L :
  ∃ s, run Ex.helpers Ex.quota Ex.one_section
         [Main; Main; Sec 0; Sec 0; Sec 0; Main; Main]
         (init Ex.quota Ex.one_section) = Some s
       ∧ pc s = Returned
       ∧ status s = Some StReady
       ∧ total Ex.one_section = 1
       ∧ Emit "P" (EvComplete "D" 0
                     [{| section := "Section 1";
                         error := "quota exceeded" |}]) ∈ log s.
Proof.
  eexists. split; [vm_compute; reflexivity|].
  repeat (split; [reflexivity|]).
  cbn [log]. find_elem.
Qed.

(** C2, amended: the 'complete' event is emitted as the run returns and
    carries the id of the draft that was created, the accumulated error
    list of the run, and as its count the number of sections recorded in
    [results.sections], that is L minus the number of sections whose
    processing raised an exception: the count and the length of the error
    list add up to L, so the count is L exactly when no section raised.
    It is the progress persisted with the status 'ready' whose
    completedSections is L in every run. *)
Theorem complete_event_counts_recorded_sections
    (h : Helpers) (env : Env) (p : Project)
    (sched : list Choice) (s : State)
    (pid d : string) (n : nat) (errs : list ErrorEntry) :
  run h env p sched (init env p) = Some s →
  Emit pid (EvComplete d n errs) ∈ log s →
  pc s = Returned
  ∧ createDraft env = inl d
  ∧ errs = r_errors (results s)
  ∧ n = length (r_sections (results s))
  ∧ n + length errs = total p
  ∧ (n = total p ↔ errs = [])
  ∧ (∀ pid' pr, UpdateProjectStatus pid' StReady (ProgressUpdate pr) ∈ log s →
                completedSections pr = total p).
Proof.
  intros Hrun Hin.
  destruct (reachable_complete_ok h env p sched s Hrun _ _ _ _ Hin)
    as (Hpc & _ & _ & Hn & Herrs).
  pose proof (reachable_invariant h env p sched s Hrun) as [_ _ Hlog].
  rewrite Forall_forall in Hlog. destruct (Hlog _ Hin) as [Hsum Hd].
  repeat split; try done.
  - intros ->. destruct errs; [done|simpl in Hsum; lia].
  - intros ->. simpl in Hsum. lia.
  - intros pid' pr Hin'. destruct (Hlog _ Hin') as (_ & _ & Hready). eauto.
Qed.

(** The amended C2 at the run in which the model rejects the call of the
    only section. *)
Lemma complete_event_counts_recorded_sections_witness :
  ∃ s, run Ex.helpers Ex.quota Ex.one_section
         [Main; Main; Sec 0; Sec 0; Sec 0; Main; Main]
         (init Ex.quota Ex.one_section) = Some s
       ∧ Emit "P" (EvComplete "D" 0
                     [{| section := "Section 1";
                         error := "quota exceeded" |}]) ∈ log s
       ∧ (pc s = Returned
          ∧ createDraft Ex.quota = inl "D"
          ∧ [{| section := "Section 1"; error := "quota exceeded" |}]
            = r_errors (results s)
          ∧ 0 = length (r_sections (results s))
          ∧ 0 + length [{| section := "Section 1";
                           error := "quota exceeded" |}]
            = total Ex.one_section
          ∧ (0 = total Ex.one_section
             ↔ [{| section := "Section 1"; error := "quota exceeded" |}]
               = [])
          ∧ (∀ pid' pr,
               UpdateProjectStatus pid' StReady (ProgressUpdate pr) ∈ log s →
               completedSections pr = total Ex.one_section)).
Proof.
  eexists. split; [vm_compute; reflexivity|].
  assert (Emit "P" (EvComplete "D" 0
                      [{| section := "Section 1";
                          error := "quota exceeded" |}])
          ∈ log (default (init Ex.quota Ex.one_section)
                   (run Ex.helpers Ex.quota Ex.one_section
                      [Main; Main; Sec 0; Sec 0; Sec 0; Main; Main]
                      (init Ex.quota Ex.one_section)))) as Hin.
  { vm_compute. find_elem. }
  vm_compute in Hin.
  split; [exact Hin|].
  eapply (complete_event_counts_recorded_sections
            Ex.helpers Ex.quota Ex.one_section
            [Main; Main; Sec 0; Sec 0; Sec 0; Main; Main]);
    [vm_compute; reflexivity|exact Hin].
Defined.

End ClaimC2.

Section ClaimC3.

(** C3, at the input on which the code breaks it: the first status update
    succeeds and draft creation fails.  [createDraft] is awaited before
    the [try] block opens, so the exception leaves
    [generateProjectContent] at once: the status stays 'generating', no
    rollback to 'draft' is issued, no 'error' event is emitted, and the
    run can do nothing more. *)
Theorem draft_creation_failure_is_not_rolled_back
    (h : Helpers) (p : Project) :
  ∃ s, run h Ex.no_draft p [Main; Main] (init Ex.no_draft p) = Some s
       ∧ pc s = Thrown (Error "insert failed")
       ∧ status s = Some StGenerating
       ∧ log s
         = [UpdateProjectStatus (projectId p) StGenerating
              (ProgressUpdate
                 {| totalSections := total p; completedSections := 0;
                    currentSection := None; errors := [] |});
            CreateDraft (projectId p)]
       ∧ ∀ c, step h Ex.no_draft p s c = None.
Proof.
  eexists. split; [reflexivity|]. repeat (split; [reflexivity|]).
  intros [|i|i]; simpl; [done| |].
  - unfold stepSec. destruct (section_mapping p !! i); [|done]. simpl.
    destruct (replicate (total p) Idle !! i) as [x|] eqn:Hx; [|done].
    by apply lookup_replicate in Hx as [-> _].
  - unfold stepLate. simpl.
    destruct (replicate (total p) Idle !! i) as [x|] eqn:Hx; [|done].
    by apply lookup_replicate in Hx as [-> _].
Qed.

End ClaimC3.

Section ClaimC4.

(** With a listener attached for 'error', a section whose model call has
    not settled when the timer fires is handled as C4 says: the error
    "Generation timed out" is recorded, the event is emitted, the
    placeholder is written, and the model call stays outstanding. *)
Lemma timeout_is_handled (h : Helpers) (env : Env) (p : Project)
    (s : State) (i : nat) (cfg : SectionConfig)
    (req : PromptRequest) (k : string → SectionResult) :
  errorListener env (Some i) = true →
  section_mapping p !! i = Some cfg →
  generation h p cfg = GenCall req k →
  settles_in_time env i = false →
  secs s !! i = Some AwaitRace →
  ∃ s', step h env p s (Sec i) = Some s'
        ∧ handled h p i cfg (Error "Generation timed out") s s'
        ∧ inflight s' = inflight s.
Proof.
  intros Hl Hcfg Hg Ht Hi. simpl. unfold stepSec. rewrite Hcfg, Hi. simpl.
  eexists. split; [reflexivity|].
  assert (race env i (generation h p cfg)
          = inr (Error "Generation timed out")) as Hrace.
  { rewrite Hg. unfold race, settles_in_time in *.
    destruct (generateContent env i); try done;
      by rewrite Ht. }
  destruct s as [? ? ? ? [? ? ?] ? ? ?]. unfold_run.
  rewrite Hrace, Ht, Hl.
  split; [|reflexivity].
  constructor; simpl; rewrite <- ?app_assoc; reflexivity.
Qed.

(** C4, at the input on which the code breaks it: the model call of the
    only section never settles and no listener is attached for 'error'
    (no client is connected to the progress stream).  The timer rejects
    the race with "Generation timed out" and the error is recorded, but
    emitting the 'error' event throws inside the catch block: the
    placeholder is never written, [processSection] rejects, and the run
    is rolled back to 'draft' and throws.  The model call is still
    outstanding. *)
Theorem timeout_without_listener_aborts_the_run :
  ∃ s, run Ex.helpers Ex.hanging Ex.one_section
         [Main; Main; Sec 0; Sec 0; Main]
         (init Ex.hanging Ex.one_section) = Some s
       ∧ r_errors (results s)
         = [{| section := "Section 1"; error := "Generation timed out" |}]
       ∧ section_writes (log s) = []
       ∧ status s = Some StDraft
       ∧ pc s = Thrown (UnhandledError None
                          "Unhandled error. (Generation timed out)" false)
       ∧ inflight s = [0].
Proof.
  eexists. split; [vm_compute; reflexivity|].
  repeat split; reflexivity.
Qed.

End ClaimC4.

Section ClaimC6.

(** C6, at the input on which the code breaks it: in multi-document mode
    the text extracted from a document reaches the prompt builder as it
    is.  For a document of 100001 characters the prompt builder is given
    source content above the ceiling of 100000 characters (the
    single-document path truncates: [single_prompt_within_ceiling]). *)
Theorem multi_document_prompt_is_not_truncated (h : Helpers) :
  ∃ req k,
    generation h Ex.huge_project (Ex.section "1" None) = GenCall req k
    ∧ ∃ src, src ∈ prompt_sources req ∧ (MAX_CONTEXT < Js.length src)%N.
Proof.
  assert (Js.length (extractSourceContent Ex.huge None) = 100001%N) as Hlen.
  { unfold Ex.huge. rewrite extract_doc_all. apply JsFacts.length_repeat. }
  destruct (multi_prompt_untruncated h (Ex.section "1" None) [Ex.huge]
              "summary" None Ex.huge) as (req & k & Hgen & Hin).
  - cbn [Ex.section sourceMapping]. unfold docsToUse.
    cbn [sourceDocuments]. rewrite bool_decide_eq_true_2 by set_solver.
    set_solver.
  - cbn [Ex.section sourceMapping sourceSections]. rewrite Hlen. done.
  - exists req, k. split; [exact Hgen|].
    eexists. split; [exact Hin|].
    cbn [Ex.section sourceMapping sourceSections]. rewrite Hlen. done.
Qed.

End ClaimC6.

Section ClaimC5.

Local Ltac div3 j :=
  pose proof (Nat.div_mod_eq j 3);
  pose proof (Nat.mod_upper_bound j 3 ltac:(lia)).

(** C5: the loop cuts the section mapping into consecutive batches of
    CONCURRENCY = 3 sections, in mapping order (glued together the
    batches are the mapping; each has three sections, but for the last,
    which has what is left).
    In every state of every run: when a section has been started, every
    section of an earlier batch has finished (so it had been started
    before); while a section has not finished, no section of a later
    batch has been started; and at most three sections are in flight. *)
Theorem batches_run_one_after_another
    (h : Helpers) (env : Env) (p : Project)
    (sched : list Choice) (s : State) :
  run h env p sched (init env p) = Some s →
  batching p s.
Proof.
  intros Hrun.
  pose proof (reachable_invariant h env p sched s Hrun) as [Hs _ _].
  destruct (shape_loop _ _ _ Hs) as [b Hb].
  unfold CONCURRENCY in *.
  constructor; unfold batches, batch_of, CONCURRENCY.
  - rewrite (slices_cover 3 (section_mapping p)) by lia.
    apply take_ge. fold (total p). div3 (total p + (3 - 1)). lia.
  - intros k l Hk. rewrite list_lookup_fmap in Hk.
    destruct (seq 0 ((total p + (3 - 1)) / 3) !! k) as [k'|] eqn:Hk';
      [|done].
    apply lookup_seq in Hk' as [-> Hlt]. simpl in Hk. simplify_eq.
    rewrite length_slice. fold (total p).
    div3 (total p + (3 - 1)). lia.
  - intros j j' x x' Hj Hj' Hx Hlt.
    eapply (shape_before _ _ _ Hs); [done|].
    destruct (decide (loop_i s + 3 ≤ j)) as [Hge|Hnge].
    { rewrite (shape_after _ _ _ Hs j x Hj Hge) in Hx. done. }
    div3 j. div3 j'. lia.
  - intros j j' x x' Hj Hj' Hx Hlt.
    eapply (shape_after _ _ _ Hs); [done|].
    destruct (decide (j < loop_i s)) as [Hlt'|Hnlt].
    { rewrite (shape_before _ _ _ Hs j x Hj Hlt') in Hx. done. }
    unfold CONCURRENCY. div3 j. div3 j'. lia.
  - apply (count_window in_flight (secs s) (loop_i s) 3).
    intros j x Hj Hx.
    destruct (in_flight_in_batch env p s j x Hs Hj Hx) as (? & ? & _).
    unfold CONCURRENCY in *. lia.
Qed.

(** C5 at a run over four sections in which the first batch is in
    flight. *)
Lemma batches_run_one_after_another_witness :
  ∃ s, run Ex.helpers Ex.calm Ex.four_sections [Main; Main; Sec 1]
         (init Ex.calm Ex.four_sections) = Some s
       ∧ batching Ex.four_sections s.
Proof.
  eexists. split; [vm_compute; reflexivity|].
  apply (batches_run_one_after_another Ex.helpers Ex.calm Ex.four_sections
           [Main; Main; Sec 1]).
  vm_compute. reflexivity.
Defined.

End ClaimC5.

Section ClaimC7.

(** C7: when the source text extracted for a section is shorter than
    fifty characters, the generation path returns the
    insufficient-content result, whose success flag is false, without
    calling the model; and in no state of any run has the model client
    been called for that section. *)
Theorem short_source_never_reaches_the_model
    (h : Helpers) (env : Env) (p : Project)
    (i : nat) (cfg : SectionConfig) :
  section_mapping p !! i = Some cfg →
  short_source p cfg →
  (∃ r, generation h p cfg = GenDone r ∧ success r = false
        ∧ (r = insufficient_single ∨ r = insufficient_multi))
  ∧ ∀ sched s, run h env p sched (init env p) = Some s →
               model_calls i (log s) = [].
Proof.
  intros Hcfg Hshort.
  assert (∃ r, generation h p cfg = GenDone r ∧ success r = false
               ∧ (r = insufficient_single ∨ r = insufficient_multi))
    as (r & Hgen & Hr).
  { unfold short_source, generation in *. destruct (mode p).
    - destruct Hshort as (d & -> & Hlen).
      rewrite (single_short_circuit h cfg d _ _ Hlen). eauto.
    - rewrite (multi_short_circuit h cfg _ _ _ Hshort). eauto. }
  split; [by exists r|].
  intros sched s Hrun.
  pose proof (reachable_invariant h env p sched s Hrun) as [_ _ Hlog].
  unfold model_calls.
  induction Hlog as [|a l Ha _ IH]; [done|].
  rewrite filter_cons_False; [done|].
  destruct a as [| | | |j prompt| |]; try done. simpl.
  case_bool_decide as Hj; [|done]. subst j.
  destruct Ha as (cfg' & req & k & Hcfg' & Hgen' & _).
  congruence.
Qed.

(** C7 at a project whose only document has ten characters of text for
    the section. *)
Lemma short_source_never_reaches_the_model_witness :
  section_mapping Ex.short_project !! 0
    = Some (Ex.section "1" (Some ["abstract"]))
  ∧ short_source Ex.short_project (Ex.section "1" (Some ["abstract"]))
  ∧ ((∃ r, generation Ex.helpers Ex.short_project
             (Ex.section "1" (Some ["abstract"])) = GenDone r
           ∧ success r = false
           ∧ (r = insufficient_single ∨ r = insufficient_multi))
     ∧ ∀ sched s,
         run Ex.helpers Ex.calm Ex.short_project sched
           (init Ex.calm Ex.short_project) = Some s →
         model_calls 0 (log s) = []).
Proof.
  assert (short_source Ex.short_project
            (Ex.section "1" (Some ["abstract"]))) as Hshort.
  { exists Ex.note. split; [reflexivity|]. vm_compute. reflexivity. }
  split; [reflexivity|]. split; [exact Hshort|].
  apply (short_source_never_reaches_the_model Ex.helpers Ex.calm
           Ex.short_project 0 (Ex.section "1" (Some ["abstract"])));
    [reflexivity|exact Hshort].
Defined.

End ClaimC7.

Section ClaimC8.

(** C8, as stated, fails: two documents cite the same paper, and the
    aggregated list holds that citation twice. *)
Lemma references_are_not_deduplicated :
  ¬ deduplicated (collectReferences (documents Ex.two_papers)).
Proof.
  unfold deduplicated. vm_compute.
  intros Hnd. apply NoDup_cons in Hnd as [Hnotin _].
  apply Hnotin. apply list_elem_of_here.
Qed.

(** C8, amended: the references persisted onto the draft after the loop
    are the references of all source documents, flattened in document
    order, none dropped and duplicates kept, each numbered by its position:
    the k-th has citation index k and id "ref_k", for k = 1, ..., N. *)
Theorem references_are_flat_and_sequential
    (h : Helpers) (env : Env) (p : Project)
    (sched : list Choice) (s : State)
    (d : string) (refs : list DraftReference) :
  run h env p sched (init env p) = Some s →
  UpdateDraftReferences d refs ∈ log s →
  refs = imap (λ k dr, makeReference (S k) dr.1 dr.2)
           (all_references (documents p))
  ∧ length refs = length (all_references (documents p))
  ∧ (∀ k r, refs !! k = Some r →
            dr_index r = S k ∧ dr_id r = "ref_" +:+ pretty (S k))
  ∧ createDraft env = inl d.
Proof.
  intros Hrun Hin.
  pose proof (reachable_invariant h env p sched s Hrun) as [_ _ Hlog].
  rewrite Forall_forall in Hlog. destruct (Hlog _ Hin) as [-> Hd].
  split; [apply collectReferences_spec|].
  split; [by rewrite collectReferences_spec, length_imap|].
  split; [|done].
  intros k r Hk.
  by destruct (collectReferences_lookup _ _ _ Hk) as (doc & ref & _ & ->).
Qed.

(** The amended C8 at a run over the two documents that cite the same
    paper. *)
Lemma references_are_flat_and_sequential_witness :
  ∃ s refs,
    run Ex.helpers Ex.calm Ex.two_papers
      [Main; Main; Sec 0; Sec 0; Sec 0]
      (init Ex.calm Ex.two_papers) = Some s
    ∧ UpdateDraftReferences "D" refs ∈ log s
    ∧ (refs = imap (λ k dr, makeReference (S k) dr.1 dr.2)
                (all_references (documents Ex.two_papers))
       ∧ length refs = length (all_references (documents Ex.two_papers))
       ∧ (∀ k r, refs !! k = Some r →
                 dr_index r = S k ∧ dr_id r = "ref_" +:+ pretty (S k))
       ∧ createDraft Ex.calm = inl "D").
Proof.
  eexists. exists (collectReferences (documents Ex.two_papers)).
  split; [vm_compute; reflexivity|].
  assert (UpdateDraftReferences "D"
            (collectReferences (documents Ex.two_papers))
          ∈ log (default (init Ex.calm Ex.two_papers)
                   (run Ex.helpers Ex.calm Ex.two_papers
                      [Main; Main; Sec 0; Sec 0; Sec 0]
                      (init Ex.calm Ex.two_papers)))) as Hin.
  { vm_compute. find_elem. }
  split.
  - vm_compute. find_elem.
  - eapply (references_are_flat_and_sequential Ex.helpers Ex.calm
              Ex.two_papers [Main; Main; Sec 0; Sec 0; Sec 0]);
      [vm_compute; reflexivity|].
    vm_compute. find_elem.
Defined.

End ClaimC8.

Section ClaimC9.

(** C9, as stated, fails after a rollback: of two sections in one batch
    the first has its draft write and then its placeholder write rejected
    by the store, so [processSection] rejects, [Promise.all] rejects at
    once and the run rolls the status back to 'draft' and throws.  The
    second section is still waiting for the model; when the answer arrives
    it writes its draft section, after the status has become 'draft' and
    the run has ended. *)
Lemma section_is_written_after_rollback :
  ∃ s1 s2,
    run Ex.helpers Ex.flaky Ex.two_sections
      [Main; Main; Sec 0; Sec 0; Sec 0; Sec 0; Main]
      (init Ex.flaky Ex.two_sections) = Some s1
    ∧ pc s1 = Thrown (Error "draft store unavailable")
    ∧ status s1 = Some StDraft
    ∧ run Ex.helpers Ex.flaky Ex.two_sections [Sec 1] s1 = Some s2
    ∧ section_writes (log s2)
      = section_writes (log s1)
        ++ [UpdateDraftSection "D" 1
              {| ds_templateSectionId := "2";
                 ds_templateSectionTitle := "Section 2";
                 ds_content := Some "Generated text.";
                 ds_sourceRefs :=
                   [{| sr_documentId := "A";
                       sr_sections := Some ["abstract"] |}];
                 ds_warnings := [] |}].
Proof.
  eexists. eexists.
  split; [vm_compute; reflexivity|].
  split; [reflexivity|]. split; [reflexivity|].
  split; [vm_compute; reflexivity|].
  vm_compute. reflexivity.
Qed.

(** C9, amended: in every run each persisted progress update has
    completedSections ≤ totalSections = L; once the status has become
    'ready' no draft section is written any more, whatever is resumed;
    and the model call that a timed-out section has left behind settles
    without any write.  Once the status has been rolled back to 'draft',
    or the run has entered its [catch] block or thrown, the run stays
    failed, no section is started any more, and a draft section is only
    written by a section that was waiting for the model or for its
    content write at that moment, so nothing is written when there is no
    such section; such a section belongs to the batch at which the loop
    stands.  And once the write of the references has been issued
    no draft section is written any more, whether the run goes on to
    'ready' or rolls back because the store rejects that write or the
    'ready' update. *)
Theorem progress_is_bounded_and_ready_is_final
    (h : Helpers) (env : Env) (p : Project)
    (sched : list Choice) (s : State) :
  run h env p sched (init env p) = Some s →
  (∀ pid st pr, UpdateProjectStatus pid st (ProgressUpdate pr) ∈ log s →
     completedSections pr ≤ totalSections pr ∧ totalSections pr = total p)
  ∧ (status s = Some StReady →
     ∀ sched' s', run h env p sched' s = Some s' →
       section_writes (log s') = section_writes (log s))
  ∧ (∀ i s', step h env p s (Late i) = Some s' → log s' = log s)
  ∧ (status s = Some StDraft ∨ failed (pc s) = true →
     ∀ sched' s', run h env p sched' s = Some s' →
       failed (pc s') = true
       ∧ (∀ i, secs s !! i = Some Idle → secs s' !! i = Some Idle)
       ∧ (∃ new, section_writes (log s') = section_writes (log s) ++ new
                 ∧ Forall (write_of_pending s) new)
       ∧ ((∀ i x, secs s !! i = Some x → writes_ahead x = false) →
          section_writes (log s') = section_writes (log s)))
  ∧ (∀ i x, secs s !! i = Some x → writes_ahead x = true →
            loop_i s ≤ i < loop_i s + CONCURRENCY)
  ∧ ((∃ d refs, UpdateDraftReferences d refs ∈ log s) →
     ∀ sched' s', run h env p sched' s = Some s' →
       section_writes (log s') = section_writes (log s)).
Proof.
  intros Hrun.
  pose proof (reachable_invariant h env p sched s Hrun) as Hinv.
  split; [|split; [|split; [|split; [|split]]]].
  - intros pid st pr Hin.
    pose proof (inv_log _ _ _ _ Hinv) as Hlog.
    rewrite Forall_forall in Hlog. destruct (Hlog _ Hin) as (? & ? & _).
    done.
  - intros Hready sched' s' Hrun'.
    apply (after_loop_run h env p sched' s s' Hinv); [|done].
    by apply (shape_status _ _ _ (inv_shape _ _ _ _ Hinv)).
  - intros i s' Hstep. by apply (stepLate_unobserved env i s s').
  - intros Hfailed sched' s' Hrun'.
    assert (failed (pc s) = true) as Hf.
    { destruct Hfailed as [Hst|Hf]; [|done].
      by apply (reachable_draft_status h env p sched s Hrun). }
    pose proof (aftermath_run h env p sched' s s' Hinv Hf Hrun') as Ha.
    split; [apply Ha|]. split; [apply Ha|]. split; [apply Ha|].
    by apply aftermath_quiet.
  - intros i x Hx Hax.
    pose proof (inv_shape _ _ _ _ Hinv) as Hs.
    destruct (decide (i < loop_i s)) as [Hlt|Hge].
    { rewrite (shape_before _ _ _ Hs i x Hx Hlt) in Hax. done. }
    destruct (decide (loop_i s + CONCURRENCY ≤ i)) as [Hle|Hgt].
    { rewrite (shape_after _ _ _ Hs i x Hx Hle) in Hax. done. }
    lia.
  - intros (d & refs & Hin) sched' s' Hrun'.
    apply (after_loop_run h env p sched' s s' Hinv); [|done].
    by apply (reachable_references h env p sched s Hrun d refs).
Qed.

(** The amended C9 at a run that has returned with status 'ready' while
    the model call of its only section, which timed out, settles
    afterwards. *)
Lemma progress_is_bounded_and_ready_is_final_witness :
  ∃ s, run Ex.helpers Ex.slow
         Ex.one_section [Main; Main; Sec 0; Sec 0; Sec 0; Main; Main]
         (init Ex.slow
            Ex.one_section) = Some s
       ∧ status s = Some StReady
       ∧ (∃ s', step Ex.helpers
                  Ex.slow
                  Ex.one_section s (Late 0) = Some s')
       ∧ ((∀ pid st pr,
             UpdateProjectStatus pid st (ProgressUpdate pr) ∈ log s →
             completedSections pr ≤ totalSections pr
             ∧ totalSections pr = total Ex.one_section)
          ∧ (status s = Some StReady →
             ∀ sched' s',
               run Ex.helpers
                 Ex.slow
                 Ex.one_section sched' s = Some s' →
               section_writes (log s') = section_writes (log s))
          ∧ (∀ i s',
               step Ex.helpers
                 Ex.slow
                 Ex.one_section s (Late i) = Some s' →
               log s' = log s)).
Proof.
  eexists. split; [vm_compute; reflexivity|].
  split; [reflexivity|].
  split; [eexists; vm_compute; reflexivity|].
  match goal with
  | |- (∀ pid st pr, _ ∈ log ?s → _) ∧ _ =>
      destruct (progress_is_bounded_and_ready_is_final Ex.helpers Ex.slow
                  Ex.one_section
                  [Main; Main; Sec 0; Sec 0; Sec 0; Main; Main] s
                  ltac:(vm_compute; reflexivity))
        as (H1 & H2 & H3 & _)
  end.
  split; [exact H1|]. split; [exact H2|exact H3].
Defined.

End ClaimC9.

Section ClaimC10.

(** C10: for a non-empty list of section keys none of which names an
    extracted section with text, [extractSourceContent] returns the full
    text of the document, or the empty string when there is none, as it
    does when no key is configured; in single-document mode the section
    is then generated from that text (truncated to the ceiling) whenever
    it has fifty characters after trimming, instead of being
    short-circuited. *)
Theorem extractSourceContent_falls_back_to_full_text
    (document : Document) (keys : list string) :
  keys ≠ [] →
  (∀ key sec, key ∈ keys → doc_sections document !! key = Some sec →
              text sec = None ∨ text sec = Some "") →
  let full := default "" (extracted_content document ≫= fullText) in
  extractSourceContent document (Some keys) = full
  ∧ extractSourceContent document (Some keys)
    = extractSourceContent document None
  ∧ ∀ h cfg purpose gi,
      sourceSections (sourceMapping cfg) = Some keys →
      (MIN_CONTENT ≤ Js.length (Js.trim full))%N →
      ∃ k, generateSingleDocSection h cfg document purpose gi
           = GenCall
               (SectionRewrite
                  {| rw_sectionTitle := templateSectionTitle cfg;
                     rw_sourceContent := (truncateForContext full MAX_CONTEXT).1;
                     rw_instructions := instructions cfg;
                     rw_globalInstructions := gi;
                     rw_targetLength := targetLength cfg;
                     rw_purpose := purpose;
                     rw_documentMetadata := metadata document |}) k.
Proof.
  intros Hne Hnone full.
  assert (extractSourceContent document (Some keys) = full) as Hfull.
  { rewrite extract_no_match.
    - unfold doc_fullText. apply JsFacts.or_else_empty.
    - intros key Hkey. apply section_text_None. eauto. }
  split; [done|]. split.
  - rewrite Hfull. unfold extractSourceContent, doc_fullText.
    by rewrite JsFacts.or_else_empty.
  - intros h cfg purpose gi Hkeys Hlen.
    pose proof (single_prompt h cfg document purpose gi) as Hp.
    rewrite Hkeys, Hfull in Hp. apply Hp; [|done].
    intros Heq. rewrite Heq in Hlen. vm_compute in Hlen. by apply Hlen.
Qed.

(** C10 at a document with an abstract only, asked for its methods. *)
Lemma extractSourceContent_falls_back_to_full_text_witness :
  ["methods"] ≠ []
  ∧ (∀ key sec, key ∈ ["methods"] →
                doc_sections Ex.paperA !! key = Some sec →
                text sec = None ∨ text sec = Some "")
  ∧ extractSourceContent Ex.paperA (Some ["methods"]) = Ex.sixty.
Proof.
  assert (∀ key sec, key ∈ ["methods"] →
                     doc_sections Ex.paperA !! key = Some sec →
                     text sec = None ∨ text sec = Some "") as Hnone.
  { intros key sec ->%list_elem_of_singleton Hsec.
    vm_compute in Hsec. discriminate. }
  split; [done|]. split; [exact Hnone|].
  apply (extractSourceContent_falls_back_to_full_text Ex.paperA ["methods"]);
    [done|exact Hnone].
Defined.

End ClaimC10.

(** * More properties of the service *)

Section MoreExtractFacts.

Lemma omap_filter_is_Some {A B} (f : A → option B) (l : list A) :
  omap f (filter (λ x, is_Some (f x)) l) = omap f l.
Proof.
  induction l as [|x l IH]; [done|].
  rewrite filter_cons. destruct (f x) as [y|] eqn:Hfx.
  - rewrite decide_True by eauto. csimpl. by rewrite Hfx, IH.
  - rewrite decide_False by (by intros [? ?]). csimpl. by rewrite Hfx.
Qed.

Lemma extract_matching (document : Document) (keys : list string) :
  omap (section_text document) keys ≠ [] →
  extractSourceContent document (Some keys)
    = Js.join (Js.LF +:+ Js.LF) (omap (section_text document) keys).
Proof.
  intros Hne. unfold extractSourceContent.
  destruct keys as [|k keys]; [done|].
  rewrite bool_decide_eq_false_2; [done|].
  by destruct (omap _ _).
Qed.

Lemma omap_has_text (document : Document) (keys : list string) :
  (∃ key, key ∈ keys ∧ has_text document key) →
  omap (section_text document) keys ≠ [].
Proof.
  intros (key & Hin & [t Ht]) Hnil.
  assert (t ∈ omap (section_text document) keys) as Hin'.
  { apply list_elem_of_omap. eauto. }
  rewrite Hnil in Hin'. by apply elem_of_nil in Hin'.
Qed.

Lemma append_assoc (s1 s2 s3 : string) :
  (s1 +:+ s2) +:+ s3 = s1 +:+ s2 +:+ s3.
Proof.
  induction s1 as [|c s1 IH]; [done|].
  change (String c ((s1 +:+ s2) +:+ s3) = String c (s1 +:+ s2 +:+ s3)).
  by rewrite IH.
Qed.

Lemma append_nil_r (s : string) : s +:+ "" = s.
Proof.
  induction s as [|c s IH]; [done|].
  change (String c (s +:+ "") = String c s). by rewrite IH.
Qed.

Lemma length_append (s1 s2 : string) :
  String.length (s1 +:+ s2) = String.length s1 + String.length s2.
Proof.
  induction s1 as [|c s1 IH]; [done|].
  change (S (String.length (s1 +:+ s2))
          = S (String.length s1 + String.length s2)).
  by rewrite IH.
Qed.

Lemma join_app (sep : string) (l1 l2 : list string) :
  l1 ≠ [] → l2 ≠ [] →
  Js.join sep (l1 ++ l2) = Js.join sep l1 +:+ sep +:+ Js.join sep l2.
Proof.
  intros H1 H2. induction l1 as [|x l1 IH]; [done|].
  destruct l1 as [|y l1].
  - simpl. by destruct l2.
  - change (Js.join sep ((x :: y :: l1) ++ l2))
      with (x +:+ sep +:+ Js.join sep ((y :: l1) ++ l2)).
    rewrite IH by done.
    change (Js.join sep (x :: y :: l1))
      with (x +:+ sep +:+ Js.join sep (y :: l1)).
    by rewrite !append_assoc.
Qed.

End MoreExtractFacts.

Section ExtraExtract.

(** X1: section keys that name no extracted section with text are
    skipped: leaving them out of the list does not change what
    [extractSourceContent] returns. *)
Theorem extractSourceContent_skips_unmatched_keys
    (document : Document) (keys : list string) :
  extractSourceContent document (Some keys)
  = extractSourceContent document
      (Some (filter (has_text document) keys)).
Proof.
  pose proof (omap_filter_is_Some (section_text document) keys) as Hf.
  fold (has_text document) in Hf.
  destruct (decide (omap (section_text document) keys = [])) as [Hnil|Hne].
  - rewrite (extract_no_match document keys).
    + rewrite extract_no_match; [done|].
      intros key Hkey. destruct (section_text document key) eqn:Ht; [|done].
      assert (s ∈ omap (section_text document) (filter (has_text document) keys))
        as Hin by (apply list_elem_of_omap; eauto).
      rewrite Hf, Hnil in Hin. by apply elem_of_nil in Hin.
    + intros key Hkey. destruct (section_text document key) eqn:Ht; [|done].
      assert (s ∈ omap (section_text document) keys)
        as Hin by (apply list_elem_of_omap; eauto).
      rewrite Hnil in Hin. by apply elem_of_nil in Hin.
  - rewrite !extract_matching; rewrite ?Hf; done.
Qed.

(** X2: when two lists of keys both name a section with text, the text
    extracted for the two lists one after the other is the text of the
    first, a blank line, and the text of the second. *)
Theorem extractSourceContent_joins_in_key_order
    (document : Document) (keys1 keys2 : list string) :
  (∃ key, key ∈ keys1 ∧ has_text document key) →
  (∃ key, key ∈ keys2 ∧ has_text document key) →
  extractSourceContent document (Some (keys1 ++ keys2))
  = extractSourceContent document (Some keys1)
    +:+ Js.LF +:+ Js.LF
    +:+ extractSourceContent document (Some keys2).
Proof.
  intros H1%omap_has_text H2%omap_has_text.
  rewrite !extract_matching; rewrite ?omap_app; try done.
  - rewrite join_app by done. by rewrite !append_assoc.
  - intros [? _]%app_eq_nil. done.
Qed.

Lemma extractSourceContent_joins_in_key_order_witness :
  extractSourceContent Sample.paper (Some (["methods"; "results"] ++ ["abstract"]))
  = "We count them." +:+ Js.LF +:+ Js.LF +:+ "We study widgets.".
Proof.
  rewrite (extractSourceContent_joins_in_key_order Sample.paper
             ["methods"; "results"] ["abstract"]).
  - reflexivity.
  - exists "methods". split; [set_solver|]. vm_compute. eauto.
  - exists "abstract". split; [set_solver|]. vm_compute. eauto.
Defined.

End ExtraExtract.

Section MorePathFacts.

Lemma trimStart_blank (s : string) : blank s = true → Js.trimStart s = "".
Proof.
  induction s as [|c s IH]; [done|]. simpl.
  intros [Hc Hs]%andb_prop. rewrite Hc. by apply IH.
Qed.

Lemma trim_blank (s : string) : blank s = true → Js.trim s = "".
Proof.
  intros Hs. unfold Js.trim, Js.trimEnd.
  rewrite (trimStart_blank s Hs). reflexivity.
Qed.

Lemma blank_repeat_space (n : N) :
  blank (Js.repeat (Ascii.ascii_of_nat 32) n) = true.
Proof.
  unfold Js.repeat. induction n as [|n IH] using N.peano_ind; [done|].
  rewrite N.iter_succ. simpl. by rewrite IH.
Qed.

Lemma docContents_none (sm : SourceMapping) (docs : list Document) :
  (∀ d, d ∈ docsToUse sm docs →
     (Js.length (extractSourceContent d (sourceSections sm)) ≤ MIN_CONTENT)%N) →
  docContents sm docs = [].
Proof.
  unfold docContents. generalize (docsToUse sm docs) as l.
  induction l as [|d l IH]; intros Hl; [done|].
  rewrite fmap_cons, filter_cons_False.
  - apply IH. intros d' Hd'. apply Hl. set_solver.
  - simpl. specialize (Hl d ltac:(set_solver)). lia.
Qed.

Lemma docsToUse_subseteq (sm : SourceMapping) (docs : list Document) :
  docsToUse sm docs ⊆ docs.
Proof.
  unfold docsToUse. case_bool_decide; [done|].
  intros d Hd. by apply list_elem_of_filter in Hd as [_ ?].
Qed.

End MorePathFacts.

Section ExtraPaths.

(** X3: in single-document mode a source text that consists of white
    space only, however long, never reaches the model: the section gets
    the insufficient-content result. *)
Theorem blank_source_is_insufficient
    (h : Helpers) (cfg : SectionConfig) (document : Document)
    (purpose : string) (gi : option string) :
  blank (extractSourceContent document
           (sourceSections (sourceMapping cfg))) = true →
  generateSingleDocSection h cfg document purpose gi
    = GenDone insufficient_single.
Proof.
  intros Hb. unfold generateSingleDocSection.
  rewrite (trim_blank _ Hb).
  rewrite orb_true_intro; [done|]. right. by apply bool_decide_eq_true.
Qed.

Lemma blank_source_is_insufficient_witness :
  (MIN_CONTENT < Js.length (extractSourceContent Sample.empty_page None))%N
  ∧ generateSingleDocSection Ex.helpers (Ex.section "1" None)
      Sample.empty_page "summary" None
    = GenDone insufficient_single.
Proof.
  assert (extractSourceContent Sample.empty_page None = Sample.spaces) as Hsrc
    by apply extract_doc_all.
  split.
  - rewrite Hsrc. unfold Sample.spaces. rewrite JsFacts.length_repeat. done.
  - apply (blank_source_is_insufficient Ex.helpers (Ex.section "1" None)
             Sample.empty_page).
    cbn [Ex.section sourceMapping sourceSections]. rewrite Hsrc.
    apply blank_repeat_space.
Defined.

(** X4: the two paths draw the line differently.  A source text of
    exactly fifty characters (none of them surrounding white space) is
    enough for the single-document path, which calls the model, and not
    enough for the multi-document path, which asks for more than fifty
    and returns its insufficient-content result. *)
Theorem fifty_characters_pass_single_but_not_multi
    (h : Helpers) (cfg : SectionConfig) (d : Document)
    (purpose : string) (gi : option string) :
  let src := extractSourceContent d (sourceSections (sourceMapping cfg)) in
  (MIN_CONTENT ≤ Js.length (Js.trim src))%N →
  (Js.length src ≤ MIN_CONTENT)%N →
  (∃ req k, generateSingleDocSection h cfg d purpose gi = GenCall req k)
  ∧ generateMultiDocSection h cfg [d] purpose gi = GenDone insufficient_multi.
Proof.
  intros src Htrim Hlen. split.
  - destruct (single_prompt h cfg d purpose gi) as [k Hk]; [|done|eauto].
    fold src. intros Heq. rewrite Heq in Htrim. vm_compute in Htrim.
    by apply Htrim.
  - unfold generateMultiDocSection. rewrite docContents_none; [done|].
    intros d' Hd'%docsToUse_subseteq. apply list_elem_of_singleton in Hd'.
    by subst.
Qed.

Lemma fifty_characters_pass_single_but_not_multi_witness :
  Js.length (extractSourceContent Sample.brief None) = 50%N
  ∧ (∃ req k, generateSingleDocSection Ex.helpers (Ex.section "1" None)
                Sample.brief "summary" None = GenCall req k)
  ∧ generateMultiDocSection Ex.helpers (Ex.section "1" None)
      [Sample.brief] "summary" None
    = GenDone insufficient_multi.
Proof.
  split; [vm_compute; reflexivity|].
  apply (fifty_characters_pass_single_but_not_multi Ex.helpers
           (Ex.section "1" None) Sample.brief "summary" None);
    vm_compute; discriminate.
Defined.

(** X6: in multi-document mode the section's source references name every
    selected document, in the project's order, also the documents that
    were left out of the prompt because their text was too short; the
    prompt holds at least one document and no more than were selected. *)
Theorem multi_source_refs_name_every_selected_document
    (h : Helpers) (cfg : SectionConfig) (docs : list Document)
    (purpose : string) (gi : option string)
    (req : PromptRequest) (k : string → SectionResult) :
  generateMultiDocSection h cfg docs purpose gi = GenCall req k →
  0 < length (prompt_sources req)
  ∧ length (prompt_sources req)
    ≤ length (docsToUse (sourceMapping cfg) docs)
  ∧ ∀ response,
      sourceRefs (k response)
      = source_ref (sourceMapping cfg)
          <$> docsToUse (sourceMapping cfg) docs.
Proof.
  unfold generateMultiDocSection.
  assert (length (docContents (sourceMapping cfg) docs)
          ≤ length (docsToUse (sourceMapping cfg) docs)) as Hle.
  { unfold docContents.
    etrans; [apply length_filter|]. by rewrite length_fmap. }
  case_bool_decide as Hn; [done|].
  case_bool_decide; intros [= <- <-]; simpl; rewrite length_fmap;
    (split; [lia|]); done.
Qed.

Lemma multi_source_refs_name_every_selected_document_witness :
  ∃ req k,
    generateMultiDocSection Ex.helpers
      (Sample.section_of ["B"; "N"; "A"; "B"])
      (documents Sample.comparison) "comparative" None = GenCall req k
    ∧ prompt_sources req = [Ex.sixty; Ex.sixty]
    ∧ ∀ response,
        sr_documentId <$> sourceRefs (k response) = ["A"; "N"; "B"].
Proof.
  eexists _, _. split; [reflexivity|]. split; [reflexivity|].
  intros response.
  rewrite (proj2 (proj2
    (multi_source_refs_name_every_selected_document Ex.helpers
       (Sample.section_of ["B"; "N"; "A"; "B"])
       (documents Sample.comparison) "comparative" None _ _ eq_refl))).
  reflexivity.
Defined.

(** X7: which documents a section draws on depends only on the set of ids
    it lists: neither their order nor repetitions matter, the documents
    come in the project's order, each at most as often as the project has
    it, and 'all' anywhere in the list selects every document. *)
Theorem docsToUse_depends_on_the_set_of_ids
    (sm sm' : SourceMapping) (docs : list Document) :
  (∀ id, id ∈ sourceDocuments sm ↔ id ∈ sourceDocuments sm') →
  docsToUse sm docs = docsToUse sm' docs
  ∧ docsToUse sm docs `sublist_of` docs
  ∧ ("all" ∈ sourceDocuments sm → docsToUse sm docs = docs).
Proof.
  intros Hset. unfold docsToUse. split; [|split].
  - rewrite (bool_decide_ext _ _ (Hset "all")). case_bool_decide; [done|].
    apply list_filter_iff. intros d. apply Hset.
  - case_bool_decide; [done|]. apply sublist_filter.
  - intros Hall. by rewrite bool_decide_eq_true_2.
Qed.

Lemma docsToUse_depends_on_the_set_of_ids_witness :
  docsToUse {| sourceSections := None; sourceDocuments := ["B"; "A"; "B"] |}
    [Ex.paperA; Ex.note; Ex.paperB]
  = [Ex.paperA; Ex.paperB].
Proof.
  assert (∀ id : string, id ∈ ["B"; "A"; "B"] ↔ id ∈ ["A"; "B"]) as Hset.
  { intros id. rewrite !elem_of_cons, !elem_of_nil. tauto. }
  rewrite (proj1 (docsToUse_depends_on_the_set_of_ids
                    {| sourceSections := None;
                       sourceDocuments := ["B"; "A"; "B"] |}
                    {| sourceSections := None;
                       sourceDocuments := ["A"; "B"] |}
                    [Ex.paperA; Ex.note; Ex.paperB] Hset)).
  vm_compute. reflexivity.
Defined.

End ExtraPaths.

Section MoreReferenceFacts.

Lemma truthy_absent (x : option string) : absent x → Js.truthy x = None.
Proof. by intros [-> | ->]. Qed.

Lemma or_else_absent (x : option string) (d : string) :
  absent x → Js.or_else x d = d.
Proof. intros Hx. unfold Js.or_else. by rewrite truthy_absent. Qed.

Lemma or_else_present (t d : string) : t ≠ "" → Js.or_else (Some t) d = t.
Proof. intros Ht. unfold Js.or_else, Js.truthy. by rewrite decide_False. Qed.

Lemma or_else_nonempty (x : option string) (d : string) :
  d ≠ "" → Js.or_else x d ≠ "".
Proof.
  intros Hd. unfold Js.or_else, Js.truthy.
  destruct x as [t|]; [|done]. by case_decide.
Qed.

Lemma append_nonempty (s1 s2 : string) : s1 ≠ "" → s1 +:+ s2 ≠ "".
Proof. by destruct s1. Qed.

Lemma formatReference_nonempty (ref : Reference) : formatReference ref ≠ "".
Proof.
  unfold formatReference. apply append_nonempty. by apply or_else_nonempty.
Qed.

Lemma all_references_app (docs1 docs2 : list Document) :
  all_references (docs1 ++ docs2)
    = all_references docs1 ++ all_references docs2.
Proof. unfold all_references. apply bind_app. Qed.

Lemma elem_of_all_references (docs : list Document) (d : Document)
    (ref : Reference) :
  (d, ref) ∈ all_references docs →
  d ∈ docs ∧ ref ∈ default [] (references d).
Proof.
  unfold all_references. intros (d' & Hin & Hd')%list_elem_of_bind.
  apply list_elem_of_fmap in Hin as (ref' & [= -> ->] & Href). done.
Qed.

End MoreReferenceFacts.

Section ExtraReferences.

(** X8: every aggregated reference names the document it comes from and
    carries a citation text that is never empty: the raw text of the
    reference when it has one, and otherwise the citation formatted from
    its fields, which for a reference without authors, year, title and
    journal is "Unknown (n.d.). Untitled.". *)
Theorem aggregated_references_carry_a_citation
    (docs : list Document) (r : DraftReference) :
  r ∈ collectReferences docs →
  dr_formatted r ≠ ""
  ∧ ∃ d ref,
      d ∈ docs ∧ ref ∈ default [] (references d)
      ∧ dr_sourceDocumentId r = doc_id d
      ∧ dr_sourceRefId r = ref_id ref
      ∧ (∀ t, rawText ref = Some t → t ≠ "" → dr_formatted r = t)
      ∧ (absent (rawText ref) → dr_formatted r = formatReference ref)
      ∧ (absent (rawText ref) →
         absent (Js.join ", " <$> ref_authors ref) →
         absent (ref_year ref) → absent (ref_title ref) →
         absent (ref_journal ref) →
         dr_formatted r = "Unknown (n.d.). Untitled.").
Proof.
  intros [k Hk]%list_elem_of_lookup.
  apply collectReferences_lookup in Hk as (d & ref & Hk & ->).
  apply list_elem_of_lookup_2, elem_of_all_references in Hk as [Hd Href].
  split.
  - simpl. unfold Js.or_else, Js.truthy.
    destruct (rawText ref) as [t|]; [case_decide|];
      simpl; auto using formatReference_nonempty.
  - exists d, ref. repeat split; try done; simpl.
    + intros t -> Ht. by apply or_else_present.
    + intros Hraw. by apply or_else_absent.
    + intros Hraw Ha Hy Ht Hj. rewrite or_else_absent by done.
      unfold formatReference.
      by rewrite !or_else_absent, (truthy_absent _ Hj) by done.
Qed.

Lemma aggregated_references_carry_a_citation_witness :
  ∃ r1 r2,
    collectReferences [Ex.doc "A" Ex.sixty [Sample.bare; Sample.raw]]
      = [r1; r2]
    ∧ dr_formatted r1 = "Unknown (n.d.). Untitled."
    ∧ dr_formatted r2 = "[2] Jones, K. Gadgets. 2019."
    ∧ dr_formatted r1 ≠ "".
Proof.
  eexists _, _. split; [reflexivity|].
  split; [reflexivity|]. split; [reflexivity|].
  refine (proj1 (aggregated_references_carry_a_citation
                   [Ex.doc "A" Ex.sixty [Sample.bare; Sample.raw]] _ _)).
  apply list_elem_of_here.
Defined.

(** X9: a document that has no reference list, or an empty one,
    contributes nothing to the aggregated references and does not disturb
    the numbering of the others. *)
Theorem documents_without_references_contribute_nothing
    (docs1 docs2 : list Document) (d : Document) :
  default [] (references d) = [] →
  collectReferences (docs1 ++ d :: docs2) = collectReferences (docs1 ++ docs2).
Proof.
  intros Hd. rewrite !collectReferences_spec.
  rewrite (all_references_app docs1 (d :: docs2)), all_references_app.
  unfold all_references at 2. simpl. rewrite Hd. simpl.
  by fold (all_references docs2).
Qed.

Lemma documents_without_references_contribute_nothing_witness :
  collectReferences ([Ex.paperA] ++ Sample.paper :: [Ex.paperB])
  = collectReferences [Ex.paperA; Ex.paperB].
Proof.
  by apply (documents_without_references_contribute_nothing
              [Ex.paperA] [Ex.paperB] Sample.paper).
Defined.

End ExtraReferences.

(** * The history of a section *)

Section HistoryFacts.

Context (h : Helpers) (env : Env) (p : Project).

Lemma history_app (i : nat) (l1 l2 : list Action) :
  history i (l1 ++ l2) = history i l1 ++ history i l2.
Proof. apply filter_app. Qed.

Lemma history_none (i : nat) (l : list Action) :
  Forall (λ a, owned i a = false) l → history i l = [].
Proof. apply filter_none. Qed.

Lemma history_start_actions (j done i : nat) (cfg : SectionConfig) :
  history j (start_actions h p done i cfg)
    = if bool_decide (i = j) then begun h p j cfg else [].
Proof.
  unfold start_actions, begun, history.
  case_bool_decide as Hij.
  - subst j. rewrite !filter_app. simpl.
    rewrite filter_cons_False by done.
    rewrite filter_cons_True by (simpl; by rewrite bool_decide_eq_true_2).
    simpl. f_equal.
    destruct (generation h p cfg); try done.
    rewrite filter_cons_True by (simpl; by rewrite bool_decide_eq_true_2).
    done.
  - apply filter_none. apply Forall_app. split.
    + repeat apply Forall_cons_2; try done.
      simpl. by rewrite bool_decide_eq_false_2.
    + destruct (generation h p cfg); repeat apply Forall_cons_2; try done.
      simpl. by rewrite bool_decide_eq_false_2.
Qed.

Lemma history_start_log (j done : nat) (batch : list SectionConfig) (i : nat) :
  history j (start_log h p done i batch)
    = if bool_decide (i ≤ j)
      then from_option (begun h p j) [] (batch !! (j - i))
      else [].
Proof.
  revert i. induction batch as [|cfg rest IH]; intros i.
  - simpl. case_bool_decide; done.
  - cbn [start_log]. rewrite history_app, history_start_actions, IH.
    destruct (decide (i = j)) as [->|Hne].
    + rewrite bool_decide_eq_true_2 by done.
      rewrite bool_decide_eq_false_2 by lia.
      rewrite bool_decide_eq_true_2 by lia.
      rewrite Nat.sub_diag. simpl. by rewrite app_nil_r.
    + rewrite bool_decide_eq_false_2 by done. simpl.
      destruct (decide (i ≤ j)) as [Hle|Hgt].
      * rewrite !bool_decide_eq_true_2 by lia.
        by replace (j - i) with (S (j - S i)) by lia.
      * by rewrite !bool_decide_eq_false_2 by lia.
Qed.

(** What entering the loop adds to the history of section [j]. *)
Lemma history_loop_log (j i : nat) (s : State) (cfg : SectionConfig) :
  section_mapping p !! j = Some cfg →
  history j (loop_log h p i s)
    = if bool_decide (i ≤ j ∧ j < i + CONCURRENCY ∧ j < total p)
      then begun h p j cfg else [].
Proof.
  intros Hcfg. unfold loop_log.
  pose proof (lookup_lt_Some _ _ _ Hcfg) as Hj. fold (total p) in Hj.
  case_bool_decide as Hi.
  - rewrite history_start_log.
    case_bool_decide as Hle.
    + rewrite lookup_slice.
      case_bool_decide as Hlt.
      * replace (i + (j - i)) with j by lia. rewrite Hcfg. simpl.
        by rewrite bool_decide_eq_true_2 by lia.
      * simpl. by rewrite bool_decide_eq_false_2 by lia.
    + by rewrite bool_decide_eq_false_2 by lia.
  - rewrite bool_decide_eq_false_2 by lia. done.
Qed.

Lemma history_section_effect (j i : nat) (cfg : SectionConfig) (s : State)
    (x y : SectionPc) (new : list Action) (r : Results) :
  SecEffect h env p i cfg s x y new r → j ≠ i → history j new = [].
Proof.
  intros Heff Hne. apply history_none.
  destruct Heff; repeat apply Forall_cons_2; try done;
    simpl; by rewrite bool_decide_eq_false_2.
Qed.

Lemma history_main_effect (j : nat) (s : State) (x y : MainPc)
    (new : list Action) :
  MainEffect h env p s x y new → history j new = [].
Proof. destruct 1; done. Qed.

Lemma histories_entered (i : nat) (s s' : State) :
  loop_head env p i s → histories h env p s → Entered h p i s s' →
  histories h env p s'.
Proof.
  intros Hh Hhist He j cfg x Hcfg Hx.
  rewrite (entered_draft _ _ _ _ _ He), (entered_log _ _ _ _ _ He),
    history_app, (history_loop_log j i s cfg Hcfg).
  pose proof (lookup_lt_Some _ _ _ Hcfg) as Hj. fold (total p) in Hj.
  destruct (entered_secs _ _ _ _ _ He) as [(Hi & _ & Hsecs)|(Hi & _ & Hsecs)].
  - rewrite Hsecs in Hx. case_bool_decide as Hin.
    + simplify_eq.
      destruct (lookup_lt_is_Some_2 (secs s) j) as [x0 Hx0].
      { by rewrite (head_length _ _ _ _ Hh). }
      pose proof (head_after _ _ _ _ Hh j x0 Hx0 ltac:(lia)) as ->.
      by rewrite (Hhist j cfg Idle Hcfg Hx0).
    + rewrite app_nil_r. by apply Hhist.
  - rewrite Hsecs in Hx. rewrite bool_decide_eq_false_2 by lia.
    rewrite app_nil_r. by apply Hhist.
Qed.

(** The histories of the sections in every state of a run. *)
Lemma reachable_histories (sched : list Choice) (s : State) :
  run h env p sched (init env p) = Some s → histories h env p s.
Proof.
  revert sched s. apply effect_ind.
  - intros i cfg x Hcfg Hx.
    assert (x = Idle) as ->.
    { unfold init, persist in Hx.
      destruct (initStatus env); simpl in Hx;
        by apply lookup_replicate in Hx as [-> _]. }
    unfold init, persist. by destruct (initStatus env).
  - intros s s' Hinv Hinv' IH Heff.
    destruct Heff
      as [y new Hmain Hpc Hsecs Hloop Hd Hr Hlog
         |d s0 Hpc Hd Hpc0 Hsecs0 Hloop0 Hd0 Hr0 Hlog0 Hst0 Hh He
         |i cfg x y new Hcfg Hx Heff Hsecs Hlog Hpc Hloop Hd Hst
         |i cfg pending s1 Hcfg Hx outcome Hpc1 Hsecs1 Hloop1 Hd1 Hr1 Hlog1
            Hst1 Hset
         |Hpc Hsecs Hloop Hd Hr Hlog Hst].
    + intros j cfg x Hcfg Hx.
      rewrite Hd, Hlog, history_app, (history_main_effect j _ _ _ _ Hmain),
        app_nil_r.
      apply IH; [done|]. by rewrite <- Hsecs.
    + eapply histories_entered; [exact Hh| |exact He].
      intros j cfg x Hcfg Hx.
      pose proof (head_after _ _ _ _ Hh j x Hx ltac:(lia)) as ->.
      rewrite Hlog0. rewrite Hsecs0 in Hx.
      exact (IH j cfg Idle Hcfg Hx).
    + intros j cfg' x' Hcfg' Hx'.
      rewrite Hd, Hlog, history_app. rewrite Hsecs in Hx'.
      destruct (decide (j = i)) as [->|Hne].
      * rewrite list_lookup_insert_eq in Hx'
          by (by eapply lookup_lt_Some).
        simplify_eq.
        pose proof (IH i cfg x Hcfg Hx) as Ht.
        assert (∀ a, owned i a = true → history i [a] = [a]) as Hown.
        { intros a Ha. unfold history. by rewrite filter_cons_True. }
        assert (∀ r, owned i (content_write (draftId s) i cfg r) = true)
          as Hcw by (intros; simpl; by rewrite bool_decide_eq_true_2).
        assert (∀ m, owned i (placeholder_write (draftId s) i cfg m) = true)
          as Hpw by (intros; simpl; by rewrite bool_decide_eq_true_2).
        destruct Heff as [r Hrace|r Hw|x e Hraised Hl|x e Hraised Hl|];
          cbn [tracked] in *.
        -- split; [done|]. by rewrite Ht, Hown.
        -- destruct Ht as [Hrace ->].
           exists [content_write (draftId s) i cfg r]. split.
           ++ by apply outcome_content.
           ++ rewrite (history_none i [_; _]); [by rewrite app_nil_r|].
              by repeat constructor.
        -- rewrite (history_app i [section_error p cfg (exn_message h e)]
                      [placeholder_write (draftId s) i cfg (exn_message h e)]
                    : history i [_; _] = _).
           rewrite (Hown _ (Hpw (exn_message h e))).
           rewrite (history_none i [_]) by (by repeat constructor).
           destruct Hraised as [e Hrace|r m Hw].
           ++ exists [], e. rewrite Ht. repeat split; try done.
              by apply caught_race.
           ++ destruct Ht as [Hrace ->].
              exists [content_write (draftId s) i cfg r], (Error m).
              repeat split; try done; [by apply caught_write|].
              by rewrite <- app_assoc.
        -- rewrite (history_none i [_]) by (by repeat constructor).
           rewrite app_nil_r.
           destruct Hraised as [e Hrace|r m Hw].
           ++ exists []. rewrite Ht, app_nil_r. split; [|done].
              apply (outcome_unheard _ _ _ _ _ _ [] e);
                [by apply caught_race|done].
           ++ destruct Ht as [Hrace ->].
              exists [content_write (draftId s) i cfg r]. split; [|done].
              apply (outcome_unheard _ _ _ _ _ _ _ (Error m));
                [by apply caught_write|done].
        -- rewrite (history_none i [_]) by (by repeat constructor).
           rewrite app_nil_r.
           destruct Ht as (ws & e & Hc & Hl & ->).
           exists (ws ++ [placeholder_write (draftId s) i cfg
                            (exn_message h e)]).
           split; [by apply outcome_placeholder|done].
      * rewrite list_lookup_insert_ne in Hx' by done.
        rewrite (history_section_effect j _ _ _ _ _ _ _ Heff Hne), app_nil_r.
        by apply IH.
    + assert (histories h env p s1) as H1.
      { intros j cfg' x' Hcfg' Hx'. rewrite Hd1, Hlog1.
        rewrite Hsecs1 in Hx'.
        destruct (decide (j = i)) as [->|Hne].
        - rewrite list_lookup_insert_eq in Hx'
            by (by eapply lookup_lt_Some).
          simplify_eq.
          destruct (IH i cfg _ Hcfg Hx) as (ws & Ho & Hh).
          by exists ws, pending.
        - rewrite list_lookup_insert_ne in Hx' by done. by apply IH. }
      destruct Hset as [Hpc ->| e Hpc _ Hrej |Hpc _ -> |Hpc _ Hh He];
        try done.
      * intros j cfg' x' Hcfg' Hx'.
        rewrite (rejected_draft _ _ _ _ _ _ Hrej),
          (rejected_log _ _ _ _ _ _ Hrej), history_app.
        unfold history at 2. simpl. rewrite app_nil_r.
        apply H1; [done|]. by rewrite <- (rejected_secs _ _ _ _ _ _ Hrej).
      * by eapply histories_entered.
    + intros j cfg x Hcfg Hx. rewrite Hd, Hlog. apply IH; [done|].
      by rewrite <- Hsecs.
Qed.

End HistoryFacts.

(** * The progress that a run reports *)

Section ProgressFacts.

Context (h : Helpers) (env : Env) (p : Project).

Lemma progress_counts_app (l1 l2 : list Action) :
  progress_counts (l1 ++ l2) = progress_counts l1 ++ progress_counts l2.
Proof. apply omap_app. Qed.

Lemma progress_counts_start_log (done : nat) (batch : list SectionConfig)
    (i : nat) :
  progress_counts (start_log h p done i batch)
    = replicate (length batch) done.
Proof.
  revert i. induction batch as [|cfg rest IH]; intros i; [done|].
  cbn [start_log]. rewrite progress_counts_app, IH.
  unfold start_actions. rewrite progress_counts_app.
  by destruct (generation h p cfg).
Qed.

Lemma progress_counts_loop_log (i : nat) (s : State) :
  Forall (λ n, n = length (r_sections (results s)))
    (progress_counts (loop_log h p i s)).
Proof.
  unfold loop_log. case_bool_decide; [|done].
  rewrite progress_counts_start_log. by apply Forall_replicate.
Qed.

Lemma sorted_snoc (l new : list nat) (b : nat) :
  nondecreasing l → Forall (λ n, n ≤ b) l → Forall (λ n, n = b) new →
  nondecreasing (l ++ new).
Proof.
  intros Hl Hb Hnew k1 k2 n1 n2 Hk H1 H2.
  rewrite Forall_forall in Hb. rewrite Forall_forall in Hnew.
  apply lookup_app_Some in H1 as [H1|[Hge1 H1]];
    apply lookup_app_Some in H2 as [H2|[Hge2 H2]].
  - by eapply Hl.
  - apply list_elem_of_lookup_2 in H1, H2.
    rewrite (Hnew _ H2). by apply Hb.
  - apply lookup_lt_Some in H2. lia.
  - apply list_elem_of_lookup_2 in H1, H2.
    by rewrite (Hnew _ H1), (Hnew _ H2).
Qed.

Lemma Forall_le_trans (l : list nat) (a b : nat) :
  a ≤ b → Forall (λ n, n ≤ a) l → Forall (λ n, n ≤ b) l.
Proof.
  intros Hab Hl. eapply Forall_impl; [exact Hl|]. intros n Hn. simpl in *. lia.
Qed.

Lemma recorded_le_total (s : State) :
  invariant h env p s → length (r_sections (results s)) ≤ total p.
Proof. intros [_ Hc _]. unfold counted in Hc. lia. Qed.

Lemma SecEffect_progress (i : nat) (cfg : SectionConfig) (s : State)
    (x y : SectionPc) (new : list Action) (r : Results) :
  SecEffect h env p i cfg s x y new r →
  length (r_sections (results s)) ≤ length (r_sections r)
  ∧ Forall (λ n, n = length (r_sections r)) (progress_counts new).
Proof.
  destruct 1; simpl; rewrite ?length_app; (split; [lia|]);
    repeat constructor.
Qed.

Local Abbreviation reported s := (progress_counts (log s)).

(** What is known of the reported progress in a state of a run. *)
Lemma reachable_progress (sched : list Choice) (s : State) :
  run h env p sched (init env p) = Some s →
  nondecreasing (reported s)
  ∧ Forall (λ n, n ≤ total p) (reported s)
  ∧ (loop_i s < total p →
     Forall (λ n, n ≤ length (r_sections (results s))) (reported s))
  ∧ ∃ rest, reported s = 0 :: rest.
Proof.
  revert sched s. apply effect_ind.
  - unfold init, persist. destruct (initStatus env); simpl;
      (split; [by intros [|?] [|?] ? ? ? [= <-] [= <-]|];
       split; [repeat constructor; lia|];
       split; [by repeat constructor|by exists []]).
  - intros s s' Hinv Hinv' (Hsorted & Htotal & Hdone & rest & Hhead) Heff.
    pose proof (recorded_le_total s' Hinv') as Hle'.
    assert (∀ i s0,
              log s0 = log s → results s0 = results s →
              (i < total p → loop_i s < total p) →
              Entered h p i s0 s' →
              nondecreasing (reported s')
              ∧ Forall (λ n, n ≤ total p) (reported s')
              ∧ (loop_i s' < total p →
                 Forall (λ n, n ≤ length (r_sections (results s')))
                   (reported s'))
              ∧ ∃ rest, reported s' = 0 :: rest) as Hentered.
    { intros i s0 Hlog0 Hr0 Hi He.
      pose proof (progress_counts_loop_log i s0) as Hnew.
      rewrite (entered_log _ _ _ _ _ He), progress_counts_app, Hlog0.
      rewrite (entered_results _ _ _ _ _ He), (entered_loop _ _ _ _ _ He),
        Hr0.
      rewrite Hr0 in Hnew.
      destruct (decide (i < total p)) as [Hlt|Hge].
      - specialize (Hdone (Hi Hlt)).
        split; [by eapply sorted_snoc|].
        split.
        { apply Forall_app. split; [done|].
          eapply Forall_impl; [exact Hnew|]. intros n ->.
          by apply recorded_le_total. }
        split.
        { intros _. apply Forall_app. split; [done|].
          eapply Forall_impl; [exact Hnew|]. by intros n ->. }
        exists (rest ++ progress_counts (loop_log h p i s0)).
        by rewrite Hhead.
      - unfold loop_log. rewrite bool_decide_eq_false_2 by done. simpl.
        rewrite app_nil_r. split; [done|]. split; [done|].
        split; [intros; lia|]. by exists rest. }
    destruct Heff
      as [y new Hmain Hpc Hsecs Hloop Hd Hr Hlog
         |d s0 Hpc Hd Hpc0 Hsecs0 Hloop0 Hd0 Hr0 Hlog0 Hst0 Hh He
         |i cfg x y new Hcfg Hx Heff Hsecs Hlog Hpc Hloop Hd Hst
         |i cfg pending s1 Hcfg Hx outcome Hpc1 Hsecs1 Hloop1 Hd1 Hr1 Hlog1
            Hst1 Hset
         |Hpc Hsecs Hloop Hd Hr Hlog Hst].
    + rewrite Hlog, progress_counts_app, Hloop, Hr.
      inversion Hmain as [| | | |Hw Hsrc| | | | |]; subst;
        simpl; rewrite ?app_nil_r;
        try (split; [done|]; split; [done|]; split; [done|]; by exists rest).
      assert (total p ≤ loop_i s) as Hafter.
      { apply (after_loop_pc h env p s Hinv). by right; right. }
      split; [eapply sorted_snoc; [done|done|by repeat constructor]|].
      split; [apply Forall_app; split; [done|by repeat constructor]|].
      split; [lia|]. exists (rest ++ [total p]). by rewrite Hhead.
    + eapply Hentered; [exact Hlog0|exact Hr0| |exact He].
      destruct Hinv as [Hs _ _]. pose proof (shape_pc _ _ _ Hs) as HP.
      rewrite Hpc in HP. destruct HP as [-> _]. done.
    + assert (loop_i s < total p) as Hlt.
      { destruct (decide (loop_i s < total p)) as [|Hge]; [done|].
        pose proof (returned_all_settled h env p s i x Hinv ltac:(lia) Hx)
          as ->.
        by destruct (SecEffect_not_settled h env p _ _ _ _ _ _ _ Heff None). }
      specialize (Hdone Hlt).
      rewrite Hlog, progress_counts_app, Hloop.
      destruct (SecEffect_progress _ _ _ _ _ _ _ Heff) as [Hgrow Hnew].
      split; [eapply sorted_snoc; [done| |exact Hnew];
              by eapply Forall_le_trans|].
      split.
      { apply Forall_app. split; [done|].
        eapply Forall_impl; [exact Hnew|]. by intros n ->. }
      split.
      { intros _. apply Forall_app. split; [by eapply Forall_le_trans|].
        eapply Forall_impl; [exact Hnew|]. by intros n ->. }
      exists (rest ++ progress_counts new). by rewrite Hhead.
    + destruct Hset as [Hpc ->| e Hpc _ Hrej |Hpc _ -> |Hpc _ Hh He].
      * rewrite Hlog1, Hloop1, Hr1. eauto 10.
      * rewrite (rejected_log _ _ _ _ _ _ Hrej), progress_counts_app, Hlog1,
          (rejected_loop _ _ _ _ _ _ Hrej), (rejected_results _ _ _ _ _ _ Hrej),
          Hloop1, Hr1.
        simpl. rewrite app_nil_r. eauto 10.
      * rewrite Hlog1, Hloop1, Hr1. eauto 10.
      * eapply Hentered; [exact Hlog1|exact Hr1| |exact He].
        intros _. destruct Hinv as [Hs _ _].
        pose proof (shape_pc _ _ _ Hs) as HP.
        rewrite <- Hpc1, Hpc in HP. by destruct HP.
    + rewrite Hlog, Hloop, Hr. eauto 10.
Qed.

End ProgressFacts.

(** * More facts about runs *)

Section MoreRunFacts.

Context (h : Helpers) (env : Env) (p : Project).

Lemma settles_from (s : State) :
  invariant h env p s →
  ∃ sched' s', run h env p sched' s = Some s'
               ∧ (pc s' = Returned ∨ ∃ e, pc s' = Thrown e).
Proof.
  induction s as [s IH] using (well_founded_induction
                                 (well_founded_ltof State measure)).
  intros Hinv.
  destruct (progress h env p s Hinv) as [Hret|[[e He]|(c & s1 & Hc)]].
  - exists [], s. eauto.
  - exists [], s. eauto.
  - destruct (IH s1) as (sched' & s' & Hrun & Hend).
    + by eapply measure_step.
    + by eapply invariant_step.
    + exists (c :: sched'), s'. simpl. by rewrite Hc.
Qed.

(** The draft that the sections write to is the draft that was created. *)
Lemma reachable_draft (sched : list Choice) (s : State) :
  run h env p sched (init env p) = Some s →
  ∀ i x, secs s !! i = Some x → x ≠ Idle →
         createDraft env = inl (draftId s).
Proof.
  revert sched s.
  apply (effect_ind h env p
           (λ s, ∀ i x, secs s !! i = Some x → x ≠ Idle →
                        createDraft env = inl (draftId s))).
  - intros i x Hx Hne. unfold init, persist in Hx.
    destruct (initStatus env); simpl in Hx;
      by apply lookup_replicate in Hx as [-> _].
  - intros s s' Hinv Hinv' IH Heff.
    destruct Heff
      as [y new Hmain Hpc Hsecs Hloop Hd Hr Hlog
         |d s0 Hpc Hd Hpc0 Hsecs0 Hloop0 Hd0 Hr0 Hlog0 Hst0 Hh He
         |i cfg x y new Hcfg Hx Heff Hsecs Hlog Hpc Hloop Hd Hst
         |i cfg pending s1 Hcfg Hx outcome Hpc1 Hsecs1 Hloop1 Hd1 Hr1 Hlog1
            Hst1 Hset
         |Hpc Hsecs Hloop Hd Hr Hlog Hst].
    + intros j x' Hx' Hne. rewrite Hd. rewrite Hsecs in Hx'. eauto.
    + intros _ _ _ _. rewrite (entered_draft _ _ _ _ _ He).
      apply (head_draft _ _ _ _ Hh).
    + intros j x' Hx' Hne. rewrite Hd.
      apply (IH i x Hx). intros ->. by inversion Heff as [| |? ? Hr'|? ? Hr'|];
        try inversion Hr'.
    + assert (createDraft env = inl (draftId s1)) as H1.
      { rewrite Hd1. by apply (IH i _ Hx). }
      destruct Hset as [Hpc ->| e Hpc _ Hrej |Hpc _ -> |Hpc _ Hh He];
        intros _ _ _ _; try done.
      * by rewrite (rejected_draft _ _ _ _ _ _ Hrej).
      * by rewrite (entered_draft _ _ _ _ _ He).
    + intros j x' Hx' Hne. rewrite Hd. rewrite Hsecs in Hx'. eauto.
Qed.

Lemma race_healthy (i : nat) (cfg : SectionConfig) :
  healthy env p → ∃ r, race env i (generation h p cfg) = inl r.
Proof.
  intros Hh.
  destruct (healthy_model _ _ Hh i) as (t & response & Hm & Ht).
  assert (∀ req k, ∃ r, race env i (GenCall req k) = inl r) as Hcall.
  { intros req k. simpl. rewrite Hm, bool_decide_eq_true_2 by done. eauto. }
  unfold generation. destruct (mode p) eqn:Hmode.
  - destruct (documents p) as [|d rest] eqn:Hd.
    { by destruct (healthy_document _ _ Hh Hmode). }
    simpl. unfold generateSingleDocSection.
    destruct (_ || _); [simpl; eauto|].
    destruct (truncateForContext _ _). apply Hcall.
  - unfold generateMultiDocSection.
    case_bool_decide; [simpl; eauto|]. apply Hcall.
Qed.

(** When nothing fails no section lands on the error list. *)
Lemma reachable_healthy (sched : list Choice) (s : State) :
  healthy env p →
  run h env p sched (init env p) = Some s →
  r_errors (results s) = [].
Proof.
  intros Hh. revert sched s. apply effect_ind.
  - unfold init, persist. by destruct (initStatus env).
  - intros s s' Hinv Hinv' IH Heff.
    destruct Heff
      as [y new Hmain Hpc Hsecs Hloop Hd Hr Hlog
         |d s0 Hpc Hd Hpc0 Hsecs0 Hloop0 Hd0 Hr0 Hlog0 Hst0 Hh0 He
         |i cfg x y new Hcfg Hx Heff Hsecs Hlog Hpc Hloop Hd Hst
         |i cfg pending s1 Hcfg Hx outcome Hpc1 Hsecs1 Hloop1 Hd1 Hr1 Hlog1
            Hst1 Hset
         |Hpc Hsecs Hloop Hd Hr Hlog Hst].
    + by rewrite Hr.
    + by rewrite (entered_results _ _ _ _ _ He), Hr0.
    + assert (∀ x e, ¬ Raised h env p i cfg x e) as Hnot.
      { intros x' e [e' Hrace|r m Hw].
        - destruct (race_healthy i cfg Hh) as [r Hr]. congruence.
        - by rewrite (healthy_writes _ _ Hh) in Hw. }
      remember (results s') as r' eqn:Hr'.
      destruct Heff as [| |? ? Hraised|? ? Hraised|]; try done.
      * by destruct (Hnot _ _ Hraised).
      * by destruct (Hnot _ _ Hraised).
    + destruct Hset as [Hpc ->| e Hpc _ Hrej |Hpc _ -> |Hpc _ Hh0 He].
      * by rewrite Hr1.
      * by rewrite (rejected_results _ _ _ _ _ _ Hrej), Hr1.
      * by rewrite Hr1.
      * by rewrite (entered_results _ _ _ _ _ He), Hr1.
    + by rewrite Hr.
Qed.

(** Once the run has thrown, the status 'generating' stays. *)
Lemma thrown_status_stable (e : Exn) (sched : list Choice) (s s' : State) :
  invariant h env p s → pc s = Thrown e →
  status s = Some StGenerating →
  run h env p sched s = Some s' →
  status s' = Some StGenerating ∧ pc s' = Thrown e.
Proof.
  revert s. induction sched as [|c sched IH]; intros s Hinv Hpc Hst Hrun.
  { simpl in Hrun. by simplify_eq. }
  simpl in Hrun. destruct (step h env p s c) as [s1|] eqn:Hstep; [|done].
  simpl in Hrun.
  assert (status s1 = Some StGenerating ∧ pc s1 = Thrown e) as [Hst1 Hpc1].
  { destruct (step_effect h env p s c s1 Hinv Hstep)
      as [y new Hmain _ _ _ _ _ _
         |d s0 Hpc' _ _ _ _ _ _ _ _ _ _
         |i cfg x y new _ _ _ _ _ Hpc' _ _ Hst'
         |i cfg pending s0 _ _ outcome Hpc0 _ _ _ _ _ Hst0 Hset
         |Hpc' _ _ _ _ _ Hst'].
    - rewrite Hpc in Hmain. inversion Hmain.
    - congruence.
    - split; [|congruence]. rewrite Hst'.
      destruct (in_finally y); [|done]. by destruct (writeProgress env i).
    - destruct Hset as [_ ->| | |]; [split; congruence|congruence..].
    - split; congruence. }
  eapply IH; [by eapply invariant_step|done..].
Qed.

(** A section that is on its way to its [finally] block gets there, and
    when the store takes the status update of that block the status is
    'generating' afterwards. *)
Lemma reaches_finally (s : State) (i : nat) (x : SectionPc) :
  invariant h env p s →
  secs s !! i = Some x → in_flight x = true → in_finally x = false →
  writeProgress env i = None →
  ∃ sched' s', run h env p sched' s = Some s'
               ∧ invariant h env p s'
               ∧ pc s' = pc s
               ∧ status s' = Some StGenerating.
Proof.
  revert s. induction x as [x IH] using (well_founded_induction
                                        (well_founded_ltof SectionPc weight)).
  intros s Hinv Hx Hfl Hfin Hw.
  destruct (in_flight_enabled h env p s i x Hinv Hx Hfl) as [s1 Hstep].
  pose proof (invariant_step h env p s (Sec i) s1 Hinv Hstep) as Hinv1.
  simpl in Hstep.
  assert (is_Some (section_mapping p !! i)) as [cfg Hcfg].
  { unfold stepSec in Hstep.
    destruct (section_mapping p !! i); [eauto|done]. }
  destruct (stepSec_effect h env p i cfg x s s1 Hstep Hcfg Hx Hfin)
    as (y & new & Heff & Hsecs & Hlog & Hpc & Hloop & Hd & Hst).
  destruct (in_finally y) eqn:Hy.
  - exists [Sec i], s1. simpl. rewrite Hstep. simpl.
    rewrite Hw in Hst. split; [done|]. split; [done|]. split; done.
  - assert (secs s1 !! i = Some y) as Hy1.
    { rewrite Hsecs. apply list_lookup_insert_eq. by eapply lookup_lt_Some. }
    assert (in_flight y = true ∧ weight y < weight x) as [Hfl' Hlt].
    { destruct Heff as [| |? ? []|? ? []|]; simpl in *; try done;
        (split; [done|lia]). }
    destruct (IH y Hlt s1 Hinv1 Hy1 Hfl' Hy Hw)
      as (sched' & s' & Hrun & Hinv' & Hpc' & Hst').
    exists (Sec i :: sched'), s'. simpl. rewrite Hstep. simpl.
    split; [done|]. split; [done|]. split; [congruence|done].
Qed.

End MoreRunFacts.

Section MoreHistoryFacts.

Context (h : Helpers) (env : Env) (p : Project).

Lemma filter_via_history (f : Action → bool) (i : nat) (l : list Action) :
  (∀ a, f a = true → owned i a = true) →
  filter (λ a, f a = true) l = filter (λ a, f a = true) (history i l).
Proof.
  intros Hf. unfold history. induction l as [|a l IH]; [done|].
  rewrite !filter_cons. destruct (f a) eqn:Hfa.
  - rewrite decide_True by done. rewrite (decide_True (P := owned i a = true))
      by auto.
    rewrite filter_cons, decide_True by done. by rewrite IH.
  - rewrite decide_False by done.
    case_decide; [|done]. by rewrite filter_cons, decide_False by congruence.
Qed.

Lemma filter1 (f : Action → bool) (a : Action) :
  filter (λ a, f a = true) [a] = if f a then [a] else [].
Proof.
  destruct (f a) eqn:Hfa.
  - by rewrite filter_cons_True.
  - by rewrite filter_cons_False by congruence.
Qed.

Lemma timers_begun (i : nat) (cfg : SectionConfig) :
  timers i (begun h p i cfg) = [SetTimeout i TIMEOUT_MS].
Proof.
  unfold timers, begun. rewrite filter_app, filter1. simpl.
  rewrite bool_decide_eq_true_2 by done.
  destruct (generation h p cfg); by rewrite ?filter1.
Qed.

Lemma model_calls_begun (i : nat) (cfg : SectionConfig) :
  model_calls i (begun h p i cfg)
    = match generation h p cfg with
      | GenCall req _ => [GenerateContent i (buildPrompt h req)]
      | _ => []
      end.
Proof.
  unfold model_calls, begun. rewrite filter_app, filter1. simpl.
  destruct (generation h p cfg); try done.
  rewrite filter1. simpl. by rewrite bool_decide_eq_true_2.
Qed.

Lemma writes_of_begun (i : nat) (cfg : SectionConfig) :
  writes_of i (begun h p i cfg) = [].
Proof.
  unfold writes_of, begun. rewrite filter_app, filter1. simpl.
  destruct (generation h p cfg); by rewrite ?filter1.
Qed.

(** The draft writes of a section, as lists of actions. *)
Lemma only_writes (i : nat) (ws : list Action) :
  Forall (λ a, is_write_of i a = true) ws →
  timers i ws = [] ∧ model_calls i ws = [] ∧ writes_of i ws = ws.
Proof.
  induction 1 as [|a ws Ha _ (IH1 & IH2 & IH3)]; [done|].
  unfold timers, model_calls, writes_of in *.
  rewrite !filter_cons, IH1, IH2, IH3.
  destruct a; try done. simpl in *.
  by rewrite decide_True by done.
Qed.

Lemma Caught_writes (d : string) (i : nat) (cfg : SectionConfig)
    (ws : list Action) (e : Exn) :
  Caught h env p d i cfg ws e →
  Forall (λ a, is_write_of i a = true) ws ∧ length ws ≤ 1.
Proof.
  destruct 1; simpl; (split; [|lia]); repeat constructor.
  simpl. by rewrite bool_decide_eq_true_2.
Qed.

Lemma Outcome_writes (d : string) (i : nat) (cfg : SectionConfig)
    (ws : list Action) (pending : option Exn) :
  Outcome h env p d i cfg ws pending →
  Forall (λ a, is_write_of i a = true) ws ∧ length ws ≤ 2.
Proof.
  destruct 1 as [r Hr Hw|ws e Hc Hl|ws e Hc Hl].
  - split; [|simpl; lia]. repeat constructor.
    simpl. by rewrite bool_decide_eq_true_2.
  - destruct (Caught_writes _ _ _ _ _ Hc) as [Hws Hlen].
    split; [|rewrite length_app; simpl; lia].
    apply Forall_app. split; [done|]. repeat constructor.
    simpl. by rewrite bool_decide_eq_true_2.
  - destruct (Caught_writes _ _ _ _ _ Hc) as [Hws Hlen]. split; [done|lia].
Qed.

(** The history of a section: how it began, and then its draft writes. *)
Lemma tracked_split (d : string) (i : nat) (cfg : SectionConfig)
    (x : SectionPc) (hist : list Action) :
  tracked h env p d i cfg x hist →
  ∃ ws, hist = (if started x then begun h p i cfg else []) ++ ws
        ∧ Forall (λ a, is_write_of i a = true) ws
        ∧ length ws ≤ 2
        ∧ (x = Idle ∨ x = AwaitRace → ws = []).
Proof.
  destruct x as [| |r| |pending|outcome]; simpl.
  - intros ->. exists []. repeat split; eauto.
  - intros ->. exists []. rewrite app_nil_r. repeat split; eauto.
  - intros [Hr ->]. eexists. split; [done|]. split; [|split].
    + repeat constructor. simpl. by rewrite bool_decide_eq_true_2.
    + simpl. lia.
    + by intros [|].
  - intros (ws & e & Hc & Hl & ->).
    destruct (Caught_writes _ _ _ _ _ Hc) as [Hws Hlen].
    eexists. split; [done|]. split; [|split].
    + apply Forall_app. split; [done|]. repeat constructor.
      simpl. by rewrite bool_decide_eq_true_2.
    + rewrite length_app. simpl. lia.
    + by intros [|].
  - intros (ws & Ho & ->).
    destruct (Outcome_writes _ _ _ _ _ Ho) as [Hws Hlen].
    exists ws. repeat split; try done. by intros [|].
  - intros (ws & pending & Ho & -> & _).
    destruct (Outcome_writes _ _ _ _ _ Ho) as [Hws Hlen].
    exists ws. repeat split; try done. by intros [|].
Qed.

Lemma timer_owned (i : nat) (a : Action) :
  is_timer i a = true → owned i a = true.
Proof. by destruct a. Qed.

Lemma model_call_owned (i : nat) (a : Action) :
  is_model_call i a = true → owned i a = true.
Proof. by destruct a. Qed.

Lemma write_owned (i : nat) (a : Action) :
  is_write_of i a = true → owned i a = true.
Proof. by destruct a. Qed.

(** When the loop has been left, every section is on one of the two
    result lists. *)
Lemma after_loop_counted (s : State) :
  invariant h env p s → total p ≤ loop_i s →
  length (r_sections (results s)) + length (r_errors (results s)) = total p.
Proof.
  intros Hinv Hafter. pose proof (inv_counted _ _ _ _ Hinv) as Hc.
  unfold counted, count in Hc.
  rewrite sum_list_with_zero in Hc; [lia|].
  intros j x Hj.
  by rewrite (returned_all_settled h env p s j x Hinv Hafter Hj).
Qed.

End MoreHistoryFacts.

(** * More properties of runs *)

Section ExtraRuns.

(** X10: a run always settles, whatever fails and even when the model
    never answers.  Every store call settling, a run takes at most
    6 + 6 L resumptions; as long as it has neither returned nor thrown
    something can be resumed; and from every state it can be continued
    until it has returned or thrown. *)
Theorem the_run_always_settles
    (h : Helpers) (env : Env) (p : Project)
    (sched : list Choice) (s : State) :
  run h env p sched (init env p) = Some s →
  length sched ≤ 6 + 6 * total p
  ∧ (pc s = Returned ∨ (∃ e, pc s = Thrown e)
     ∨ ∃ c s', step h env p s c = Some s')
  ∧ ∃ sched' s', run h env p sched' s = Some s'
                 ∧ (pc s' = Returned ∨ ∃ e, pc s' = Thrown e).
Proof.
  intros Hrun.
  pose proof (reachable_invariant h env p sched s Hrun) as Hinv.
  split; [|split].
  - pose proof (run_length h env p sched s Hrun). lia.
  - by apply progress.
  - by apply settles_from.
Qed.

Lemma the_run_always_settles_witness :
  ∃ s, run Ex.helpers Ex.hanging Ex.one_section [Main; Main]
         (init Ex.hanging Ex.one_section) = Some s
       ∧ pc s = AwaitBatch
       ∧ ∃ sched' s', run Ex.helpers Ex.hanging Ex.one_section sched' s
                        = Some s'
                      ∧ (pc s' = Returned ∨ ∃ e, pc s' = Thrown e).
Proof.
  eexists. split; [vm_compute; reflexivity|]. split; [reflexivity|].
  apply (the_run_always_settles Ex.helpers Ex.hanging Ex.one_section
           [Main; Main]).
  vm_compute. reflexivity.
Defined.

(** X11: a section is generated once.  For every section of the mapping,
    in every state of a run: once [processSection] has been called for it
    one timer of 300000 ms has been set and, if the generation path got
    as far as a prompt, the model has been called once, with that prompt;
    before that, neither.  At most two draft writes are made for the
    section, none of them before its race has settled. *)
Theorem each_section_is_generated_at_most_once
    (h : Helpers) (env : Env) (p : Project)
    (sched : list Choice) (s : State)
    (i : nat) (cfg : SectionConfig) (x : SectionPc) :
  run h env p sched (init env p) = Some s →
  section_mapping p !! i = Some cfg →
  secs s !! i = Some x →
  timers i (log s) = (if started x then [SetTimeout i TIMEOUT_MS] else [])
  ∧ model_calls i (log s)
    = (if started x
       then match generation h p cfg with
            | GenCall req _ => [GenerateContent i (buildPrompt h req)]
            | _ => []
            end
       else [])
  ∧ length (model_calls i (log s)) ≤ 1
  ∧ length (writes_of i (log s)) ≤ 2
  ∧ (x = Idle ∨ x = AwaitRace → writes_of i (log s) = []).
Proof.
  intros Hrun Hcfg Hx.
  pose proof (reachable_histories h env p sched s Hrun i cfg x Hcfg Hx) as Ht.
  apply tracked_split in Ht as (ws & Hhist & Hws & Hlen & Hearly).
  destruct (only_writes i ws Hws) as (Ht1 & Ht2 & Ht3).
  assert (timers i (log s)
          = (if started x then [SetTimeout i TIMEOUT_MS] else [])) as H1.
  { unfold timers. rewrite (filter_via_history _ i) by apply timer_owned.
    rewrite Hhist, filter_app. fold (timers i ws). rewrite Ht1, app_nil_r.
    destruct (started x); [apply timers_begun|done]. }
  assert (model_calls i (log s)
          = (if started x
             then match generation h p cfg with
                  | GenCall req _ => [GenerateContent i (buildPrompt h req)]
                  | _ => []
                  end
             else [])) as H2.
  { unfold model_calls.
    rewrite (filter_via_history _ i) by apply model_call_owned.
    rewrite Hhist, filter_app. fold (model_calls i ws).
    rewrite Ht2, app_nil_r.
    destruct (started x); [apply model_calls_begun|done]. }
  assert (writes_of i (log s) = ws) as H3.
  { unfold writes_of. rewrite (filter_via_history _ i) by apply write_owned.
    rewrite Hhist, filter_app. fold (writes_of i ws). rewrite Ht3.
    destruct (started x); [|done].
    fold (writes_of i (begun h p i cfg)). by rewrite writes_of_begun. }
  split; [done|]. split; [done|]. split; [|split].
  - rewrite H2. destruct (started x); [|simpl; lia].
    destruct (generation h p cfg); simpl; lia.
  - by rewrite H3.
  - intros Hx'. rewrite H3. by apply Hearly.
Qed.

Lemma each_section_is_generated_at_most_once_witness :
  ∃ s, run Ex.helpers Ex.quota Ex.one_section
         [Main; Main; Sec 0; Sec 0; Sec 0; Main; Main]
         (init Ex.quota Ex.one_section) = Some s
       ∧ secs s !! 0 = Some (Settled None)
       ∧ timers 0 (log s) = [SetTimeout 0 TIMEOUT_MS]
       ∧ model_calls 0 (log s) = [GenerateContent 0 Ex.sixty].
Proof.
  eexists. split; [vm_compute; reflexivity|]. split; [reflexivity|].
  destruct (each_section_is_generated_at_most_once
              Ex.helpers Ex.quota Ex.one_section
              [Main; Main; Sec 0; Sec 0; Sec 0; Main; Main] _ 0
              (Ex.section "1" (Some ["abstract"])) (Settled None)
              ltac:(vm_compute; reflexivity) eq_refl eq_refl)
    as (H1 & H2 & _).
  split; [exact H1|exact H2].
Defined.

(** X12: a run emits at most one terminal event.  When it has returned
    the log holds the 'complete' event, once, and no 'error' event with
    recoverable: false; when it has thrown it holds no 'complete' event
    and at most one 'error' event with recoverable: false, which carries
    the message of the exception that is thrown; before that, neither. *)
Theorem a_run_emits_at_most_one_terminal_event
    (h : Helpers) (env : Env) (p : Project)
    (sched : list Choice) (s : State) :
  run h env p sched (init env p) = Some s →
  length (terminal_events (log s)) ≤ 1
  ∧ match pc s with
    | Returned => terminal_events (log s) = [complete_event p s]
    | Thrown e =>
        terminal_events (log s) = []
        ∨ terminal_events (log s) = [fatal_error h p e]
    | _ => terminal_events (log s) = []
    end.
Proof.
  intros Hrun.
  pose proof (reachable_terminal h env p sched s Hrun) as Ht.
  split; [|exact Ht].
  destruct (pc s); try (rewrite Ht; simpl; lia).
  destruct Ht as [-> | ->]; simpl; lia.
Qed.

Lemma a_run_emits_at_most_one_terminal_event_witness :
  ∃ s, run Ex.helpers Ex.down Ex.one_section
         [Main; Main; Sec 0; Sec 0; Sec 0; Sec 0; Main]
         (init Ex.down Ex.one_section) = Some s
       ∧ terminal_events (log s)
         = [Emit "P" (EvError None "draft store unavailable" false)]
       ∧ length (terminal_events (log s)) ≤ 1.
Proof.
  eexists. split; [vm_compute; reflexivity|]. split; [reflexivity|].
  apply (a_run_emits_at_most_one_terminal_event Ex.helpers Ex.down
           Ex.one_section [Main; Main; Sec 0; Sec 0; Sec 0; Sec 0; Main]).
  vm_compute. reflexivity.
Defined.

(** X13: no section is left out of the draft.  When [processSection] has
    resolved for a section -- as it has for every section once the run
    has returned -- the last draft write made for the section was taken
    by the store, and it went to the draft that was created: it is the
    generated content, written once, or else the placeholder, written
    after at most one rejected write of the content. *)
Theorem a_resolved_section_has_an_accepted_write
    (h : Helpers) (env : Env) (p : Project)
    (sched : list Choice) (s : State)
    (i : nat) (cfg : SectionConfig) :
  run h env p sched (init env p) = Some s →
  section_mapping p !! i = Some cfg →
  secs s !! i = Some (Settled None) ∨ pc s = Returned →
  createDraft env = inl (draftId s)
  ∧ ((∃ r, race env i (generation h p cfg) = inl r
           ∧ writeSection env i = None
           ∧ writes_of i (log s) = [content_write (draftId s) i cfg r])
     ∨ (∃ ws m, writePlaceholder env i = None
                ∧ length ws ≤ 1
                ∧ writes_of i (log s)
                  = ws ++ [placeholder_write (draftId s) i cfg m])).
Proof.
  intros Hrun Hcfg Hres.
  pose proof (reachable_invariant h env p sched s Hrun) as Hinv.
  assert (secs s !! i = Some (Settled None)) as Hx.
  { destruct Hres as [|Hret]; [done|].
    destruct (lookup_lt_is_Some_2 (secs s) i) as [x Hx].
    { rewrite (shape_length _ _ _ (inv_shape _ _ _ _ Hinv)).
      by eapply lookup_lt_Some. }
    rewrite Hx. f_equal.
    eapply (returned_all_settled h env p s i x Hinv); [|done].
    apply (after_loop_pc h env p s Hinv). by left. }
  split; [by apply (reachable_draft h env p sched s Hrun i _ Hx)|].
  pose proof (reachable_histories h env p sched s Hrun i cfg _ Hcfg Hx)
    as (ws & pending & Ho & Hhist & Hout).
  assert (writes_of i (log s) = ws) as Hws.
  { destruct (Outcome_writes _ _ _ _ _ _ _ _ Ho) as [Hw _].
    destruct (only_writes i ws Hw) as (_ & _ & H3).
    unfold writes_of. rewrite (filter_via_history _ i) by apply write_owned.
    rewrite Hhist, filter_app. fold (writes_of i ws). rewrite H3.
    fold (writes_of i (begun h p i cfg)). by rewrite writes_of_begun. }
  rewrite Hws.
  assert (pending = None) as ->.
  { by destruct (writeProgress env i). }
  inversion Ho as [r Hr Hw|ws0 e Hc Hl Hws0 Hp|]; subst.
  - left. eauto.
  - right. exists ws0, (exn_message h e).
    destruct (Caught_writes _ _ _ _ _ _ _ _ Hc) as [_ Hlen].
    split; [|done]. by destruct (writePlaceholder env i).
Qed.

Lemma a_resolved_section_has_an_accepted_write_witness :
  ∃ s, run Ex.helpers Ex.quota Ex.one_section
         [Main; Main; Sec 0; Sec 0; Sec 0; Main; Main]
         (init Ex.quota Ex.one_section) = Some s
       ∧ pc s = Returned
       ∧ writes_of 0 (log s)
         = [placeholder_write "D" 0 (Ex.section "1" (Some ["abstract"]))
              "quota exceeded"]
       ∧ createDraft Ex.quota = inl (draftId s).
Proof.
  eexists. split; [vm_compute; reflexivity|]. split; [reflexivity|].
  split; [reflexivity|].
  match goal with
  | |- createDraft _ = inl (draftId ?s) =>
      apply (a_resolved_section_has_an_accepted_write
               Ex.helpers Ex.quota Ex.one_section
               [Main; Main; Sec 0; Sec 0; Sec 0; Main; Main] s 0
               (Ex.section "1" (Some ["abstract"])));
        [vm_compute; reflexivity|reflexivity|by right]
  end.
Defined.

(** X14: when nothing fails -- the store takes every call, the model
    answers every call in time, a listener is attached and, in
    single-document mode, there is a document -- no section lands on the
    error list; the run can always be continued until it returns; and when
    it has returned the status is 'ready', all L sections are recorded
    (those with insufficient source content among them, with success:
    false) and the 'complete' event reports L sections and no errors. *)
Theorem a_run_without_failures_reports_every_section
    (h : Helpers) (env : Env) (p : Project)
    (sched : list Choice) (s : State) :
  healthy env p →
  run h env p sched (init env p) = Some s →
  r_errors (results s) = []
  ∧ (pc s = Returned →
     status s = Some StReady
     ∧ length (r_sections (results s)) = total p
     ∧ Emit (projectId p) (EvComplete (draftId s) (total p) []) ∈ log s)
  ∧ ∃ sched' s', run h env p sched' s = Some s' ∧ pc s' = Returned.
Proof.
  intros Hh Hrun.
  pose proof (reachable_invariant h env p sched s Hrun) as Hinv.
  pose proof (reachable_healthy h env p sched s Hh Hrun) as Herr.
  pose proof (reachable_unbroken h env p sched s
                (healthy_handlers _ _ Hh) Hrun) as Hunb.
  split; [done|]. split.
  - intros Hret.
    assert (length (r_sections (results s)) = total p) as Hlen.
    { pose proof (after_loop_counted h env p s Hinv
                    (after_loop_pc h env p s Hinv (or_introl Hret))) as Hc.
      rewrite Herr in Hc. simpl in Hc. lia. }
    split; [by apply (unbroken_ready _ Hunb)|]. split; [done|].
    pose proof (reachable_terminal h env p sched s Hrun) as Ht.
    rewrite Hret in Ht.
    assert (complete_event p s ∈ terminal_events (log s)) as Hin.
    { rewrite Ht. apply list_elem_of_here. }
    apply list_elem_of_filter in Hin as [_ Hin].
    unfold complete_event in Hin. by rewrite Hlen, Herr in Hin.
  - apply eventually_returns; [apply Hh|done|done].
Qed.

Lemma a_run_without_failures_reports_every_section_witness :
  healthy Ex.calm Ex.two_sections
  ∧ ∃ s, run Ex.helpers Ex.calm Ex.two_sections
           [Main; Main; Sec 1; Sec 0; Sec 0; Sec 1; Sec 1; Sec 0; Main; Main]
           (init Ex.calm Ex.two_sections) = Some s
         ∧ pc s = Returned
         ∧ Emit "P" (EvComplete "D" 2 []) ∈ log s.
Proof.
  assert (healthy Ex.calm Ex.two_sections) as Hh.
  { constructor; try done.
    - constructor; try done. by exists "D".
    - intros i. by exists 1000%N, "Generated text.". }
  split; [exact Hh|].
  eexists. split; [vm_compute; reflexivity|]. split; [reflexivity|].
  match goal with
  | |- _ ∈ log ?s =>
      apply (a_run_without_failures_reports_every_section
               Ex.helpers Ex.calm Ex.two_sections
               [Main; Main; Sec 1; Sec 0; Sec 0; Sec 1; Sec 1; Sec 0;
                Main; Main] s Hh);
        [vm_compute; reflexivity|reflexivity]
  end.
Defined.

(** X15: when the store rejects the very first status update, the run
    throws at once with that error: no draft is created, no event is
    emitted, nothing is rolled back, and nothing is left to resume. *)
Theorem failure_of_the_first_status_update_ends_the_run
    (h : Helpers) (env : Env) (p : Project) (m : string) :
  initStatus env = Some m →
  ∃ s, run h env p [Main] (init env p) = Some s
       ∧ pc s = Thrown (Error m)
       ∧ log s
         = [UpdateProjectStatus (projectId p) StGenerating
              (ProgressUpdate
                 {| totalSections := total p; completedSections := 0;
                    currentSection := None; errors := [] |})]
       ∧ status s = None
       ∧ ∀ c, step h env p s c = None.
Proof.
  intros Hi. eexists. split.
  { simpl. unfold stepMain, init, persist. rewrite Hi. simpl.
    reflexivity. }
  repeat (split; [reflexivity|]).
  intros [|i|i]; simpl; [done| |].
  - unfold stepSec. destruct (section_mapping p !! i); [|done]. simpl.
    destruct (replicate (total p) Idle !! i) as [x|] eqn:Hx; [|done].
    by apply lookup_replicate in Hx as [-> _].
  - unfold stepLate. simpl.
    destruct (replicate (total p) Idle !! i) as [x|] eqn:Hx; [|done].
    by apply lookup_replicate in Hx as [-> _].
Qed.

Lemma failure_of_the_first_status_update_ends_the_run_witness :
  ∃ s, run Ex.helpers Sample.offline Ex.one_section [Main]
         (init Sample.offline Ex.one_section) = Some s
       ∧ pc s = Thrown (Error "store offline")
       ∧ log s
         = [UpdateProjectStatus "P" StGenerating
              (ProgressUpdate
                 {| totalSections := 1; completedSections := 0;
                    currentSection := None; errors := [] |})]
       ∧ status s = None
       ∧ ∀ c, step Ex.helpers Sample.offline Ex.one_section s c = None.
Proof.
  exact (failure_of_the_first_status_update_ends_the_run
           Ex.helpers Sample.offline Ex.one_section "store offline" eq_refl).
Defined.

(** X16: the progress that a run reports never goes back.  The numbers
    of completed sections carried by the status updates and the
    'progress' events, in the order in which the run issues them, start
    at 0, never decrease and never exceed L. *)
Theorem reported_progress_never_decreases
    (h : Helpers) (env : Env) (p : Project)
    (sched : list Choice) (s : State) :
  run h env p sched (init env p) = Some s →
  nondecreasing (progress_counts (log s))
  ∧ Forall (λ n, n ≤ total p) (progress_counts (log s))
  ∧ ∃ rest, progress_counts (log s) = 0 :: rest.
Proof.
  intros Hrun.
  destruct (reachable_progress h env p sched s Hrun) as (H1 & H2 & _ & H3).
  done.
Qed.

Lemma reported_progress_never_decreases_witness :
  ∃ s, run Ex.helpers Ex.calm Ex.two_sections
         [Main; Main; Sec 1; Sec 0; Sec 0; Sec 1; Sec 1; Sec 0; Main; Main]
         (init Ex.calm Ex.two_sections) = Some s
       ∧ progress_counts (log s) = [0; 0; 0; 1; 2; 2]
       ∧ nondecreasing (progress_counts (log s)).
Proof.
  eexists. split; [vm_compute; reflexivity|]. split; [reflexivity|].
  apply (reported_progress_never_decreases Ex.helpers Ex.calm
           Ex.two_sections
           [Main; Main; Sec 1; Sec 0; Sec 0; Sec 1; Sec 1; Sec 0; Main; Main]).
  vm_compute. reflexivity.
Defined.

(** X17: the rollback to 'draft' does not last when a section of the
    failing batch is still on its way.  When the run has thrown while
    [processSection] has not reached its [finally] block for some section,
    and the store takes the status update of that block, the run can be
    continued to a state from which the status that the store has last
    taken is 'generating', for good: the project is left in the status
    'generating' though the run has failed. *)
Theorem a_late_section_overwrites_the_rollback
    (h : Helpers) (env : Env) (p : Project)
    (sched : list Choice) (s : State)
    (e : Exn) (i : nat) (x : SectionPc) :
  run h env p sched (init env p) = Some s →
  pc s = Thrown e →
  secs s !! i = Some x → in_flight x = true → in_finally x = false →
  writeProgress env i = None →
  ∃ sched' s',
    run h env p sched' s = Some s'
    ∧ ∀ sched'' s'', run h env p sched'' s' = Some s'' →
                     status s'' = Some StGenerating ∧ pc s'' = Thrown e.
Proof.
  intros Hrun Hpc Hx Hfl Hfin Hw.
  pose proof (reachable_invariant h env p sched s Hrun) as Hinv.
  destruct (reaches_finally h env p s i x Hinv Hx Hfl Hfin Hw)
    as (sched' & s' & Hrun' & Hinv' & Hpc' & Hst').
  exists sched', s'. split; [done|].
  intros sched'' s'' Hrun''.
  eapply thrown_status_stable; [exact Hinv'|congruence|done|done].
Qed.

Lemma a_late_section_overwrites_the_rollback_witness :
  ∃ s, run Ex.helpers Ex.flaky Ex.two_sections
         [Main; Main; Sec 0; Sec 0; Sec 0; Sec 0; Main]
         (init Ex.flaky Ex.two_sections) = Some s
       ∧ status s = Some StDraft
       ∧ ∃ sched' s',
           run Ex.helpers Ex.flaky Ex.two_sections sched' s = Some s'
           ∧ ∀ sched'' s'',
               run Ex.helpers Ex.flaky Ex.two_sections sched'' s' = Some s'' →
               status s'' = Some StGenerating
               ∧ pc s'' = Thrown (Error "draft store unavailable").
Proof.
  eexists. split; [vm_compute; reflexivity|]. split; [reflexivity|].
  apply (a_late_section_overwrites_the_rollback Ex.helpers Ex.flaky
           Ex.two_sections [Main; Main; Sec 0; Sec 0; Sec 0; Sec 0; Main]
           _ _ 1 AwaitRace);
    vm_compute; reflexivity.
Defined.

End ExtraRuns.

(** * The progress stream *)

Section StreamFacts.

Import Stream.

Context (id : string).

Lemma deliver_other (c : Connection) (project : string) (e : Event) :
  project ≠ id → deliver id c (Published project e) = c.
Proof.
  intros Hne. unfold deliver.
  by rewrite bool_decide_eq_false_2, andb_false_r by done.
Qed.

Lemma feed_concerns (c : Connection) (ins : list Input) :
  feed id c (filter (concerns id) ins) = feed id c ins.
Proof.
  unfold feed. revert c. induction ins as [|i ins IH]; intros c; [done|].
  rewrite filter_cons. case_decide as Hi.
  - simpl. apply IH.
  - destruct i as [project e| |]; try by destruct Hi.
    simpl. rewrite IH. f_equal. symmetry. by apply deliver_other.
Qed.

Lemma feed_snoc (c : Connection) (ins : list Input) (i : Input) :
  feed id c (ins ++ [i]) = deliver id (feed id c ins) i.
Proof. unfold feed. by rewrite foldl_snoc. Qed.

Lemma frames_deliver (c : Connection) (i : Input) :
  frames (deliver id c i) = frames c
  ∨ ∃ e, i = Published id e ∧ listening c = true
         ∧ frames (deliver id c i) = frames c ++ [(id, e)].
Proof.
  destruct i as [project e| |]; simpl.
  - destruct (listening c) eqn:Hl; [|by left]. simpl.
    case_bool_decide as Hp; [|by left]. subst project.
    right. exists e. unfold frames. simpl. by rewrite omap_app.
  - destruct (pinging c); [|by left].
    left. unfold frames. simpl. by rewrite omap_app, app_nil_r.
  - by left.
Qed.

(** A connection deaf to the events stays so, and nothing but pings is
    written to it. *)
Lemma feed_deaf (c : Connection) (ins : list Input) :
  listening c = false →
  listening (feed id c ins) = false
  ∧ frames (feed id c ins) = frames c
  ∧ ended (feed id c ins) = ended c.
Proof.
  intros Hl. induction ins as [|i ins (IH1 & IH2 & IH3)] using rev_ind;
    [done|].
  rewrite feed_snoc.
  destruct i as [project e| |]; simpl; rewrite ?IH1; simpl; try done.
  destruct (pinging (feed id c ins)); simpl; [|done].
  repeat split; try done.
  unfold frames in *. simpl. by rewrite omap_app, app_nil_r.
Qed.

(** What holds of a connection, whatever happens to it. *)
Lemma feed_invariant (status : string) (ins : list Input) :
  let c := feed id (open status) ins in
  (∀ project e, (project, e) ∈ frames c →
     project = id ∧ Published project e ∈ ins)
  ∧ (ended c = true ↔
     ∃ e, is_complete_event e = true ∧ (id, e) ∈ frames c)
  ∧ (ended c = true → listening c = false).
Proof.
  induction ins as [|i ins (IH1 & IH2 & IH3)] using rev_ind.
  - simpl. split; [|split]; try done.
    + intros project e Hin. by apply elem_of_nil in Hin.
    + split; [done|]. intros (e & _ & Hin). by apply elem_of_nil in Hin.
  - cbv zeta. rewrite feed_snoc.
    set (c := feed id (open status) ins) in *.
    assert (ended (deliver id c i)
            = ended c
              || match i with
                 | Published project e =>
                     listening c && bool_decide (project = id)
                     && is_complete_event e
                 | _ => false
                 end) as Hended.
    { destruct i as [project e| |]; simpl.
      - destruct (listening c && bool_decide (project = id)); simpl;
          [done|by rewrite orb_false_r].
      - destruct (pinging c); simpl; by rewrite orb_false_r.
      - by rewrite orb_false_r. }
    destruct (frames_deliver c i) as [Hsame|(e & -> & Hl & Hnew)].
    + split; [|split].
      * intros project e Hin. rewrite Hsame in Hin.
        destruct (IH1 project e Hin) as [-> Hp]. split; [done|].
        apply elem_of_app. by left.
      * rewrite Hsame, <- IH2, Hended.
        destruct i as [project e| |]; simpl; rewrite ?orb_false_r; try done.
        destruct (listening c) eqn:Hl; simpl; [|by rewrite orb_false_r].
        case_bool_decide as Hp; simpl; [|by rewrite orb_false_r].
        subst project. exfalso.
        unfold frames in Hsame. simpl in Hsame. rewrite Hl in Hsame.
        simpl in Hsame. rewrite bool_decide_eq_true_2 in Hsame by done.
        simpl in Hsame. rewrite omap_app in Hsame. simpl in Hsame.
        apply (f_equal length) in Hsame. rewrite length_app in Hsame.
        simpl in Hsame. lia.
      * rewrite Hended. intros [He|He]%orb_prop.
        -- destruct i as [project e| |]; simpl; try done.
           ++ rewrite (IH3 He). simpl. by apply IH3.
           ++ destruct (pinging c); simpl; by apply IH3.
        -- destruct i as [project e| |]; simpl; try done.
           apply andb_prop in He as [He1 He2]. rewrite He1. simpl.
           by rewrite He2.
    + split; [|split].
      * intros project e' Hin. rewrite Hnew in Hin.
        apply elem_of_app in Hin as [Hin|Hin].
        -- destruct (IH1 project e' Hin) as [-> Hp]. split; [done|].
           apply elem_of_app. by left.
        -- apply list_elem_of_singleton in Hin as [= -> ->]. split; [done|].
           apply elem_of_app. right. apply list_elem_of_here.
      * rewrite Hnew, Hended. simpl. rewrite Hl. simpl.
        rewrite bool_decide_eq_true_2 by done. simpl. split.
        -- intros [He|He]%orb_prop.
           ++ apply IH2 in He as (e0 & He0 & Hin0). exists e0.
              split; [done|]. apply elem_of_app. by left.
           ++ exists e. split; [done|]. apply elem_of_app. right.
              apply list_elem_of_here.
        -- intros (e0 & He0 & Hin0). apply elem_of_app in Hin0 as [Hin0|Hin0].
           ++ apply orb_true_intro. left. apply IH2. eauto.
           ++ apply list_elem_of_singleton in Hin0 as [= ->].
              rewrite He0. apply orb_true_r.
      * simpl. rewrite Hl. simpl. rewrite bool_decide_eq_true_2 by done.
        simpl. intros [He|He]%orb_prop.
        -- by rewrite (IH3 He) in Hl.
        -- by rewrite He.
Qed.

End StreamFacts.

Section ExtraStream.

(** X18: a progress stream carries the events of its own project only.
    Whatever is emitted, whenever the interval fires and whenever the
    client leaves: events emitted for other projects have no effect on the
    connection at all; every event written was emitted for the project of
    the stream; the response is ended exactly when a 'complete' event of
    the project has been written; and once it is ended no event is
    written any more. *)
Theorem a_stream_carries_only_its_project
    (id status : string) (ins : list Stream.Input) :
  let c := Stream.feed id (Stream.open status) ins in
  c = Stream.feed id (Stream.open status) (filter (Stream.concerns id) ins)
  ∧ (∀ project e, (project, e) ∈ Stream.frames c →
       project = id ∧ Stream.Published project e ∈ ins)
  ∧ (Stream.ended c = true ↔
     ∃ e, Stream.is_complete_event e = true ∧ (id, e) ∈ Stream.frames c)
  ∧ (Stream.ended c = true →
     ∀ more, Stream.frames (Stream.feed id c more) = Stream.frames c).
Proof.
  intros c. destruct (feed_invariant id status ins) as (H1 & H2 & H3).
  fold c in H1, H2, H3.
  split; [by rewrite feed_concerns|]. split; [done|]. split; [done|].
  intros He more. by apply feed_deaf, H3.
Qed.

End ExtraStream.

Section StreamRunFacts.

Context (h : Helpers) (env : Env) (p : Project).

Local Abbreviation own_event :=
  (λ a : Action, ∀ project e, a = Emit project e → project = projectId p).

Lemma SecEffect_own (i : nat) (cfg : SectionConfig) (s : State)
    (x y : SectionPc) (new : list Action) (r : Results) :
  SecEffect h env p i cfg s x y new r → Forall own_event new.
Proof.
  destruct 1; repeat constructor; by intros ? ? [= <- _].
Qed.

Lemma MainEffect_own (s : State) (x y : MainPc) (new : list Action) :
  MainEffect h env p s x y new → Forall own_event new.
Proof.
  destruct 1; repeat constructor; by intros ? ? [= <- _].
Qed.

Lemma loop_log_own (i : nat) (s : State) :
  Forall own_event (loop_log h p i s).
Proof.
  apply loop_log_Forall; try done. by intros n title ? ? [= <- _].
Qed.

(** Every event of a run is emitted for the project of the run. *)
Lemma reachable_own (sched : list Choice) (s : State) :
  run h env p sched (init env p) = Some s → Forall own_event (log s).
Proof.
  revert sched s. apply (effect_ind h env p (λ s, Forall own_event (log s))).
  - unfold init, persist.
    destruct (initStatus env); by repeat constructor.
  - intros s s' Hinv Hinv' IH Heff.
    destruct Heff
      as [y new Hmain Hpc Hsecs Hloop Hd Hr Hlog
         |d s0 Hpc Hd Hpc0 Hsecs0 Hloop0 Hd0 Hr0 Hlog0 Hst0 Hh He
         |i cfg x y new Hcfg Hx Heff Hsecs Hlog Hpc Hloop Hd Hst
         |i cfg pending s1 Hcfg Hx outcome Hpc1 Hsecs1 Hloop1 Hd1 Hr1 Hlog1
            Hst1 Hset
         |Hpc Hsecs Hloop Hd Hr Hlog Hst].
    + rewrite Hlog. apply Forall_app. split; [done|].
      by eapply MainEffect_own.
    + rewrite (entered_log _ _ _ _ _ He), Hlog0.
      apply Forall_app. split; [done|apply loop_log_own].
    + rewrite Hlog. apply Forall_app. split; [done|].
      by eapply SecEffect_own.
    + destruct Hset as [Hpc ->| e Hpc _ Hrej |Hpc _ -> |Hpc _ Hh He].
      * by rewrite Hlog1.
      * rewrite (rejected_log _ _ _ _ _ _ Hrej), Hlog1.
        apply Forall_app. split; [done|]. by repeat constructor.
      * by rewrite Hlog1.
      * rewrite (entered_log _ _ _ _ _ He), Hlog1.
        apply Forall_app. split; [done|apply loop_log_own].
    + by rewrite Hlog.
Qed.

(** Nothing follows the 'complete' event. *)
Lemma reachable_last (sched : list Choice) (s : State) :
  run h env p sched (init env p) = Some s →
  (pc s = Returned →
   ∃ l, log s = l ++ [complete_event p s]
        ∧ Forall (λ a, is_complete a = false) l)
  ∧ (pc s ≠ Returned → Forall (λ a, is_complete a = false) (log s)).
Proof.
  revert sched s.
  apply (effect_ind h env p
           (λ s, (pc s = Returned →
                  ∃ l, log s = l ++ [complete_event p s]
                       ∧ Forall (λ a, is_complete a = false) l)
                 ∧ (pc s ≠ Returned →
                    Forall (λ a, is_complete a = false) (log s)))).
  - unfold init, persist.
    destruct (initStatus env); (split; [done|]); by repeat constructor.
  - intros s s' Hinv Hinv' [IH1 IH2] Heff.
    destruct Heff
      as [y new Hmain Hpc Hsecs Hloop Hd Hr Hlog
         |d s0 Hpc Hd Hpc0 Hsecs0 Hloop0 Hd0 Hr0 Hlog0 Hst0 Hh He
         |i cfg x y new Hcfg Hx Heff Hsecs Hlog Hpc Hloop Hd Hst
         |i cfg pending s1 Hcfg Hx outcome Hpc1 Hsecs1 Hloop1 Hd1 Hr1 Hlog1
            Hst1 Hset
         |Hpc Hsecs Hloop Hd Hr Hlog Hst].
    + assert (pc s ≠ Returned) as Hnot.
      { intros Hret. rewrite Hret in Hmain. inversion Hmain. }
      specialize (IH2 Hnot). rewrite Hpc, Hlog. split.
      * intros ->. exists (log s). split; [|done].
        inversion Hmain. unfold complete_event. by rewrite Hd, Hr.
      * intros Hy. apply Forall_app. split; [done|].
        inversion Hmain; subst; try done; by repeat constructor.
    + assert (pc s' ≠ Returned) as Hnot.
      { destruct (entered_secs _ _ _ _ _ He) as [(_ & -> & _)|(_ & -> & _)];
          done. }
      split; [done|]. intros _.
      rewrite (entered_log _ _ _ _ _ He), Hlog0.
      apply Forall_app. split; [apply IH2; congruence|].
      apply loop_log_Forall; done.
    + assert (pc s ≠ Returned) as Hnot.
      { intros Hret.
        pose proof (after_loop_pc h env p s Hinv (or_introl Hret)) as Hafter.
        pose proof (returned_all_settled h env p s i x Hinv Hafter Hx) as ->.
        by destruct (SecEffect_not_settled h env p _ _ _ _ _ _ _ Heff None). }
      rewrite Hpc. split; [done|]. intros _. rewrite Hlog.
      apply Forall_app. split; [by apply IH2|].
      destruct Heff; by repeat constructor.
    + assert (pc s ≠ Returned) as Hnot.
      { intros Hret.
        pose proof (after_loop_pc h env p s Hinv (or_introl Hret)) as Hafter.
        by pose proof (returned_all_settled h env p s i _ Hinv Hafter Hx). }
      specialize (IH2 Hnot).
      destruct Hset as [Hpc ->| e Hpc _ Hrej |Hpc _ -> |Hpc _ Hh He].
      * rewrite Hpc1, Hlog1. done.
      * rewrite (rejected_pc _ _ _ _ _ _ Hrej). split; [done|]. intros _.
        rewrite (rejected_log _ _ _ _ _ _ Hrej), Hlog1.
        apply Forall_app. split; [done|]. by repeat constructor.
      * rewrite Hpc1, Hlog1. done.
      * assert (pc s' ≠ Returned) as Hnot'.
        { destruct (entered_secs _ _ _ _ _ He) as [(_ & -> & _)|(_ & -> & _)];
            done. }
        split; [done|]. intros _.
        rewrite (entered_log _ _ _ _ _ He), Hlog1.
        apply Forall_app. split; [done|]. apply loop_log_Forall; done.
    + rewrite Hpc, Hlog. unfold complete_event. rewrite Hd, Hr. done.
Qed.

End StreamRunFacts.

Section StreamOfRun.

Import Stream.

Lemma publications_app (l1 l2 : list Action) :
  publications (l1 ++ l2) = publications l1 ++ publications l2.
Proof. apply omap_app. Qed.

Lemma emitted_app (l1 l2 : list Action) :
  emitted (l1 ++ l2) = emitted l1 ++ emitted l2.
Proof. apply omap_app. Qed.

Lemma feed_app (id : string) (c : Connection) (ins1 ins2 : list Input) :
  feed id c (ins1 ++ ins2) = feed id (feed id c ins1) ins2.
Proof. unfold feed. by rewrite foldl_app. Qed.

(** A connection that listens is written every event of its project,
    up to the 'complete' event. *)
Lemma feed_publications (id : string) (l : list Action) (c : Connection) :
  listening c = true →
  Forall (λ a, ∀ project e, a = Emit project e → project = id) l →
  Forall (λ a, is_complete a = false) l →
  listening (feed id c (publications l)) = true
  ∧ pinging (feed id c (publications l)) = pinging c
  ∧ ended (feed id c (publications l)) = ended c
  ∧ frames (feed id c (publications l)) = frames c ++ emitted l.
Proof.
  intros Hl Hown Hnone. revert c Hl.
  induction Hown as [|a l Ha Hown IH]; intros c Hl.
  - simpl. by rewrite app_nil_r.
  - apply Forall_cons in Hnone as [Hna Hnone].
    destruct a as [project e| | | | | |];
      try (by apply IH).
    pose proof (Ha project e eq_refl) as ->.
    assert (is_complete_event e = false) as He by (by destruct e).
    change (publications (Emit id e :: l))
      with (Published id e :: publications l).
    change (emitted (Emit id e :: l)) with ((id, e) :: emitted l).
    change (feed id c (Published id e :: publications l))
      with (feed id (deliver id c (Published id e)) (publications l)).
    simpl. rewrite Hl, bool_decide_eq_true_2 by done. simpl.
    rewrite He. simpl.
    match goal with
    | |- context [feed id ?c' _] =>
        destruct (IH Hnone c' eq_refl) as (H1 & H2 & H3 & H4)
    end.
    rewrite H1, H2, H3, H4. simpl. rewrite orb_false_r, andb_true_r.
    repeat split; try done.
    unfold frames. simpl. rewrite omap_app. simpl.
    by rewrite <- app_assoc.
Qed.

End StreamOfRun.

Section ExtraStreamOfRun.

(** X19: what a client that follows a run sees.  A connection opened for
    the project of the run before its first event, and not closed by the
    client, is a listener for 'error' as long as the run emits; it is
    written every event of the run, in the order of emission.  The server
    ends the response exactly when the run has returned: then the
    listeners are removed and the interval that writes the pings is
    cleared.  After a run that has thrown -- its 'error' event with
    recoverable: false written -- the connection is left open, its
    listeners registered and its interval active. *)
Theorem the_stream_ends_only_when_the_run_returns
    (h : Helpers) (env : Env) (p : Project)
    (sched : list Choice) (s : State) (status : string) :
  (∀ site, errorListener env site = true) →
  run h env p sched (init env p) = Some s →
  let c := Stream.feed (projectId p) (Stream.open status)
             (publications (log s)) in
  Stream.frames c = emitted (log s)
  ∧ (Stream.ended c = true ↔ pc s = Returned)
  ∧ (pc s ≠ Returned →
     Stream.listening c = true ∧ Stream.pinging c = true)
  ∧ (pc s = Returned →
     Stream.listening c = false ∧ Stream.pinging c = false).
Proof.
  intros _ Hrun c.
  pose proof (reachable_own h env p sched s Hrun) as Hown.
  destruct (reachable_last h env p sched s Hrun) as [Hret Hnot].
  assert (pc s = Returned ∨ pc s ≠ Returned) as [Hpc|Hpc]
    by (destruct (pc s); (by left) || (by right)).
  - destruct (Hret Hpc) as (l & Hlog & Hnone).
    unfold c. rewrite Hlog in *. rewrite publications_app.
    apply Forall_app in Hown as [Hown _].
    destruct (feed_publications (projectId p) l (Stream.open status)
                eq_refl Hown Hnone) as (H1 & H2 & H3 & H4).
    change (publications [complete_event p s])
      with [Stream.Published (projectId p)
              (EvComplete (draftId s) (length (r_sections (results s)))
                 (r_errors (results s)))].
    rewrite feed_snoc.
    set (c1 := Stream.feed (projectId p) (Stream.open status)
                 (publications l)) in *.
    unfold Stream.deliver. rewrite H1, bool_decide_eq_true_2 by done.
    simpl. rewrite H2, emitted_app.
    split; [|split; [|split]]; try done.
    + unfold Stream.frames in *. simpl. rewrite omap_app, H4. done.
    + split; [done|]. intros _. apply orb_true_r.
  - destruct (feed_publications (projectId p) (log s) (Stream.open status)
                eq_refl Hown (Hnot Hpc)) as (H1 & H2 & H3 & H4).
    fold c in H1, H2, H3, H4.
    rewrite H1, H2, H3, H4. simpl.
    split; [done|]. split; [|done]. split; [done|]. intros ?. done.
Qed.

Lemma the_stream_ends_only_when_the_run_returns_witness :
  (∀ site, errorListener Ex.down site = true)
  ∧ ∃ s, run Ex.helpers Ex.down Ex.one_section
           [Main; Main; Sec 0; Sec 0; Sec 0; Sec 0; Main]
           (init Ex.down Ex.one_section) = Some s
         ∧ pc s = Thrown (Error "draft store unavailable")
         ∧ let c := Stream.feed "P" (Stream.open "{}")
                      (publications (log s)) in
           Stream.frames c = emitted (log s)
           ∧ (Stream.ended c = true ↔ pc s = Returned)
           ∧ (pc s ≠ Returned →
              Stream.listening c = true ∧ Stream.pinging c = true)
           ∧ (pc s = Returned →
              Stream.listening c = false ∧ Stream.pinging c = false).
Proof.
  split; [done|].
  eexists. split; [vm_compute; reflexivity|]. split; [reflexivity|].
  apply (the_stream_ends_only_when_the_run_returns Ex.helpers Ex.down
           Ex.one_section [Main; Main; Sec 0; Sec 0; Sec 0; Sec 0; Main]
           _ "{}").
  - done.
  - vm_compute. reflexivity.
Defined.

End ExtraStreamOfRun.

(** * The error handler *)

Section ExtraHttp.

Import Http.




End ExtraHttp.

(** * Authentication *)

Section AuthFacts.

Import Auth.

Lemma truthy_Some (x : option string) (t : string) :
  Js.truthy x = Some t → x = Some t ∧ t ≠ "".
Proof.
  unfold Js.truthy. destruct x as [s|]; [|done].
  case_decide; [done|]. by intros [= ->].
Qed.

Lemma split_space_nonempty (s : string) : split_space s ≠ [].
Proof.
  induction s as [|c r IH]; [done|]. simpl.
  destruct (Ascii.eqb c _); [done|]. by destruct (split_space r).
Qed.

Lemma split_space_head (s t : string) (rest : list string) :
  split_space s = t :: rest →
  spaceless t = true
  ∧ ((rest = [] ∧ s = t)
     ∨ ∃ s', s = t +:+ " " +:+ s' ∧ split_space s' = rest).
Proof.
  revert t rest. induction s as [|c r IH]; intros t rest.
  - intros [= <- <-]. split; [done|]. by left.
  - simpl. destruct (Ascii.eqb c (Ascii.ascii_of_nat 32)) eqn:Hc.
    + apply Ascii.eqb_eq in Hc as ->. intros [= <- <-].
      split; [done|]. right. by exists r.
    + destruct (split_space r) as [|x rest'] eqn:Hr.
      { by destruct (split_space_nonempty r). }
      intros [= <- <-].
      destruct (IH x rest' eq_refl) as [Hx Hcases].
      split; [simpl; by rewrite Hc|].
      destruct Hcases as [[-> ->]|(s' & -> & Hs')]; [by left|].
      right. by exists s'.
Qed.

Lemma prefix_append (pre s : string) :
  String.prefix pre s = true → ∃ tail, s = pre +:+ tail.
Proof.
  revert s. induction pre as [|c pre IH]; intros s Hp.
  - by exists s.
  - destruct s as [|d s]; [done|]. simpl in Hp.
    destruct (Ascii.ascii_dec c d) as [->|]; [|done].
    destruct (IH s Hp) as [tail ->]. by exists tail.
Qed.

Lemma prefix_of_append (pre tail : string) :
  String.prefix pre (pre +:+ tail) = true.
Proof.
  induction pre as [|c pre IH]; [by destruct tail|].
  change (String c pre +:+ tail) with (String c (pre +:+ tail)).
  simpl. by destruct (Ascii.ascii_dec c c).
Qed.

End AuthFacts.

Section ExtraAuth.

Import Auth.

(** X21: [authenticate] lets a request through only with a token that
    the identity service has verified.  When it calls [next], the token
    is not empty and [getUser] has returned the user for it; if the
    request has an [Authorization] header, the header is "Bearer "
    followed by the token, which has no space in it, and by nothing else
    or by a space and more; the [token] query parameter is used only
    when there is no [Authorization] header. *)
Theorem authenticate_continues_only_with_a_verified_token
    (getUser : string → Verdict) (authorization query : option string)
    (user token : string) :
  authenticate getUser authorization query = Continue user token →
  getUser token = User user
  ∧ token ≠ ""
  ∧ match Js.truthy authorization with
    | Some header =>
        spaceless token = true
        ∧ ∃ rest, header = "Bearer " +:+ token +:+ rest
                  ∧ (rest = "" ∨ ∃ more, rest = " " +:+ more)
    | None => query = Some token
    end.
Proof.
  unfold authenticate.
  destruct (Js.truthy (token_of authorization query)) as [t|] eqn:Ht;
    [|done].
  destruct (getUser t) as [u| |] eqn:Hu; try done. intros [= -> ->].
  apply truthy_Some in Ht as [Ht Hne].
  split; [done|]. split; [done|].
  unfold token_of in Ht.
  destruct (Js.truthy authorization) as [header|].
  - destruct (String.prefix "Bearer " header) eqn:Hp; [|done].
    apply prefix_append in Hp as [tail ->].
    change (split_space ("Bearer " +:+ tail))
      with ("Bearer" :: split_space tail) in Ht.
    destruct (split_space tail) as [|t0 rest] eqn:Hs; [done|].
    simpl in Ht. simplify_eq.
    destruct (split_space_head tail token rest Hs)
      as [Hsp [[-> ->]|(s' & -> & _)]].
    + split; [done|]. exists "". split; [|by left].
      by rewrite append_nil_r.
    + split; [done|]. exists (" " +:+ s'). split; [done|]. right. eauto.
  - by apply truthy_Some in Ht as [-> _].
Qed.

Lemma authenticate_continues_only_with_a_verified_token_witness :
  authenticate Visitors.getUser (Some "Bearer secret extra")
    (Some "ignored") = Continue "ada" "secret"
  ∧ Visitors.getUser "secret" = User "ada".
Proof.
  split; [reflexivity|].
  apply (authenticate_continues_only_with_a_verified_token
           Visitors.getUser (Some "Bearer secret extra") (Some "ignored")
           "ada" "secret").
  reflexivity.
Defined.

(** X22: the two middlewares read the header alike where both accept it.
    Whenever [optionalAuth] attaches a user for a header, with a token
    that is not empty, [authenticate] lets a request with that header
    through with the same user and the same token, whatever the query
    says. *)
Theorem optionalAuth_agrees_with_authenticate
    (getUser : string → Verdict) (header : string) (query : option string)
    (user token : string) :
  optionalAuth getUser (Some header) = Some (user, token) →
  token ≠ "" →
  authenticate getUser (Some header) query = Continue user token.
Proof.
  unfold optionalAuth, authenticate, token_of.
  destruct (Js.truthy (Some header)) as [hd|] eqn:Hh; [|done].
  apply truthy_Some in Hh as [[= <-] Hne].
  destruct (split_space header) as [|scheme [|tok [|]]] eqn:Hs; try done.
  case_bool_decide as Hscheme; [|done]. subst scheme.
  destruct (getUser tok) as [u| |] eqn:Hu; try done.
  intros [= -> ->] Htok.
  destruct (split_space_head header "Bearer" [token] Hs)
    as [_ [[? _]|(s' & -> & Hs')]]; [done|].
  change ("Bearer" +:+ " " +:+ s') with ("Bearer " +:+ s').
  rewrite prefix_of_append. simpl.
  unfold Js.truthy. rewrite decide_False by done. by rewrite Hu.
Qed.

Lemma optionalAuth_agrees_with_authenticate_witness :
  optionalAuth Visitors.getUser (Some "Bearer secret") = Some ("ada", "secret")
  ∧ authenticate Visitors.getUser (Some "Bearer secret") None
    = Continue "ada" "secret".
Proof.
  split; [reflexivity|].
  by apply (optionalAuth_agrees_with_authenticate Visitors.getUser
              "Bearer secret" None "ada" "secret").
Defined.

End ExtraAuth.

(** * The results of a run *)

Section WordFacts.

Lemma space_runs_blank (pre rest : string) :
  blank pre = true →
  Js.space_runs true (pre +:+ rest) = Js.space_runs true rest.
Proof.
  induction pre as [|c pre IH]; [done|]. simpl.
  intros [Hc Hpre]%andb_prop.
  change (String c pre +:+ rest) with (String c (pre +:+ rest)).
  simpl. rewrite Hc. by apply IH.
Qed.

Lemma space_runs_lead (in_run : bool) (pre rest : string) :
  blank pre = true → pre ≠ "" →
  Js.space_runs in_run (pre +:+ rest)
  = (if in_run then 0 else 1) + Js.space_runs true rest.
Proof.
  destruct pre as [|c pre]; [done|]. simpl.
  intros [Hc Hpre]%andb_prop _.
  change (String c pre +:+ rest) with (String c (pre +:+ rest)).
  simpl. rewrite Hc. by rewrite space_runs_blank.
Qed.

Lemma space_runs_spaceless (w rest : string) :
  spaceless_word w = true →
  Js.space_runs false (w +:+ rest) = Js.space_runs false rest.
Proof.
  induction w as [|c w IH]; [done|]. simpl.
  intros [Hc Hw]%andb_prop. apply negb_true_iff in Hc.
  change (String c w +:+ rest) with (String c (w +:+ rest)).
  simpl. rewrite Hc. by apply IH.
Qed.

Lemma space_runs_word (in_run : bool) (w rest : string) :
  word w →
  Js.space_runs in_run (w +:+ rest) = Js.space_runs false rest.
Proof.
  intros [Hne Hw]. destruct w as [|c w]; [done|]. simpl in Hw.
  apply andb_prop in Hw as [Hc Hw]. apply negb_true_iff in Hc.
  change (String c w +:+ rest) with (String c (w +:+ rest)).
  simpl. rewrite Hc. by apply space_runs_spaceless.
Qed.

Lemma space_runs_words (in_run : bool) (w : string) (ws : list string)
    (rest : string) :
  Forall word (w :: ws) →
  Js.space_runs in_run (Js.join " " (w :: ws) +:+ rest)
  = length ws + Js.space_runs false rest.
Proof.
  revert in_run w. induction ws as [|w' ws IH]; intros in_run w Hall.
  - apply Forall_cons in Hall as [Hw _]. simpl. by apply space_runs_word.
  - apply Forall_cons in Hall as [Hw Hall].
    change (Js.join " " (w :: w' :: ws))
      with (w +:+ " " +:+ Js.join " " (w' :: ws)).
    rewrite !append_assoc, (space_runs_word in_run w _ Hw).
    change (" " +:+ Js.join " " (w' :: ws) +:+ rest)
      with (String (Ascii.ascii_of_nat 32) (Js.join " " (w' :: ws) +:+ rest)).
    change (Js.space_runs false
              (String (Ascii.ascii_of_nat 32) (Js.join " " (w' :: ws) +:+ rest)))
      with (1 + Js.space_runs true (Js.join " " (w' :: ws) +:+ rest)).
    rewrite (IH true w' Hall). simpl. lia.
Qed.

Lemma space_runs_trail (post : string) :
  blank post = true →
  Js.space_runs false post = if decide (post = "") then 0 else 1.
Proof.
  intros Hpost. destruct (decide (post = "")) as [->|Hne]; [done|].
  rewrite <- (append_nil_r post) at 1.
  by rewrite (space_runs_lead false post "" Hpost Hne).
Qed.

(** [text.split(/\s+/).length] of words that single spaces separate,
    between white space. *)
Lemma split_count_words (pre post : string) (words : list string) :
  words ≠ [] → Forall word words → blank pre = true → blank post = true →
  Js.split_count (pre +:+ Js.join " " words +:+ post)
  = (if decide (pre = "") then 0 else 1) + length words
    + (if decide (post = "") then 0 else 1).
Proof.
  intros Hne Hall Hpre Hpost. destruct words as [|w ws]; [done|].
  unfold Js.split_count.
  destruct (decide (pre = "")) as [->|Hpre'].
  - change ("" +:+ Js.join " " (w :: ws) +:+ post)
      with (Js.join " " (w :: ws) +:+ post).
    rewrite (space_runs_words false w ws post Hall),
      (space_runs_trail post Hpost). simpl. lia.
  - rewrite (space_runs_lead false pre _ Hpre Hpre'),
      (space_runs_words true w ws post Hall),
      (space_runs_trail post Hpost). simpl. lia.
Qed.

End WordFacts.

Section ResultFacts.

Context (h : Helpers) (env : Env) (p : Project).

Lemma recordSection_results (i : nat) (cfg : SectionConfig)
    (r : SectionResult) (s : State) :
  results (recordSection env p i cfg r s) = with_section cfg r (results s).
Proof.
  destruct s as [spc sloop ssecs sdraft [rsec rerr rwarn] slog sstat sinfl].
  unfold recordSection, finallySection, push_section, push_warnings, act,
    persist, set_sec, set_results, set_status, with_section.
  destruct (warnings r) as [|w ws] eqn:Hw; simpl;
    destruct (writeProgress env i); simpl; by rewrite ?app_nil_r.
Qed.

(** *** The titles on the result lists *)

Lemma omap_insert_keep {A B} (f : A → option B) (l : list A) (i : nat)
    (a b : A) :
  l !! i = Some a → f b = f a → omap f (<[i:=b]> l) = omap f l.
Proof.
  revert i. induction l as [|x l IH]; intros [|i] Hi Hf; try done.
  - simpl in Hi. simplify_eq. csimpl. by rewrite Hf.
  - csimpl. by rewrite (IH i Hi Hf).
Qed.

Lemma omap_insert_new {A B} (f : A → option B) (l : list A) (i : nat)
    (a b : A) (t : B) :
  l !! i = Some a → f a = None → f b = Some t →
  omap f (<[i:=b]> l) ≡ₚ t :: omap f l.
Proof.
  revert i. induction l as [|x l IH]; intros [|i] Hi Ha Hb; try done.
  - simpl in Hi. simplify_eq. csimpl. by rewrite Ha, Hb.
  - csimpl. destruct (f x) as [u|]; simpl.
    + rewrite (IH i Hi Ha Hb). apply Permutation_swap.
    + by apply IH.
Qed.

Lemma zip_insert_l (l : list SectionPc) (m : list SectionConfig) (i : nat)
    (y : SectionPc) (cfg : SectionConfig) :
  m !! i = Some cfg → zip (<[i:=y]> l) m = <[i:=(y, cfg)]> (zip l m).
Proof.
  intros Hcfg. rewrite <- (list_insert_id m i cfg Hcfg) at 1.
  symmetry. apply insert_zip_with.
Qed.

Lemma zip_lookup (l : list SectionPc) (m : list SectionConfig) (i : nat)
    (x : SectionPc) (cfg : SectionConfig) :
  l !! i = Some x → m !! i = Some cfg → zip l m !! i = Some (x, cfg).
Proof. intros Hx Hcfg. by rewrite lookup_zip_with, Hx, Hcfg. Qed.

(** A section that moves between two places of the same kind leaves the
    titles as they are. *)
Lemma decided_titles_keep (l : list SectionPc) (i : nat) (x y : SectionPc)
    (cfg : SectionConfig) :
  section_mapping p !! i = Some cfg → l !! i = Some x →
  undecided y = undecided x →
  decided_titles (<[i:=y]> l) (section_mapping p)
  = decided_titles l (section_mapping p).
Proof.
  intros Hcfg Hx Hxy. unfold decided_titles.
  rewrite (zip_insert_l _ _ _ _ _ Hcfg).
  apply (omap_insert_keep _ _ _ (x, cfg)); [by apply zip_lookup|].
  simpl. by rewrite Hxy.
Qed.

(** A section that gets onto one of the result lists adds its title. *)
Lemma decided_titles_new (l : list SectionPc) (i : nat) (x y : SectionPc)
    (cfg : SectionConfig) :
  section_mapping p !! i = Some cfg → l !! i = Some x →
  undecided x = true → undecided y = false →
  decided_titles (<[i:=y]> l) (section_mapping p)
  ≡ₚ templateSectionTitle cfg :: decided_titles l (section_mapping p).
Proof.
  intros Hcfg Hx Hux Huy. unfold decided_titles.
  rewrite (zip_insert_l _ _ _ _ _ Hcfg).
  apply (omap_insert_new _ _ _ (x, cfg)); [by apply zip_lookup| |];
    simpl; by rewrite ?Hux, ?Huy.
Qed.

Lemma decided_titles_ext (l l' : list SectionPc) (m : list SectionConfig) :
  (∀ j, undecided <$> (l !! j) = undecided <$> (l' !! j)) →
  decided_titles l m = decided_titles l' m.
Proof.
  revert l' m. induction l as [|x l IH]; intros [|x' l'] m H.
  - done.
  - by specialize (H 0).
  - by specialize (H 0).
  - destruct m as [|cfg m]; [done|].
    pose proof (H 0) as H0. simpl in H0. injection H0 as H0.
    unfold decided_titles in *. csimpl. rewrite H0.
    by rewrite (IH l' m (λ j, H (S j))).
Qed.

Lemma decided_titles_none (l : list SectionPc) (m : list SectionConfig) :
  Forall (λ x, undecided x = true) l → decided_titles l m = [].
Proof.
  intros Hall. revert m. induction Hall as [|x l Hx _ IH]; intros m; [done|].
  destruct m as [|cfg m]; [done|].
  unfold decided_titles in *. csimpl. by rewrite Hx, IH.
Qed.

Lemma decided_titles_all (l : list SectionPc) (m : list SectionConfig) :
  Forall (λ x, undecided x = false) l → length l = length m →
  decided_titles l m = templateSectionTitle <$> m.
Proof.
  intros Hall. revert m.
  induction Hall as [|x l Hx _ IH]; intros [|cfg m] Hlen; try done.
  unfold decided_titles in *. csimpl. rewrite Hx. simpl.
  f_equal. apply IH. simpl in Hlen. lia.
Qed.

Lemma decided_titles_sublist (l : list SectionPc) (m : list SectionConfig) :
  decided_titles l m `sublist_of` templateSectionTitle <$> m.
Proof.
  revert m. induction l as [|x l IH]; intros [|cfg m];
    try apply sublist_nil_l.
  unfold decided_titles in *. csimpl.
  destruct (undecided x); simpl.
  - apply sublist_cons, IH.
  - apply sublist_skip, IH.
Qed.

Lemma decided_titles_entered (i : nat) (s s' : State) :
  loop_head env p i s → Entered h p i s s' →
  decided_titles (secs s') (section_mapping p)
  = decided_titles (secs s) (section_mapping p).
Proof.
  intros Hh He. apply decided_titles_ext. intros j.
  destruct (entered_secs _ _ _ _ _ He) as [(Hi & _ & Hsecs)|(Hi & _ & Hsecs)];
    [|by rewrite Hsecs].
  rewrite Hsecs. case_bool_decide as Hin; [|done].
  destruct (lookup_lt_is_Some_2 (secs s) j) as [x0 Hx0].
  { rewrite (head_length _ _ _ _ Hh). lia. }
  pose proof (head_after _ _ _ _ Hh j x0 Hx0 ltac:(lia)) as ->.
  by rewrite Hx0.
Qed.

Lemma Raised_undecided (i : nat) (cfg : SectionConfig) (x : SectionPc)
    (e : Exn) :
  Raised h env p i cfg x e → undecided x = true.
Proof. by destruct 1. Qed.

(** The titles on the result lists are those of the sections that have
    got onto them. *)
Lemma reachable_titles (sched : list Choice) (s : State) :
  run h env p sched (init env p) = Some s →
  reported_titles (results s)
  ≡ₚ decided_titles (secs s) (section_mapping p).
Proof.
  revert sched s. apply effect_ind.
  - assert (decided_titles (secs (init env p)) (section_mapping p) = [])
      as ->.
    { apply decided_titles_none. unfold init, persist.
      destruct (initStatus env); simpl;
        apply Forall_forall; by intros x [-> _]%elem_of_replicate. }
    unfold init, persist. by destruct (initStatus env).
  - intros s s' Hinv Hinv' IH Heff.
    destruct Heff
      as [y new Hmain Hpc Hsecs Hloop Hd Hr Hlog
         |d s0 Hpc Hd Hpc0 Hsecs0 Hloop0 Hd0 Hr0 Hlog0 Hst0 Hh He
         |i cfg x y new Hcfg Hx Heff Hsecs Hlog Hpc Hloop Hd Hst
         |i cfg pending s1 Hcfg Hx outcome Hpc1 Hsecs1 Hloop1 Hd1 Hr1 Hlog1
            Hst1 Hset
         |Hpc Hsecs Hloop Hd Hr Hlog Hst].
    + by rewrite Hr, Hsecs.
    + rewrite (decided_titles_entered _ _ _ Hh He),
        (entered_results _ _ _ _ _ He), Hr0, Hsecs0. exact IH.
    + rewrite Hsecs. remember (results s') as r' eqn:Hr'.
      destruct Heff as [r Hrace|r Hw|x e Hraised Hl|x e Hraised Hl|].
      * rewrite (decided_titles_keep _ _ _ _ _ Hcfg Hx); done.
      * rewrite (decided_titles_new _ _ _ _ _ Hcfg Hx) by done.
        rewrite <- IH. unfold reported_titles, with_section. simpl.
        rewrite fmap_app. simpl. rewrite <- app_assoc. simpl.
        symmetry. apply Permutation_middle.
      * rewrite (decided_titles_new _ _ _ _ _ Hcfg Hx);
          [|by eapply Raised_undecided|done].
        rewrite <- IH. unfold reported_titles, with_error. simpl.
        rewrite fmap_app, app_assoc. simpl.
        symmetry. apply Permutation_cons_append.
      * rewrite (decided_titles_new _ _ _ _ _ Hcfg Hx);
          [|by eapply Raised_undecided|done].
        rewrite <- IH. unfold reported_titles, with_error. simpl.
        rewrite fmap_app, app_assoc. simpl.
        symmetry. apply Permutation_cons_append.
      * rewrite (decided_titles_keep _ _ _ _ _ Hcfg Hx); done.
    + assert (reported_titles (results s1)
              ≡ₚ decided_titles (secs s1) (section_mapping p)) as IH1.
      { rewrite Hr1, Hsecs1, (decided_titles_keep _ _ _ _ _ Hcfg Hx); done. }
      destruct Hset as [Hpc ->| e Hpc _ Hrej |Hpc _ -> |Hpc _ Hh He];
        try exact IH1.
      * by rewrite (rejected_results _ _ _ _ _ _ Hrej),
          (rejected_secs _ _ _ _ _ _ Hrej).
      * by rewrite (decided_titles_entered _ _ _ Hh He),
          (entered_results _ _ _ _ _ He).
    + by rewrite Hr, Hsecs.
Qed.

(** *** The run-level actions *)

Lemma skeleton_app (l1 l2 : list Action) :
  skeleton (l1 ++ l2) = skeleton l1 ++ skeleton l2.
Proof. apply filter_app. Qed.

Lemma SecEffect_not_run_level (i : nat) (cfg : SectionConfig) (s : State)
    (x y : SectionPc) (new : list Action) (r : Results) :
  SecEffect h env p i cfg s x y new r → skeleton new = [].
Proof. destruct 1; done. Qed.

Lemma start_log_not_run_level (done i : nat) (batch : list SectionConfig) :
  skeleton (start_log h p done i batch) = [].
Proof. apply filter_none, start_log_Forall; done. Qed.

Lemma skeleton_ok_ext (s s' : State) :
  pc s' = pc s → draftId s' = draftId s → results s' = results s →
  log s' = log s →
  skeleton_ok h p s → skeleton_ok h p s'.
Proof.
  unfold skeleton_ok, references_write, complete_event.
  by intros -> -> -> ->.
Qed.

Lemma skeleton_entered (i : nat) (s s' : State) :
  Entered h p i s s' →
  skeleton (log s) = [CreateDraft (projectId p)] →
  skeleton_ok h p s'.
Proof.
  intros He Hsk. unfold skeleton_ok, references_write.
  rewrite (entered_log _ _ _ _ _ He), skeleton_app, Hsk,
    (entered_draft _ _ _ _ _ He), (entered_results _ _ _ _ _ He).
  unfold loop_log.
  destruct (entered_secs _ _ _ _ _ He) as [(Hi & -> & _)|(Hi & -> & _)].
  - rewrite bool_decide_eq_true_2 by done.
    by rewrite start_log_not_run_level.
  - by rewrite bool_decide_eq_false_2 by lia.
Qed.

(** The run-level actions in every state of a run. *)
Lemma reachable_skeleton (sched : list Choice) (s : State) :
  run h env p sched (init env p) = Some s → skeleton_ok h p s.
Proof.
  revert sched s. apply effect_ind.
  - unfold skeleton_ok, init, persist. by destruct (initStatus env).
  - intros s s' Hinv Hinv' IH Heff.
    destruct Heff
      as [y new Hmain Hpc Hsecs Hloop Hd Hr Hlog
         |d s0 Hpc Hd Hpc0 Hsecs0 Hloop0 Hd0 Hr0 Hlog0 Hst0 Hh He
         |i cfg x y new Hcfg Hx Heff Hsecs Hlog Hpc Hloop Hd Hst
         |i cfg pending s1 Hcfg Hx outcome Hpc1 Hsecs1 Hloop1 Hd1 Hr1 Hlog1
            Hst1 Hset
         |Hpc Hsecs Hloop Hd Hr Hlog Hst].
    + unfold skeleton_ok, references_write, complete_event in *.
      rewrite Hpc, Hlog, skeleton_app, Hd, Hr.
      inversion Hmain; subst;
        match goal with H : _ = pc s |- _ => rewrite <- H in IH end;
        simpl in IH |- *.
      * left. by rewrite IH.
      * by rewrite IH.
      * right; left. by rewrite app_nil_r.
      * eexists. split; [apply forward_references|]. by rewrite IH.
      * by rewrite IH.
      * eexists. split; [apply forward_ready|]. by rewrite IH.
      * by rewrite IH.
      * destruct IH as (pre & Hpre & ->). right; right.
        exists pre, e. split; [done|]. left. by rewrite app_nil_r.
      * destruct IH as (pre & Hpre & ->). right; right.
        exists pre, e. split; [done|]. right. split; [done|].
        by rewrite <- app_assoc.
      * destruct IH as (pre & Hpre & ->). right; right.
        exists pre, e. split; [done|]. left. by rewrite app_nil_r.
    + apply (skeleton_entered 0 s0 s' He).
      unfold skeleton_ok in IH. rewrite Hpc in IH. by rewrite Hlog0.
    + assert (skeleton (log s') = skeleton (log s)) as Hsame.
      { by rewrite Hlog, skeleton_app,
          (SecEffect_not_run_level _ _ _ _ _ _ _ Heff), app_nil_r. }
      unfold skeleton_ok, references_write, complete_event in *.
      rewrite Hpc, Hsame, Hd.
      destruct (pc s) eqn:Hpcs; try done.
      all: assert (total p ≤ loop_i s) as Hafter
             by (apply (after_loop_pc h env p s Hinv); auto).
      all: pose proof (returned_all_settled h env p s i x Hinv Hafter Hx)
             as ->.
      all: by destruct (SecEffect_not_settled _ _ _ _ _ _ _ _ _ _ Heff None).
    + assert (skeleton_ok h p s1) as IH1.
      { by apply (skeleton_ok_ext s s1). }
      destruct Hset as [Hpc ->| e Hpc _ Hrej |Hpc _ -> |Hpc _ Hh He];
        try exact IH1.
      * unfold skeleton_ok in IH1 |- *. rewrite Hpc in IH1.
        rewrite (rejected_pc _ _ _ _ _ _ Hrej),
          (rejected_log _ _ _ _ _ _ Hrej), skeleton_app, IH1.
        eexists. split; [apply forward_draft|done].
      * apply (skeleton_entered _ s1 s' He).
        unfold skeleton_ok in IH1. by rewrite Hpc in IH1.
    + by apply (skeleton_ok_ext s s').
Qed.

End ResultFacts.

Section ExtraResults.

(** X23: the word count that is recorded for a generated section
    (line 105) is one more than the number of runs of white space in the
    text.  For words that single spaces separate it is the number of
    words, plus one if white space comes before the first word and plus
    one if white space comes after the last. *)
Theorem the_word_count_counts_white_space_at_the_ends
    (env : Env) (p : Project) (i : nat) (cfg : SectionConfig)
    (r : SectionResult) (s : State)
    (pre post : string) (words : list string) :
  words ≠ [] → Forall word words →
  blank pre = true → blank post = true →
  content r = Some (pre +:+ Js.join " " words +:+ post) →
  ∃ e, r_sections (results (recordSection env p i cfg r s))
       = r_sections (results s) ++ [e]
       ∧ sectionId e = templateSectionId cfg
       ∧ sectionTitle e = templateSectionTitle cfg
       ∧ wordCount e
         = (if decide (pre = "") then 0 else 1) + length words
           + (if decide (post = "") then 0 else 1).
Proof.
  intros Hne Hall Hpre Hpost Hc.
  rewrite (recordSection_results env p i cfg r s).
  unfold with_section. simpl. eexists. split; [reflexivity|]. simpl.
  split; [done|]. split; [done|].
  rewrite Hc. simpl. by apply split_count_words.
Qed.

Lemma the_word_count_counts_white_space_at_the_ends_witness :
  ∃ e, r_sections
         (results
            (recordSection Ex.calm Ex.one_section 0
               (Ex.section "1" (Some ["abstract"]))
               {| success := true; content := Some " alpha beta";
                  warnings := []; sourceRefs := [] |}
               (init Ex.calm Ex.one_section)))
       = [] ++ [e]
       ∧ sectionId e = "1"
       ∧ sectionTitle e = "Section 1"
       ∧ wordCount e = 1 + 2 + 0.
Proof.
  apply (the_word_count_counts_white_space_at_the_ends Ex.calm
           Ex.one_section 0 (Ex.section "1" (Some ["abstract"]))
           {| success := true; content := Some " alpha beta";
              warnings := []; sourceRefs := [] |}
           (init Ex.calm Ex.one_section) " " "" ["alpha"; "beta"]).
  - done.
  - repeat constructor; done.
  - reflexivity.
  - reflexivity.
  - reflexivity.
Defined.

(** X24: every section is reported once, under its own title.  In every
    state of a run the titles in [results.sections], together with the
    section names in [results.errors], are the titles of the sections
    that have got onto one of the two lists, each as often as there are
    such sections with that title; these are titles of the mapping, in
    its order.  Once the run has returned they are the titles of all the
    sections of the mapping. *)
Theorem every_section_is_reported_under_its_title
    (h : Helpers) (env : Env) (p : Project)
    (sched : list Choice) (s : State) :
  run h env p sched (init env p) = Some s →
  reported_titles (results s)
  ≡ₚ decided_titles (secs s) (section_mapping p)
  ∧ decided_titles (secs s) (section_mapping p)
    `sublist_of` templateSectionTitle <$> section_mapping p
  ∧ (pc s = Returned →
     reported_titles (results s)
     ≡ₚ templateSectionTitle <$> section_mapping p).
Proof.
  intros Hrun.
  pose proof (reachable_titles h env p sched s Hrun) as Ht.
  split; [exact Ht|]. split; [apply decided_titles_sublist|].
  intros Hpc. rewrite Ht.
  pose proof (reachable_invariant h env p sched s Hrun) as Hinv.
  pose proof (after_loop_pc h env p s Hinv (or_introl Hpc)) as Hafter.
  rewrite decided_titles_all; [done| |].
  - apply Forall_forall. intros x [j Hj]%list_elem_of_lookup.
    by rewrite (returned_all_settled h env p s j x Hinv Hafter Hj).
  - destruct Hinv as [Hs _ _]. by rewrite (shape_length _ _ _ Hs).
Qed.

Lemma every_section_is_reported_under_its_title_witness :
  ∃ s, run Ex.helpers Ex.quota Ex.one_section
         [Main; Main; Sec 0; Sec 0; Sec 0; Main; Main]
         (init Ex.quota Ex.one_section) = Some s
       ∧ r_sections (results s) = []
       ∧ r_errors (results s)
         = [{| section := "Section 1"; error := "quota exceeded" |}]
       ∧ reported_titles (results s) ≡ₚ ["Section 1"].
Proof.
  eexists. split; [vm_compute; reflexivity|].
  split; [reflexivity|]. split; [reflexivity|].
  match goal with
  | |- reported_titles (results ?s) ≡ₚ _ =>
      apply (every_section_is_reported_under_its_title Ex.helpers Ex.quota
               Ex.one_section [Main; Main; Sec 0; Sec 0; Sec 0; Main; Main]
               s);
        [vm_compute; reflexivity|reflexivity]
  end.
Defined.

(** X25: the actions of the run itself come in the order of the program.
    Leaving aside what the sections do and the first status update, a run
    that has returned has created one draft, written the references,
    set the status to 'ready' and emitted 'complete', in this order and
    nothing else.  A status update to 'draft' is made at most once, and
    only after the creation of the draft went through; the 'error' event
    with recoverable: false follows it at once, with the same message.
    A run that throws without them has at most asked for the draft. *)
Theorem the_run_level_actions_follow_the_program
    (h : Helpers) (env : Env) (p : Project)
    (sched : list Choice) (s : State) :
  run h env p sched (init env p) = Some s →
  match pc s with
  | AwaitInitStatus => skeleton (log s) = []
  | AwaitCreateDraft | AwaitBatch =>
      skeleton (log s) = [CreateDraft (projectId p)]
  | AwaitReferences =>
      skeleton (log s)
      = [CreateDraft (projectId p);
         UpdateDraftReferences (draftId s) (collectReferences (documents p))]
  | AwaitReady =>
      skeleton (log s)
      = [CreateDraft (projectId p);
         UpdateDraftReferences (draftId s) (collectReferences (documents p));
         ready_update p (results s)]
  | Returned =>
      skeleton (log s)
      = [CreateDraft (projectId p);
         UpdateDraftReferences (draftId s) (collectReferences (documents p));
         ready_update p (results s); complete_event p s]
  | AwaitRollback e =>
      ∃ pre, Forward p pre ∧ skeleton (log s) = pre ++ [rollback_update h p e]
  | Thrown e =>
      skeleton (log s) = []
      ∨ skeleton (log s) = [CreateDraft (projectId p)]
      ∨ ∃ pre e0,
          Forward p pre
          ∧ (skeleton (log s) = pre ++ [rollback_update h p e0]
             ∨ (e0 = e
                ∧ skeleton (log s)
                  = pre ++ [rollback_update h p e; fatal_error h p e]))
  end.
Proof. intros Hrun. exact (reachable_skeleton h env p sched s Hrun). Qed.

Lemma the_run_level_actions_follow_the_program_witness :
  ∃ s, run Ex.helpers Ex.calm Ex.one_section
         [Main; Main; Sec 0; Sec 0; Sec 0; Main; Main]
         (init Ex.calm Ex.one_section) = Some s
       ∧ skeleton (log s)
         = [CreateDraft "P";
            UpdateDraftReferences (draftId s)
              (collectReferences (documents Ex.one_section));
            ready_update Ex.one_section (results s);
            complete_event Ex.one_section s].
Proof.
  eexists. split; [vm_compute; reflexivity|].
  match goal with
  | |- skeleton (log ?s) = _ =>
      exact (the_run_level_actions_follow_the_program Ex.helpers Ex.calm
               Ex.one_section [Main; Main; Sec 0; Sec 0; Sec 0; Main; Main]
               s ltac:(vm_compute; reflexivity))
  end.
Defined.

End ExtraResults.
